(** * Vulkan frame-graph executer: partitioning of scopes into execute groups

    A shallow embedding of
    [Gems/Atom/RHI/Vulkan/Code/Source/RHI/FrameGraphExecuter.cpp] and
    [Gems/Atom/RHI/Vulkan/Code/Source/RHI/SemaphoreTracker.cpp].

    Conventions.
    - [uint32_t] values are integers in [Z]; every arithmetic result is
      reduced with [wrap32], the wrap-around of unsigned arithmetic.
    - [int] values are integers in [Z]; signed overflow is undefined in C++
      and is not modelled.
    - A null pointer, [front()] or [back()] of an empty vector, and an index
      out of range are undefined in C++; the operations that can reach one
      return [option] and yield [None] there.
    - Pointers to scopes, fences, semaphores and swap chains are modelled by
      the objects themselves (scopes) or by identifiers (the other three). *)

From Stdlib Require Import ZArith List Lia String.
From stdpp Require Import base option list gmap.

Local Open Scope Z_scope.

(** ** Machine integers *)

Definition wrap32 (x : Z) : Z := x mod 2 ^ 32.

(** ** Declarations the two files rely on *)

(** [RHI::HardwareQueueClass]. *)
Inductive HardwareQueueClass := Graphics | Compute | Copy.

Global Instance HardwareQueueClass_eq_dec : EqDecision HardwareQueueClass.
Proof. solve_decision. Defined.

(** [RHI::JobPolicy]. *)
Inductive JobPolicy := Serial | Parallel.

(** [RHI::ResultCode]. *)
Inductive ResultCode :=
  Success | Fail | OutOfMemory | Unimplemented | InvalidOperation | InvalidArgument | NotReady.

(** Identities of the objects a scope points to. *)
Definition Fence := positive.
Definition Semaphore := positive.
Definition SwapChain := positive.
Definition Attachment := positive.

(** [RHI::GraphGroupId], a handle over an unsigned index. *)
Definition GraphGroupId := Z.

(** The part of [Scope] that [BeginInternal] reads, one field per getter. *)
Record Scope := {
  GetName : string;
  GetHardwareQueueClass : HardwareQueueClass;
  GetDeviceIndex : Z;
  GetEstimatedItemCount : Z;
  GetAttachments : list Attachment;
  GetFrameGraphGroupId : GraphGroupId;
  GetWaitSemaphores : list Semaphore;
  GetSignalSemaphores : list Semaphore;
  GetWaitFences : list Fence;
  GetSignalFences : list Fence;
  GetSwapChainsToPresent : list SwapChain
}.

(** [RHI::FrameGraphExecuterData], the per-device limits. *)
Record FrameGraphExecuterData := {
  m_itemCost : Z;
  m_attachmentCost : Z;
  m_swapChainsPerCommandList : Z;
  m_commandListCostThresholdMin : Z;
  m_commandListsPerScopeMax : Z
}.

(** What the included headers provide and the two files only use:
    - [InvalidDeviceIndex] is [RHI::MultiDevice::InvalidDeviceIndex];
    - [DivideAndRoundUp] is [AZ::DivideAndRoundUp] at [uint32_t];
    - [DefaultExecuterData] is the value-initialised [FrameGraphExecuterData]
      that [m_frameGraphExecuterData[i]] yields for a device without entry;
    - [SignalFenceFromCPU i] is
      [GetDevice().GetFeatures().m_signalFenceFromCPU] of device [i]. *)
Class Platform := {
  InvalidDeviceIndex : Z;
  DivideAndRoundUp : Z -> Z -> Z;
  DefaultExecuterData : FrameGraphExecuterData;
  SignalFenceFromCPU : Z -> bool
}.

(** Modelled from the spec: [AZ::DivideAndRoundUp] is declared in a header
    outside these files; the spec describes it as the quotient "rounded up". *)
Definition DivideAndRoundUp_u32 (value alignment : Z) : Z :=
  wrap32 (value + alignment - 1) / alignment.

(** ** SemaphoreTracker.cpp *)

Module Tracker.

Record SemaphoreTracker := {
  m_semaphoreCounter : Z;
  m_signalledSemaphoreCounter : Z
}.

(** [SemaphoreTracker::SemaphoreTracker(int)]; the signalled counter starts
    at zero. *)
Definition Create (initialNumberOfSemaphores : Z) : SemaphoreTracker :=
  {| m_semaphoreCounter := initialNumberOfSemaphores;
     m_signalledSemaphoreCounter := 0 |}.

Definition AddSemaphores (numSemaphores : Z) (t : SemaphoreTracker) : SemaphoreTracker :=
  {| m_semaphoreCounter := m_semaphoreCounter t + numSemaphores;
     m_signalledSemaphoreCounter := m_signalledSemaphoreCounter t |}.

(** The predicate both [SignalSemaphores] and the wait test. *)
Definition AllSignalled (t : SemaphoreTracker) : bool :=
  bool_decide (m_signalledSemaphoreCounter t = m_semaphoreCounter t).

(** [SignalSemaphores]: the new tracker and whether [notify_all] ran. *)
Definition SignalSemaphores (numSemaphores : Z) (t : SemaphoreTracker)
  : SemaphoreTracker * bool :=
  let t' := {| m_semaphoreCounter := m_semaphoreCounter t;
               m_signalledSemaphoreCounter :=
                 m_signalledSemaphoreCounter t + numSemaphores |} in
  (t', AllSignalled t').

(** [WaitForSignalAllSemaphores] is [m_waitCondition.wait(lock, pred)]: the
    call returns in a state only if [pred] holds there; otherwise the
    caller stays blocked, which is [None]. *)
Definition WaitForSignalAllSemaphores (t : SemaphoreTracker) : option SemaphoreTracker :=
  if AllSignalled t then Some t else None.

(** What can happen to one tracker, in the order the lock serialises it. *)
Inductive Event :=
| EvAdd (numSemaphores : Z)
| EvSignal (numSemaphores : Z)
| EvWaitReturns.

Definition step (t : SemaphoreTracker) (e : Event) : option SemaphoreTracker :=
  match e with
  | EvAdd n => Some (AddSemaphores n t)
  | EvSignal n => Some (fst (SignalSemaphores n t))
  | EvWaitReturns => WaitForSignalAllSemaphores t
  end.

Fixpoint run (t : SemaphoreTracker) (es : list Event) : option SemaphoreTracker :=
  match es with
  | [] => Some t
  | e :: es' => match step t e with
                | Some t' => run t' es'
                | None => None
                end
  end.

(** The amounts a trace passes to [SignalSemaphores], resp. [AddSemaphores]. *)
Fixpoint signalled (es : list Event) : Z :=
  match es with
  | [] => 0
  | EvSignal n :: es' => n + signalled es'
  | _ :: es' => signalled es'
  end.

Fixpoint added (es : list Event) : Z :=
  match es with
  | [] => 0
  | EvAdd n :: es' => n + added es'
  | _ :: es' => added es'
  end.

Record SemaphoreTrackerCollection := {
  m_trackers : list SemaphoreTracker;
  m_semaphoreCount : Z
}.

(** A collection right after construction. *)
Definition NewCollection : SemaphoreTrackerCollection :=
  {| m_trackers := []; m_semaphoreCount := 0 |}.

(** The handle keeps the number of trackers to signal; the collection it
    points to is the one it was created from. *)
Record SemaphoreTrackerHandle := { m_countTrackers : Z }.

(** [m_trackers.back()->AddSemaphores(n); m_semaphoreCount += n;] *)
Definition CollectionAddSemaphores (numSemaphores : Z) (c : SemaphoreTrackerCollection)
  : option SemaphoreTrackerCollection :=
  match last (m_trackers c) with
  | None => None
  | Some back =>
      Some {| m_trackers :=
                <[pred (length (m_trackers c)) := AddSemaphores numSemaphores back]>
                  (m_trackers c);
              m_semaphoreCount := m_semaphoreCount c + numSemaphores |}
  end.

Definition CreateHandle (c : SemaphoreTrackerCollection)
  : SemaphoreTrackerCollection * SemaphoreTrackerHandle :=
  let trackers := m_trackers c ++ [Create (m_semaphoreCount c)] in
  ({| m_trackers := trackers; m_semaphoreCount := m_semaphoreCount c |},
   {| m_countTrackers := Z.of_nat (length trackers) |}).

(** [GetCurrentTracker] returns a reference to [m_trackers.back()]; the
    position stands for the shared pointer. *)
Definition GetCurrentTracker (c : SemaphoreTrackerCollection) : option nat :=
  match m_trackers c with
  | [] => None
  | _ :: _ => Some (pred (length (m_trackers c)))
  end.

(** The tracker [CreateHandle] has just appended. *)
Definition CreatedTracker (c : SemaphoreTrackerCollection) : option SemaphoreTracker :=
  last (m_trackers (fst (CreateHandle c))).

(** [SemaphoreTrackerCollection::SignalSemaphores]: trackers [0] to
    [countTrackers - 1] are signalled. *)
Fixpoint SignalFirst (count : nat) (numSemaphores : Z) (ts : list SemaphoreTracker)
  : option (list SemaphoreTracker) :=
  match count with
  | O => Some ts
  | S count' =>
      match ts with
      | [] => None
      | t :: ts' =>
          match SignalFirst count' numSemaphores ts' with
          | Some ts'' => Some (fst (SignalSemaphores numSemaphores t) :: ts'')
          | None => None
          end
      end
  end.

Definition CollectionSignalSemaphores (countTrackers numSemaphores : Z)
    (c : SemaphoreTrackerCollection) : option SemaphoreTrackerCollection :=
  match SignalFirst (Z.to_nat countTrackers) numSemaphores (m_trackers c) with
  | Some ts => Some {| m_trackers := ts; m_semaphoreCount := m_semaphoreCount c |}
  | None => None
  end.

Definition HandleSignalSemaphores (h : SemaphoreTrackerHandle) (numSemaphores : Z)
    (c : SemaphoreTrackerCollection) : option SemaphoreTrackerCollection :=
  CollectionSignalSemaphores (m_countTrackers h) numSemaphores c.

End Tracker.

(** ** FrameGraphExecuter.cpp *)

Module Executer.

Import Tracker.

Definition u32_add (a b : Z) : Z := wrap32 (a + b).
Definition u32_mul (a b : Z) : Z := wrap32 (a * b).

(** [static_cast<uint32_t>(v.size())]. *)
Definition size_u32 {A} (v : list A) : Z := wrap32 (Z.of_nat (length v)).

(** What [AddGroup<T>()] followed by [Init] records. The device is the index
    of the [Device&] handed to [Init]. *)
Inductive ExecuteGroup :=
| FrameGraphExecuteGroupPrimary
    (name : option string) (device : Z) (scopes : list Scope)
    (semaphoreTracker : option SemaphoreTrackerHandle)
| FrameGraphExecuteGroupSecondary
    (device : Z) (scope : Scope) (commandListCount : Z) (jobPolicy : JobPolicy)
    (semaphoreTracker : option SemaphoreTrackerHandle).

(** The scopes a group records. *)
Definition GroupScopes (g : ExecuteGroup) : list Scope :=
  match g with
  | FrameGraphExecuteGroupPrimary _ _ scopes _ => scopes
  | FrameGraphExecuteGroupSecondary _ scope _ _ _ => [scope]
  end.

Definition AllScopes (gs : list ExecuteGroup) : list Scope :=
  concat (map GroupScopes gs).

Definition IsPrimary (g : ExecuteGroup) : bool :=
  match g with
  | FrameGraphExecuteGroupPrimary _ _ _ _ => true
  | FrameGraphExecuteGroupSecondary _ _ _ _ _ => false
  end.

(** The running merge set and its accumulators, with [scopePrev]. *)
Record MergeState := {
  mergedScopes : list Scope;
  scopePrev : option Scope;
  mergedHardwareQueueClass : HardwareQueueClass;
  mergedGroupCost : Z;
  mergedSwapchainCount : Z;
  mergedDeviceIndex : Z
}.

(** The semaphore bookkeeping of [BeginInternal]. [swapChainTracker] holds,
    for each swap chain, the position in [m_trackers] of the tracker given
    to [SetSemaphoreTracker]. *)
Record TrackState := {
  semaphoreTrackers : option SemaphoreTrackerCollection;
  currentSemaphoreHandle : option SemaphoreTrackerHandle;
  userFencesSignalledMap : gmap Fence bool;
  numUnwaitedFences : Z;
  swapChainTracker : gmap SwapChain nat
}.

Record LoopState := {
  merge : MergeState;
  track : TrackState;
  m_groups : list ExecuteGroup
}.

(** [RHI::PlatformLimitsDescriptor] pointers by dynamic type: null, a
    descriptor that is not the Vulkan one, or the Vulkan one. *)
Inductive PlatformLimitsDescriptorPtr :=
| NullDescriptor
| OtherPlatformLimitsDescriptor
| VulkanPlatformLimitsDescriptor (m_frameGraphExecuterData : FrameGraphExecuterData).

(** [azrtti_cast<const PlatformLimitsDescriptor*>]. *)
Definition azrtti_cast (p : PlatformLimitsDescriptorPtr) : option FrameGraphExecuterData :=
  match p with
  | VulkanPlatformLimitsDescriptor d => Some d
  | _ => None
  end.

(** [InitInternal]: the descriptor's map in iteration order. *)
Definition InitInternal
    (m_frameGraphExecuterData : gmap Z FrameGraphExecuterData)
    (m_platformLimitsDescriptors : list (Z * PlatformLimitsDescriptorPtr))
  : gmap Z FrameGraphExecuterData * ResultCode :=
  (foldl (fun m entry =>
            match azrtti_cast (snd entry) with
            | Some d => <[fst entry := d]> m
            | None => m
            end)
         m_frameGraphExecuterData m_platformLimitsDescriptors,
   Success).

Section WithPlatform.
Context `{Platform}.

(** [m_frameGraphExecuterData[deviceIndex]]: for a device without entry
    [operator[]] inserts the value-initialised data and yields it, which
    changes no later read. *)
Definition ExecuterData (m : gmap Z FrameGraphExecuterData) (deviceIndex : Z)
  : FrameGraphExecuterData :=
  default DefaultExecuterData (m !! deviceIndex).

Definition CommandListCostThreshold (m : gmap Z FrameGraphExecuterData) (scope : Scope) : Z :=
  Z.max (m_commandListCostThresholdMin (ExecuterData m (GetDeviceIndex scope)))
        (DivideAndRoundUp (GetEstimatedItemCount scope)
           (m_commandListsPerScopeMax (ExecuterData m (GetDeviceIndex scope)))).

Definition totalScopeCost (m : gmap Z FrameGraphExecuterData) (scope : Scope) : Z :=
  u32_add
    (u32_mul (GetEstimatedItemCount scope)
             (m_itemCost (ExecuterData m (GetDeviceIndex scope))))
    (u32_mul (size_u32 (GetAttachments scope))
             (m_attachmentCost (ExecuterData m (GetDeviceIndex scope)))).

Definition sameGroupId (other : option Scope) (scope : Scope) : bool :=
  match other with
  | Some o => bool_decide (GetFrameGraphGroupId o = GetFrameGraphGroupId scope)
  | None => false
  end.

Definition subpassGroup (scopePrev : option Scope) (scope : Scope) (scopeNext : option Scope)
  : bool :=
  sameGroupId scopeNext scope || sameGroupId scopePrev scope.

Definition swapchainCount (scope : Scope) : Z :=
  size_u32 (GetSwapChainsToPresent scope).

Definition isEmpty {A} (v : list A) : bool :=
  match v with [] => true | _ :: _ => false end.

Definition exceededCommandCost m (ms : MergeState) (scope : Scope) : bool :=
  bool_decide (u32_add (mergedGroupCost ms) (totalScopeCost m scope)
               > CommandListCostThreshold m scope).

Definition exceededSwapChainLimit m (ms : MergeState) (scope : Scope) : bool :=
  bool_decide (u32_add (mergedSwapchainCount ms) (swapchainCount scope)
               > m_swapChainsPerCommandList (ExecuterData m (GetDeviceIndex scope))).

Definition hardwareQueueMismatch (ms : MergeState) (scope : Scope) : bool :=
  bool_decide (GetHardwareQueueClass scope <> mergedHardwareQueueClass ms).

Definition onSyncBoundaries (ms : MergeState) (scope : Scope) : bool :=
  negb (isEmpty (GetWaitSemaphores scope)) || negb (isEmpty (GetWaitFences scope))
  || match scopePrev ms with
     | Some prev => negb (isEmpty (GetSignalSemaphores prev))
                    || negb (isEmpty (GetSignalFences prev))
     | None => false
     end.

Definition deviceMismatch (ms : MergeState) (scope : Scope) : bool :=
  bool_decide (mergedDeviceIndex ms <> GetDeviceIndex scope).

Definition flushMergedScopes m (ms : MergeState) (scope : Scope) (scopeNext : option Scope)
  : bool :=
  exceededCommandCost m ms scope || exceededSwapChainLimit m ms scope
  || hardwareQueueMismatch ms scope || onSyncBoundaries ms scope
  || deviceMismatch ms scope || subpassGroup (scopePrev ms) scope scopeNext.

(** Lines 124-128: the queue class follows the scope while the cost is 0. *)
Definition ResetQueueClass (ms : MergeState) (scope : Scope) : MergeState :=
  if bool_decide (mergedGroupCost ms = 0) then
    {| mergedScopes := mergedScopes ms;
       scopePrev := scopePrev ms;
       mergedHardwareQueueClass := GetHardwareQueueClass scope;
       mergedGroupCost := mergedGroupCost ms;
       mergedSwapchainCount := mergedSwapchainCount ms;
       mergedDeviceIndex := mergedDeviceIndex ms |}
  else ms.

(** Lines 150-184. [AZStd::move(mergedScopes)] leaves the vector empty; the
    device comes from [scopePrev], a null pointer being [None]. *)
Definition FlushMergedScopes m (ms : MergeState) (handle : option SemaphoreTrackerHandle)
    (scope : Scope) (scopeNext : option Scope)
  : option (MergeState * list ExecuteGroup) :=
  if flushMergedScopes m ms scope scopeNext && negb (isEmpty (mergedScopes ms)) then
    match scopePrev ms with
    | Some prev =>
        Some ({| mergedScopes := [];
                 scopePrev := scopePrev ms;
                 mergedHardwareQueueClass := GetHardwareQueueClass scope;
                 mergedGroupCost := 0;
                 mergedSwapchainCount := 0;
                 mergedDeviceIndex := GetDeviceIndex scope |},
              [FrameGraphExecuteGroupPrimary None (GetDeviceIndex prev)
                 (mergedScopes ms) handle])
    | None => None
    end
  else Some (ms, []).

(** Lines 192-200, one signal fence. *)
Definition RegisterSignalFence (acc : gmap Fence bool * Z) (fence : Fence)
  : gmap Fence bool * Z :=
  match fst acc !! fence with
  | None => (<[fence := false]> (fst acc), snd acc + 1)
  | Some _ => acc
  end.

(** Lines 201-212, one wait fence. *)
Definition RegisterWaitFence (acc : gmap Fence bool * Z) (fence : Fence)
  : gmap Fence bool * Z :=
  (<[fence := true]> (fst acc),
   match fst acc !! fence with
   | Some false => snd acc - 1
   | _ => snd acc
   end).

(** Lines 215-223, one swap chain. *)
Definition BindSwapChain
    (acc : option (SemaphoreTrackerCollection * gmap Fence bool * Z * gmap SwapChain nat))
    (swapchain : SwapChain)
  : option (SemaphoreTrackerCollection * gmap Fence bool * Z * gmap SwapChain nat) :=
  match acc with
  | Some (c, _, unwaited, bound) =>
      match CollectionAddSemaphores unwaited c with
      | Some c' =>
          match GetCurrentTracker c' with
          | Some current => Some (c', ∅, 0, <[swapchain := current]> bound)
          | None => None
          end
      | None => None
      end
  | None => None
  end.

(** Lines 186-224. *)
Definition TrackSemaphores (useSemaphoreTrackers : bool) (ts : TrackState)
    (prev : option Scope) (scope : Scope) : option TrackState :=
  if useSemaphoreTrackers then
    match semaphoreTrackers ts with
    | None => None
    | Some c0 =>
        let presented :=
          match prev with
          | Some p => negb (isEmpty (GetSwapChainsToPresent p))
          | None => false
          end in
        let c1 := if presented then fst (CreateHandle c0) else c0 in
        let h1 := if presented then Some (snd (CreateHandle c0))
                  else currentSemaphoreHandle ts in
        let fences1 := foldl RegisterSignalFence
                         (userFencesSignalledMap ts, numUnwaitedFences ts)
                         (GetSignalFences scope) in
        let fences2 := foldl RegisterWaitFence fences1 (GetWaitFences scope) in
        match CollectionAddSemaphores
                (Z.of_nat (length (GetWaitSemaphores scope) + length (GetWaitFences scope)))
                c1 with
        | None => None
        | Some c2 =>
            match foldl BindSwapChain
                    (Some (c2, fst fences2, snd fences2, swapChainTracker ts))
                    (GetSwapChainsToPresent scope) with
            | None => None
            | Some (c3, fenceMap, unwaited, bound) =>
                Some {| semaphoreTrackers := Some c3;
                        currentSemaphoreHandle := h1;
                        userFencesSignalledMap := fenceMap;
                        numUnwaitedFences := unwaited;
                        swapChainTracker := bound |}
            end
        end
    end
  else Some ts.

(** Lines 226-241; [GetJobPolicy()] is [Parallel] in this build. *)
Definition MergeScope m (ms : MergeState) (handle : option SemaphoreTrackerHandle)
    (scope : Scope) (scopeNext : option Scope) : MergeState * list ExecuteGroup :=
  if negb (subpassGroup (scopePrev ms) scope scopeNext)
     && bool_decide (totalScopeCost m scope < CommandListCostThreshold m scope) then
    ({| mergedScopes := mergedScopes ms ++ [scope];
        scopePrev := scopePrev ms;
        mergedHardwareQueueClass := mergedHardwareQueueClass ms;
        mergedGroupCost := u32_add (mergedGroupCost ms) (totalScopeCost m scope);
        mergedSwapchainCount := u32_add (mergedSwapchainCount ms) (swapchainCount scope);
        mergedDeviceIndex := mergedDeviceIndex ms |}, [])
  else
    (ms, [FrameGraphExecuteGroupSecondary (GetDeviceIndex scope) scope
            (Z.max (DivideAndRoundUp (totalScopeCost m scope)
                      (CommandListCostThreshold m scope)) 1)
            Parallel handle]).

Definition SetScopePrev (ms : MergeState) (scope : Scope) : MergeState :=
  {| mergedScopes := mergedScopes ms;
     scopePrev := Some scope;
     mergedHardwareQueueClass := mergedHardwareQueueClass ms;
     mergedGroupCost := mergedGroupCost ms;
     mergedSwapchainCount := mergedSwapchainCount ms;
     mergedDeviceIndex := mergedDeviceIndex ms |}.

(** One iteration of the loop at lines 118-243. *)
Definition ProcessScope m (useSemaphoreTrackers : bool) (st : LoopState)
    (scope : Scope) (scopeNext : option Scope) : option LoopState :=
  let ms0 := ResetQueueClass (merge st) scope in
  match FlushMergedScopes m ms0 (currentSemaphoreHandle (track st)) scope scopeNext with
  | None => None
  | Some (ms1, flushed) =>
      match TrackSemaphores useSemaphoreTrackers (track st) (scopePrev ms1) scope with
      | None => None
      | Some ts1 =>
          let '(ms2, created) :=
            MergeScope m ms1 (currentSemaphoreHandle ts1) scope scopeNext in
          Some {| merge := SetScopePrev ms2 scope;
                  track := ts1;
                  m_groups := m_groups st ++ flushed ++ created |}
      end
  end.

Fixpoint MergeLoop m (useSemaphoreTrackers : bool) (st : LoopState) (scopes : list Scope)
  : option LoopState :=
  match scopes with
  | [] => Some st
  | scope :: rest =>
      match ProcessScope m useSemaphoreTrackers st scope (head rest) with
      | Some st' => MergeLoop m useSemaphoreTrackers st' rest
      | None => None
      end
  end.

(** Lines 245-253, the pending scopes; the device is that of
    [mergedScopes.front()]. *)
Definition MergePending (st : LoopState) : LoopState :=
  match mergedScopes (merge st) with
  | [] => st
  | front :: _ =>
      {| merge := {| mergedScopes := [];
                     scopePrev := scopePrev (merge st);
                     mergedHardwareQueueClass := mergedHardwareQueueClass (merge st);
                     mergedGroupCost := 0;
                     mergedSwapchainCount := 0;
                     mergedDeviceIndex := mergedDeviceIndex (merge st) |};
         track := track st;
         m_groups := m_groups st ++
           [FrameGraphExecuteGroupPrimary None (GetDeviceIndex front)
              (mergedScopes (merge st)) (currentSemaphoreHandle (track st))] |}
  end.

(** Lines 62-83 and 113-116: the locals before the loop. *)
Definition InitialTrackState (useSemaphoreTrackers : bool) : TrackState :=
  {| semaphoreTrackers :=
       if useSemaphoreTrackers then Some (fst (CreateHandle NewCollection)) else None;
     currentSemaphoreHandle :=
       if useSemaphoreTrackers then Some (snd (CreateHandle NewCollection)) else None;
     userFencesSignalledMap := ∅;
     numUnwaitedFences := 0;
     swapChainTracker := ∅ |}.

Definition InitialState (useSemaphoreTrackers : bool) : LoopState :=
  {| merge := {| mergedScopes := [];
                 scopePrev := None;
                 mergedHardwareQueueClass := Graphics;
                 mergedGroupCost := 0;
                 mergedSwapchainCount := 0;
                 mergedDeviceIndex := InvalidDeviceIndex |};
     track := InitialTrackState useSemaphoreTrackers;
     m_groups := [] |}.

(** One iteration of the loop at lines 89-110 ([AZ_FORCE_CPU_GPU_INSYNC]);
    [GetJobPolicy()] is [Serial] in that build. *)
Definition ProcessScopeInSync (st : LoopState) (scope : Scope) (scopeNext : option Scope)
  : LoopState :=
  let ms := merge st in
  if subpassGroup (scopePrev ms) scope scopeNext then
    {| merge := SetScopePrev ms scope;
       track := track st;
       m_groups := m_groups st ++
         [FrameGraphExecuteGroupSecondary (GetDeviceIndex scope) scope 1 Serial None] |}
  else
    {| merge := {| mergedScopes := [];
                   scopePrev := Some scope;
                   mergedHardwareQueueClass := mergedHardwareQueueClass ms;
                   mergedGroupCost := mergedGroupCost ms;
                   mergedSwapchainCount := mergedSwapchainCount ms;
                   mergedDeviceIndex := mergedDeviceIndex ms |};
       track := track st;
       m_groups := m_groups st ++
         [FrameGraphExecuteGroupPrimary (Some (GetName scope)) (GetDeviceIndex scope)
            (mergedScopes ms ++ [scope]) None] |}.

Fixpoint InSyncLoop (st : LoopState) (scopes : list Scope) : LoopState :=
  match scopes with
  | [] => st
  | scope :: rest => InSyncLoop (ProcessScopeInSync st scope (head rest)) rest
  end.

(** [BeginInternal] up to line 253, in the build selected by
    [forceCpuGpuInSync]. Line 78 reads the device features of
    [GetScopes().front()], which for an empty scope list is [None]. The
    result is the state with the groups added by [AddGroup]. *)
Definition BeginInternal (forceCpuGpuInSync : bool)
    (m : gmap Z FrameGraphExecuterData) (scopes : list Scope) : option LoopState :=
  match head scopes with
  | None => None
  | Some front =>
      let useSemaphoreTrackers := SignalFenceFromCPU (GetDeviceIndex front) in
      if forceCpuGpuInSync then
        Some (InSyncLoop (InitialState useSemaphoreTrackers) scopes)
      else
        match MergeLoop m useSemaphoreTrackers (InitialState useSemaphoreTrackers) scopes with
        | Some st => Some (MergePending st)
        | None => None
        end
  end.

(** ** Vocabulary of the statements *)

(** The unbounded sum of the costs of some scopes. *)
Definition sumCost (m : gmap Z FrameGraphExecuterData) (scopes : list Scope) : Z :=
  foldr (fun scope acc => totalScopeCost m scope + acc) 0 scopes.

(** The condition of the [if] at line 173, on the state an iteration
    starts in. *)
Definition willFlush m (ms : MergeState) (scope : Scope) (scopeNext : option Scope) : bool :=
  flushMergedScopes m (ResetQueueClass ms scope) scope scopeNext
  && negb (isEmpty (mergedScopes ms)).

(** The condition of the [if] at line 227. *)
Definition mergeable m (prev : option Scope) (scope : Scope) (scopeNext : option Scope)
  : bool :=
  negb (subpassGroup prev scope scopeNext)
  && bool_decide (totalScopeCost m scope < CommandListCostThreshold m scope).

Definition commandListCount m (scope : Scope) : Z :=
  Z.max (DivideAndRoundUp (totalScopeCost m scope) (CommandListCostThreshold m scope)) 1.

(** With semaphore trackers in use there is a collection with a tracker. *)
Definition TrackersReady (useSemaphoreTrackers : bool) (ts : TrackState) : Prop :=
  useSemaphoreTrackers = true ->
  exists c, semaphoreTrackers ts = Some c /\ m_trackers c <> [].

(** The loop state after the scopes [done]: [scopePrev] is the last of
    them, and the groups made so far together with the merge set hold
    exactly these scopes. *)
Definition Reached (useSemaphoreTrackers : bool) (done : list Scope) (st : LoopState)
  : Prop :=
  scopePrev (merge st) = last done /\
  TrackersReady useSemaphoreTrackers (track st) /\
  AllScopes (m_groups st) ++ mergedScopes (merge st) ≡ₚ done.

(** Every group made so far, and the merge set, lists scopes in the order
    of the input. *)
Definition InOrder (done : list Scope) (st : LoopState) : Prop :=
  Forall (fun g => GroupScopes g `sublist_of` done) (m_groups st) /\
  mergedScopes (merge st) `sublist_of` done.

(** The scopes of a flushed merge set cost, in 32-bit arithmetic, at most
    the threshold computed for the last of them. *)
Definition WithinThreshold (m : gmap Z FrameGraphExecuterData) (scopes : list Scope)
  : Prop :=
  exists lastScope,
    last scopes = Some lastScope /\
    wrap32 (sumCost m scopes) <= CommandListCostThreshold m lastScope.

(** [mergedGroupCost] is the 32-bit sum over the merge set and within the
    threshold of its last scope, and so was every merge set flushed. *)
Definition CostBounded (m : gmap Z FrameGraphExecuterData) (st : LoopState) : Prop :=
  mergedGroupCost (merge st) = wrap32 (sumCost m (mergedScopes (merge st))) /\
  (mergedScopes (merge st) <> [] -> WithinThreshold m (mergedScopes (merge st))) /\
  Forall (fun g => IsPrimary g = true -> WithinThreshold m (GroupScopes g)) (m_groups st).

(** After the scope that follows [before] has been processed, it has a
    secondary group of its own, the groups in front of it hold the scopes
    in front of it, and the later groups with the merge set the later
    scopes. *)
Definition Dedicated (before : list Scope) (scope : Scope) (done : list Scope)
    (st : LoopState) : Prop :=
  (length before < length done)%nat ->
  exists front back count handle,
    m_groups st =
      front ++ FrameGraphExecuteGroupSecondary (GetDeviceIndex scope) scope count
                 Parallel handle :: back /\
    AllScopes front ≡ₚ before /\
    AllScopes back ++ mergedScopes (merge st) ≡ₚ drop (S (length before)) done.

(** A scope without semaphores, fences and swap chains. *)
Definition Unsynchronized (scope : Scope) : Prop :=
  GetWaitSemaphores scope = [] /\ GetSignalSemaphores scope = [] /\
  GetWaitFences scope = [] /\ GetSignalFences scope = [] /\
  GetSwapChainsToPresent scope = [].

(** [mergedGroupCost] is the sum over the merge set without wrap-around, and
    the plain sum of every flushed merge set is within the threshold of its
    last scope. *)
Definition ExactCost (m : gmap Z FrameGraphExecuterData) (st : LoopState) : Prop :=
  sumCost m (mergedScopes (merge st)) = mergedGroupCost (merge st) /\
  Forall (fun g =>
            IsPrimary g = true ->
            exists lastScope,
              last (GroupScopes g) = Some lastScope /\
              sumCost m (GroupScopes g) <= CommandListCostThreshold m lastScope)
         (m_groups st).

Definition NoSignals (scope : Scope) : Prop :=
  GetSignalSemaphores scope = [] /\ GetSignalFences scope = [].

Definition NoWaits (scope : Scope) : Prop :=
  GetWaitSemaphores scope = [] /\ GetWaitFences scope = [].

(** No earlier scope of the list signals and no later scope of it waits. *)
Definition SyncSeparated (scopes : list Scope) : Prop :=
  forall i j a b,
    (i < j)%nat -> scopes !! i = Some a -> scopes !! j = Some b ->
    NoSignals a /\ NoWaits b.

(** The merge set and the flushed merge sets cross no synchronization
    boundary; only the scope processed last may signal. *)
Definition SyncBounded (st : LoopState) : Prop :=
  SyncSeparated (mergedScopes (merge st)) /\
  (forall a, a ∈ mergedScopes (merge st) -> NoSignals a \/ scopePrev (merge st) = Some a) /\
  Forall (fun g => SyncSeparated (GroupScopes g)) (m_groups st).

(** The scope before position [i]. *)
Definition ScopeBefore (scopes : list Scope) (i : nat) : option Scope :=
  match i with
  | O => None
  | S j => scopes !! j
  end.

(** The group the in-sync build makes for a scope between two neighbours. *)
Definition InSyncGroup (prev : option Scope) (scope : Scope) (next : option Scope)
  : ExecuteGroup :=
  if subpassGroup prev scope next then
    FrameGraphExecuteGroupSecondary (GetDeviceIndex scope) scope 1 Serial None
  else
    FrameGraphExecuteGroupPrimary (Some (GetName scope)) (GetDeviceIndex scope) [scope] None.

End WithPlatform.

End Executer.

(** ** Execute-group handlers and [ExecuteGroupInternal] *)

Module Handler.

(** Modelled from the spec: [FrameGraphExecuteGroupHandler] is defined in
    files outside this development. Section 4.2 of the spec: a handler
    tracks whether all of its groups have finished recording ([IsComplete])
    and whether it has already finalized ([IsExecuted]); [End()] performs
    the submission, after which the handler has executed.
    [m_executeGroups] keeps for each group of the handler whether it is
    complete. *)
Record FrameGraphExecuteGroupHandler := {
  m_isExecuted : bool;
  m_executeGroups : list bool
}.

Definition IsExecuted (h : FrameGraphExecuteGroupHandler) : bool := m_isExecuted h.

Definition IsComplete (h : FrameGraphExecuteGroupHandler) : bool :=
  forallb id (m_executeGroups h).

Definition End (h : FrameGraphExecuteGroupHandler) : FrameGraphExecuteGroupHandler :=
  {| m_isExecuted := true; m_executeGroups := m_executeGroups h |}.

(** [ExecuteGroupInternal] on a group with id [groupId]: the new handler map
    and the handlers whose [End()] the call invoked. A missing handler trips
    the assertion and is [None]. *)
Definition ExecuteGroupInternal
    (m_groupHandlers : gmap GraphGroupId FrameGraphExecuteGroupHandler)
    (groupId : GraphGroupId)
  : option (gmap GraphGroupId FrameGraphExecuteGroupHandler * list GraphGroupId) :=
  match m_groupHandlers !! groupId with
  | None => None
  | Some handler =>
      if negb (IsExecuted handler) && IsComplete handler then
        Some (<[groupId := End handler]> m_groupHandlers, [groupId])
      else Some (m_groupHandlers, [])
  end.

(** What happens to the handlers between [Begin] and [End]: a group of a
    handler finishes (or not yet) recording, or [ExecuteGroup] is called. *)
Inductive Action :=
| ActSetComplete (groupId : GraphGroupId) (group : nat) (complete : bool)
| ActExecuteGroup (groupId : GraphGroupId).

Definition SetComplete (group : nat) (complete : bool) (h : FrameGraphExecuteGroupHandler)
  : FrameGraphExecuteGroupHandler :=
  {| m_isExecuted := m_isExecuted h;
     m_executeGroups := <[group := complete]> (m_executeGroups h) |}.

Definition act (m : gmap GraphGroupId FrameGraphExecuteGroupHandler) (a : Action)
  : option (gmap GraphGroupId FrameGraphExecuteGroupHandler * list GraphGroupId) :=
  match a with
  | ActSetComplete groupId group complete =>
      Some (alter (SetComplete group complete) groupId m, [])
  | ActExecuteGroup groupId => ExecuteGroupInternal m groupId
  end.

Fixpoint run (m : gmap GraphGroupId FrameGraphExecuteGroupHandler) (actions : list Action)
  : option (gmap GraphGroupId FrameGraphExecuteGroupHandler * list GraphGroupId) :=
  match actions with
  | [] => Some (m, [])
  | a :: rest =>
      match act m a with
      | None => None
      | Some (m', ends) =>
          match run m' rest with
          | None => None
          | Some (m'', ends') => Some (m'', ends ++ ends')
          end
      end
  end.

(** How many times [End()] ran on the handler of [groupId]. *)
Definition EndCalls (groupId : GraphGroupId) (ends : list GraphGroupId) : nat :=
  length (filter (fun g => g = groupId) ends).

(** The group id an action names has a handler. *)
Definition HasHandler (m : gmap GraphGroupId FrameGraphExecuteGroupHandler) (a : Action)
  : Prop :=
  match a with
  | ActSetComplete groupId _ _ => True
  | ActExecuteGroup groupId => is_Some (m !! groupId)
  end.

(** The handler of [groupId] has executed. *)
Definition Executed (m : gmap GraphGroupId FrameGraphExecuteGroupHandler)
    (groupId : GraphGroupId) : Prop :=
  exists h, m !! groupId = Some h /\ IsExecuted h = true.

End Handler.

(** ** Concrete inputs *)

Module Examples.

Import Tracker Executer.

(** A scope without semaphores, fences or swap chains. *)
Definition PlainScope (name : string) (queue : HardwareQueueClass) (device : Z)
    (itemCount : Z) (attachments : list Attachment) (groupId : GraphGroupId) : Scope :=
  {| GetName := name;
     GetHardwareQueueClass := queue;
     GetDeviceIndex := device;
     GetEstimatedItemCount := itemCount;
     GetAttachments := attachments;
     GetFrameGraphGroupId := groupId;
     GetWaitSemaphores := [];
     GetSignalSemaphores := [];
     GetWaitFences := [];
     GetSignalFences := [];
     GetSwapChainsToPresent := [] |}.

(** Limits with a minimal cost threshold of 20. *)
Definition Limits20 : FrameGraphExecuterData :=
  {| m_itemCost := 1;
     m_attachmentCost := 8;
     m_swapChainsPerCommandList := 8;
     m_commandListCostThresholdMin := 20;
     m_commandListsPerScopeMax := 16 |}.

(** A platform whose invalid device index is -1, with [DivideAndRoundUp_u32]
    for the division, [Limits20] for devices without entry and fences that
    can be signalled from the CPU. *)
Definition Vulkan : Platform :=
  {| InvalidDeviceIndex := -1;
     DivideAndRoundUp := DivideAndRoundUp_u32;
     DefaultExecuterData := Limits20;
     SignalFenceFromCPU := fun _ => true |}.

(** The executer data after [Init] with one Vulkan descriptor for device 0. *)
Definition Data20 : gmap Z FrameGraphExecuterData :=
  fst (InitInternal ∅ [(0, VulkanPlatformLimitsDescriptor Limits20)]).

(** Three scopes of cost 10, 15 and 5 with pairwise different group ids. *)
Definition ScopeA : Scope := PlainScope "A" Graphics 0 10 [] 1.
Definition ScopeB : Scope := PlainScope "B" Graphics 0 15 [] 2.
Definition ScopeC : Scope := PlainScope "C" Graphics 0 5 [] 3.

(** A scope without cost between two scopes of different queue classes. *)
Definition QueueS : Scope := PlainScope "S" Graphics 0 10 [] 1.
Definition QueueA : Scope := PlainScope "A" Graphics 0 0 [] 2.
Definition QueueB : Scope := PlainScope "B" Compute 0 5 [] 3.

(** Two devices: a scope that needs its own group on device 0, then a scope
    on device 1 and one on device 0. *)
Definition DeviceS : Scope := PlainScope "S" Graphics 0 10 [] 1.
Definition DeviceT : Scope := PlainScope "T" Graphics 0 30 [] 2.
Definition DeviceA : Scope := PlainScope "A" Graphics 1 5 [] 3.
Definition DeviceB : Scope := PlainScope "B" Graphics 0 5 [] 4.

(** Limits under which items cost nothing, and scopes whose cost comes from
    their attachments: 1, 15, 10 and 1, the third with 100 items. *)
Definition LimitsFreeItems : FrameGraphExecuterData :=
  {| m_itemCost := 0;
     m_attachmentCost := 1;
     m_swapChainsPerCommandList := 8;
     m_commandListCostThresholdMin := 20;
     m_commandListsPerScopeMax := 1 |}.

Definition DataFreeItems : gmap Z FrameGraphExecuterData :=
  fst (InitInternal ∅ [(0, VulkanPlatformLimitsDescriptor LimitsFreeItems)]).

Definition CostS : Scope := PlainScope "S" Graphics 0 0 (replicate 1 1%positive) 1.
Definition CostA : Scope := PlainScope "A" Graphics 0 0 (replicate 15 1%positive) 2.
Definition CostB : Scope := PlainScope "B" Graphics 0 100 (replicate 10 1%positive) 3.
Definition CostC : Scope := PlainScope "C" Graphics 0 0 (replicate 1 1%positive) 4.

(** A handler with two groups, the second still recording. *)
Definition Handlers : gmap GraphGroupId Handler.FrameGraphExecuteGroupHandler :=
  {[ 7 := {| Handler.m_isExecuted := false; Handler.m_executeGroups := [true; false] |} ]}.

Definition Calls : list Handler.Action :=
  [Handler.ActExecuteGroup 7; Handler.ActSetComplete 7 1 true;
   Handler.ActExecuteGroup 7; Handler.ActExecuteGroup 7].

End Examples.

(** ** Operations on a tracker collection *)

Module Collection.

Import Tracker.

(** What [BeginInternal] does to its collection: it opens a tracker or adds
    expected semaphores. *)
Inductive Op :=
| OpCreateHandle
| OpAddSemaphores (numSemaphores : Z).

Definition apply (c : SemaphoreTrackerCollection) (op : Op)
  : option SemaphoreTrackerCollection :=
  match op with
  | OpCreateHandle => Some (fst (CreateHandle c))
  | OpAddSemaphores k => CollectionAddSemaphores k c
  end.

Fixpoint applyAll (c : SemaphoreTrackerCollection) (ops : list Op)
  : option SemaphoreTrackerCollection :=
  match ops with
  | [] => Some c
  | op :: ops' =>
      match apply c op with
      | Some c' => applyAll c' ops'
      | None => None
      end
  end.

(** The amounts the operations add. *)
Fixpoint totalAdded (ops : list Op) : Z :=
  match ops with
  | [] => 0
  | OpAddSemaphores k :: ops' => k + totalAdded ops'
  | OpCreateHandle :: ops' => totalAdded ops'
  end.

Definition NonNegative (op : Op) : Prop :=
  match op with
  | OpCreateHandle => True
  | OpAddSemaphores k => 0 <= k
  end.

(** The values of the C++ [int] that holds the counters and the amounts. *)
Definition IntRange (z : Z) : Prop := - 2 ^ 31 <= z < 2 ^ 31.

(** Every amount is an [int], and so is the running total after every
    operation: no addition overflows. *)
Definition WithinInt (ops : list Op) : Prop :=
  Forall (fun op => match op with
                    | OpCreateHandle => True
                    | OpAddSemaphores k => IntRange k
                    end) ops /\
  forall n, IntRange (totalAdded (take n ops)).

(** The expected counts of the trackers, oldest first. *)
Definition ExpectedCounts (c : SemaphoreTrackerCollection) : list Z :=
  map m_semaphoreCounter (m_trackers c).

(** Counts that never decrease along the list. *)
Definition AscendingCounts (counts : list Z) : Prop :=
  forall i j a b,
    (i <= j)%nat -> counts !! i = Some a -> counts !! j = Some b -> a <= b.

(** The state of a collection that has a tracker: the current tracker
    expects the running total and nothing has been signalled. *)
Definition Open (c : SemaphoreTrackerCollection) : Prop :=
  exists front back,
    m_trackers c = front ++ [back] /\
    m_semaphoreCounter back = m_semaphoreCount c /\
    Forall (fun t => m_signalledSemaphoreCounter t = 0) (m_trackers c).

Definition Ascending (c : SemaphoreTrackerCollection) : Prop :=
  AscendingCounts (ExpectedCounts c) /\
  Forall (fun k => k <= m_semaphoreCount c) (ExpectedCounts c).

(** Events of a trace that are signals of a non-negative amount or returns
    of the wait. *)
Definition SignalOrWait (e : Event) : Prop :=
  match e with
  | EvAdd _ => False
  | EvSignal n => 0 <= n
  | EvWaitReturns => True
  end.

End Collection.

(** ** Assignment of handlers to the execute groups *)

Module Handlers.

Import Tracker Executer.

(** [FrameGraphExecuteGroupPrimaryHandler] or
    [FrameGraphExecuteGroupSecondaryHandler]. *)
Inductive HandlerClass := PrimaryHandler | SecondaryHandler.

(** What [AddExecuteGroupHandler] makes: the class of the handler and the
    device and groups handed to its [Init]. *)
Record ExecuteGroupHandler := {
  handlerClass : HandlerClass;
  handlerDevice : Z;
  handlerGroups : list ExecuteGroup
}.

(** [GetDevice()] of a group: the device handed to its [Init]. *)
Definition GroupDevice (g : ExecuteGroup) : Z :=
  match g with
  | FrameGraphExecuteGroupPrimary _ device _ _ => device
  | FrameGraphExecuteGroupSecondary device _ _ _ _ => device
  end.

(** The tracker handle handed to the [Init] of a group. *)
Definition GroupHandle (g : ExecuteGroup) : option SemaphoreTrackerHandle :=
  match g with
  | FrameGraphExecuteGroupPrimary _ _ _ handle => handle
  | FrameGraphExecuteGroupSecondary _ _ _ _ handle => handle
  end.

(** The handler for a run of groups, lines 317-323. *)
Definition MakeHandler (front : ExecuteGroup) (groups : list ExecuteGroup)
  : ExecuteGroupHandler :=
  {| handlerClass :=
       if bool_decide (length groups = 1%nat) && IsPrimary front
       then PrimaryHandler else SecondaryHandler;
     handlerDevice := GroupDevice front;
     handlerGroups := groups |}.

(** [AddExecuteGroupHandler]: nothing for no groups; [insert] of the
    unordered map keeps a handler that is already there. *)
Definition AddExecuteGroupHandler
    (m_groupHandlers : gmap GraphGroupId ExecuteGroupHandler)
    (groupId : GraphGroupId) (groups : list ExecuteGroup)
  : gmap GraphGroupId ExecuteGroupHandler :=
  match groups with
  | [] => m_groupHandlers
  | front :: _ =>
      match m_groupHandlers !! groupId with
      | Some _ => m_groupHandlers
      | None => <[groupId := MakeHandler front groups]> m_groupHandlers
      end
  end.

(** [EndInternal]: [m_groupHandlers.clear()]. *)
Definition EndInternal (m_groupHandlers : gmap GraphGroupId ExecuteGroupHandler)
  : gmap GraphGroupId ExecuteGroupHandler := ∅.

Section WithGroupId.

(** [GetGroupId()] of a group and the default-constructed
    [RHI::GraphGroupId], both declared outside these files. *)
Variable GetGroupId : ExecuteGroup -> GraphGroupId.
Variable NullGroupId : GraphGroupId.

(** The locals of the loop at lines 261-277. *)
Record HandlerState := {
  groupId : GraphGroupId;
  initGroupIndex : nat;
  m_groupHandlers : gmap GraphGroupId ExecuteGroupHandler
}.

(** [groupRefs] after the inner loop: the groups from [first] up to, not
    including, [i]. *)
Definition groupRefs (groups : list ExecuteGroup) (first i : nat) : list ExecuteGroup :=
  take (i - first) (drop first groups).

(** One iteration of the loop at lines 263-277. *)
Definition HandlerStep (groups : list ExecuteGroup) (st : HandlerState) (i : nat)
    (group : ExecuteGroup) : HandlerState :=
  if bool_decide (groupId st <> GetGroupId group) then
    {| groupId := GetGroupId group;
       initGroupIndex := i;
       m_groupHandlers :=
         AddExecuteGroupHandler (m_groupHandlers st) (groupId st)
           (groupRefs groups (initGroupIndex st) i) |}
  else st.

Fixpoint HandlerLoop (groups : list ExecuteGroup) (st : HandlerState) (i : nat)
    (rest : list ExecuteGroup) : HandlerState :=
  match rest with
  | [] => st
  | group :: rest' => HandlerLoop groups (HandlerStep groups st i group) (S i) rest'
  end.

(** Lines 255-285 of [BeginInternal]: the handlers for the groups. *)
Definition CreateHandlers (handlers : gmap GraphGroupId ExecuteGroupHandler)
    (groups : list ExecuteGroup) : gmap GraphGroupId ExecuteGroupHandler :=
  let st := HandlerLoop groups
              {| groupId := NullGroupId; initGroupIndex := 0; m_groupHandlers := handlers |}
              0 groups in
  AddExecuteGroupHandler (m_groupHandlers st) (groupId st)
    (groupRefs groups (initGroupIndex st) (length groups)).

(** [run] is the first maximal run of groups with id [id]: no group in
    front of it has the id, all of its groups have, and the group after it,
    if any, has not. *)
Definition FirstRun (id : GraphGroupId) (before run after : list ExecuteGroup) : Prop :=
  Forall (fun g => GetGroupId g <> id) before /\
  Forall (fun g => GetGroupId g = id) run /\
  run <> [] /\
  match after with
  | [] => True
  | g :: _ => GetGroupId g <> id
  end.

(** The handlers in the map so far cover the groups before the current
    run, and the groups of the current run have the current id. *)
Definition Covered (groups : list ExecuteGroup) (i : nat) (st : HandlerState) : Prop :=
  (initGroupIndex st <= i)%nat /\
  (forall j g, (j < initGroupIndex st)%nat -> groups !! j = Some g ->
               is_Some (m_groupHandlers st !! GetGroupId g)) /\
  (forall j g, (initGroupIndex st <= j < i)%nat -> groups !! j = Some g ->
               GetGroupId g = groupId st).

(** No handler with id [id] has been made yet: the map has what it had
    under [id], and the current id is another one unless no group has been
    seen. *)
Definition Untouched (handlers : gmap GraphGroupId ExecuteGroupHandler) (id : GraphGroupId) (i : nat) (st : HandlerState) : Prop :=
  m_groupHandlers st !! id = handlers !! id /\
  (groupId st <> id \/ (i = 0%nat /\ initGroupIndex st = 0%nat)).

(** Where the loop stands with respect to the first run of [id]. *)
Definition RunProgress (handlers : gmap GraphGroupId ExecuteGroupHandler)
    (id : GraphGroupId) (before run : list ExecuteGroup)
    (front : ExecuteGroup) (i : nat) (st : HandlerState) : Prop :=
  ((i <= length before)%nat -> Untouched handlers id i st) /\
  ((length before < i <= length before + length run)%nat ->
   groupId st = id /\ initGroupIndex st = length before /\
   m_groupHandlers st !! id = None) /\
  ((length before + length run < i)%nat ->
   m_groupHandlers st !! id = Some (MakeHandler front run)).

End WithGroupId.

(** Modelled from the spec: [GetGroupId()] of an execute group is declared
    outside these files; the spec has the group id "inherited from its
    scopes". Here it is that of the scope of the group, for a merged group
    that of its first scope, and [nullId] without scopes. *)
Definition FirstScopeGroupId (nullId : GraphGroupId) (g : ExecuteGroup) : GraphGroupId :=
  match g with
  | FrameGraphExecuteGroupPrimary _ _ scopes _ =>
      match scopes with
      | [] => nullId
      | scope :: _ => GetFrameGraphGroupId scope
      end
  | FrameGraphExecuteGroupSecondary _ scope _ _ _ => GetFrameGraphGroupId scope
  end.

End Handlers.

(** ** Vocabulary of further statements about [BeginInternal] *)

Module Vocabulary.

Import Tracker Executer Handlers.

Section WithPlatform.
Context `{Platform}.

(** The scopes the loop appends to a merge set, in input order. *)
Fixpoint MergedScopes (m : gmap Z FrameGraphExecuterData) (prev : option Scope)
    (scopes : list Scope) : list Scope :=
  match scopes with
  | [] => []
  | scope :: rest =>
      (if mergeable m prev scope (head rest) then [scope] else [])
      ++ MergedScopes m (Some scope) rest
  end.

(** The scopes the loop gives a group of their own, in input order. *)
Fixpoint UnmergedScopes (m : gmap Z FrameGraphExecuterData) (prev : option Scope)
    (scopes : list Scope) : list Scope :=
  match scopes with
  | [] => []
  | scope :: rest =>
      (if mergeable m prev scope (head rest) then [] else [scope])
      ++ UnmergedScopes m (Some scope) rest
  end.

Definition PrimaryGroups (groups : list ExecuteGroup) : list ExecuteGroup :=
  filter (fun g => IsPrimary g = true) groups.

Definition SecondaryGroups (groups : list ExecuteGroup) : list ExecuteGroup :=
  filter (fun g => IsPrimary g = false) groups.

(** A secondary group as line 237-240 makes it for its scope. *)
Definition SecondaryAsMade (m : gmap Z FrameGraphExecuterData) (g : ExecuteGroup) : Prop :=
  match g with
  | FrameGraphExecuteGroupPrimary _ _ _ _ => True
  | FrameGraphExecuteGroupSecondary device scope count policy _ =>
      device = GetDeviceIndex scope /\ count = commandListCount m scope /\
      1 <= count /\ policy = Parallel
  end.

(** The divisors of lines 134 and 237 for the scope are not zero. *)
Definition DivisorsNonZero (m : gmap Z FrameGraphExecuterData) (scope : Scope) : Prop :=
  m_commandListsPerScopeMax (ExecuterData m (GetDeviceIndex scope)) <> 0 /\
  CommandListCostThreshold m scope <> 0.

(** All scopes of the list have one hardware queue class. *)
Definition SameQueueClass (scopes : list Scope) : Prop :=
  forall a b, a ∈ scopes -> b ∈ scopes -> GetHardwareQueueClass a = GetHardwareQueueClass b.

(** The scopes of the merge set have the class the loop compares with, and
    the scopes of every group made so far have one class. *)
Definition QueueUniform (st : LoopState) : Prop :=
  (forall s, s ∈ mergedScopes (merge st) ->
             GetHardwareQueueClass s = mergedHardwareQueueClass (merge st)) /\
  Forall (fun g => SameQueueClass (GroupScopes g)) (m_groups st).

(** The fences registered as signalled and not waited for. *)
Definition UnwaitedFences (fences : gmap Fence bool) : gmap Fence bool :=
  filter (fun entry => snd entry = false) fences.

(** The scope presents a swap chain. *)
Definition Presents (scope : Scope) : bool :=
  negb (isEmpty (GetSwapChainsToPresent scope)).

(** The scopes in front of the last one. *)
Definition AllButLast (scopes : list Scope) : list Scope :=
  take (pred (length scopes)) scopes.

(** The number of swap chains the scopes present. *)
Definition swapChainTotal (scopes : list Scope) : Z :=
  foldr (fun scope acc => Z.of_nat (length (GetSwapChainsToPresent scope)) + acc) 0 scopes.

(** Two or more scopes present no more swap chains than a command list of
    the device of the last of them takes. *)
Definition FitsSwapChainLimit (m : gmap Z FrameGraphExecuterData) (scopes : list Scope)
  : Prop :=
  (2 <= length scopes)%nat ->
  exists lastScope,
    last scopes = Some lastScope /\
    swapChainTotal scopes
    <= m_swapChainsPerCommandList (ExecuterData m (GetDeviceIndex lastScope)).

(** [mergedSwapchainCount] is the number of swap chains of the merge set,
    and the merge set and every group made so far fit the limit. *)
Definition SwapChainsBounded (m : gmap Z FrameGraphExecuterData) (st : LoopState) : Prop :=
  mergedSwapchainCount (merge st) = swapChainTotal (mergedScopes (merge st)) /\
  FitsSwapChainLimit m (mergedScopes (merge st)) /\
  Forall (fun g => FitsSwapChainLimit m (GroupScopes g)) (m_groups st).

(** The number of trackers of the collection, 0 without collection. *)
Definition TrackerCount (ts : TrackState) : nat :=
  match semaphoreTrackers ts with
  | Some c => length (m_trackers c)
  | None => 0%nat
  end.

(** The bookkeeping with trackers in use: the current handle counts all
    trackers, the current tracker expects the running total, the expected
    counts ascend, nothing is signalled, [numUnwaitedFences] is the number of
    fences registered as not waited for, and every swap chain is bound to a
    tracker of the collection. *)
Definition Tracking (ts : TrackState) : Prop :=
  exists c h,
    semaphoreTrackers ts = Some c /\
    currentSemaphoreHandle ts = Some h /\
    m_countTrackers h = Z.of_nat (length (m_trackers c)) /\
    Collection.Open c /\
    Collection.Ascending c /\
    numUnwaitedFences ts = Z.of_nat (size (UnwaitedFences (userFencesSignalledMap ts))) /\
    (forall sc idx, swapChainTracker ts !! sc = Some idx ->
                    (idx < length (m_trackers c))%nat).

(** The handle of a group counts trackers that exist. *)
Definition HandleInRange (ts : TrackState) (g : ExecuteGroup) : Prop :=
  exists h, GroupHandle g = Some h /\
            1 <= m_countTrackers h <= Z.of_nat (TrackerCount ts).

(** The bookkeeping after the scopes [done]. *)
Definition Tracked (done : list Scope) (st : LoopState) : Prop :=
  Tracking (track st) /\
  TrackerCount (track st) = S (length (filter (fun s => Presents s = true) (AllButLast done))) /\
  (forall s sc, s ∈ done -> sc ∈ GetSwapChainsToPresent s ->
                is_Some (swapChainTracker (track st) !! sc)) /\
  Forall (HandleInRange (track st)) (m_groups st).

End WithPlatform.

End Vocabulary.

(** ** Calls of [ExecuteGroupInternal] that overlap *)

Module Interleaving.

Section WithHandler.

(** The handler class is declared outside these files. The calls are
    modelled for any handler type whose [IsExecuted] and [IsComplete] read
    the handler and whose [End] changes it. *)
Variable FrameGraphExecuteGroupHandler : Type.
Variable IsExecuted : FrameGraphExecuteGroupHandler -> bool.
Variable IsComplete : FrameGraphExecuteGroupHandler -> bool.
Variable End : FrameGraphExecuteGroupHandler -> FrameGraphExecuteGroupHandler.

(** The handlers, the calls in flight and the invocations of [End()] so
    far. A call in flight has passed line 296: it holds the id under which
    it found its handler and the outcome of the test. *)
Record State := {
  handlers : gmap GraphGroupId FrameGraphExecuteGroupHandler;
  inFlight : gmap nat (GraphGroupId * bool);
  ended : list GraphGroupId
}.

(** [ExecuteGroupInternal] takes no lock, so a call is two steps for the
    other threads: the lookup and the test (lines 291-296), and then
    [End()] or the return (lines 297-300). *)
Inductive Step :=
| StepTest (thread : nat) (groupId : GraphGroupId)
| StepEnd (thread : nat).

(** A thread is in one call at a time; a missing handler trips the
    assertion; both are [None]. *)
Definition step (st : State) (s : Step) : option State :=
  match s with
  | StepTest thread groupId =>
      match inFlight st !! thread, handlers st !! groupId with
      | None, Some handler =>
          Some {| handlers := handlers st;
                  inFlight :=
                    <[thread := (groupId, negb (IsExecuted handler) && IsComplete handler)]>
                      (inFlight st);
                  ended := ended st |}
      | _, _ => None
      end
  | StepEnd thread =>
      match inFlight st !! thread with
      | Some (groupId, true) =>
          Some {| handlers := alter End groupId (handlers st);
                  inFlight := delete thread (inFlight st);
                  ended := ended st ++ [groupId] |}
      | Some (groupId, false) =>
          Some {| handlers := handlers st;
                  inFlight := delete thread (inFlight st);
                  ended := ended st |}
      | None => None
      end
  end.

Fixpoint steps (st : State) (schedule : list Step) : option State :=
  match schedule with
  | [] => Some st
  | s :: rest =>
      match step st s with
      | Some st' => steps st' rest
      | None => None
      end
  end.

(** No call in flight, [End()] not yet invoked. *)
Definition Start (m : gmap GraphGroupId FrameGraphExecuteGroupHandler) : State :=
  {| handlers := m; inFlight := ∅; ended := [] |}.

End WithHandler.

Arguments handlers {_} _.
Arguments inFlight {_} _.
Arguments ended {_} _.
Arguments step {_} _ _ _ _ _.
Arguments steps {_} _ _ _ _ _.
Arguments Start {_} _.

End Interleaving.

(** ** More inputs *)

Module MoreExamples.

Import Tracker Executer Handlers Examples.

(** The platform of [Vulkan] on devices that cannot signal fences from the
    CPU. *)
Definition VulkanNoCpuSignal : Platform :=
  {| InvalidDeviceIndex := -1;
     DivideAndRoundUp := DivideAndRoundUp_u32;
     DefaultExecuterData := Limits20;
     SignalFenceFromCPU := fun _ => false |}.

(** A scope that signals fence 1 and presents swap chain 1, a scope that
    signals fence 2 and waits for fence 1 and semaphore 1, and a scope that
    presents swap chain 2. *)
Definition FrameP : Scope :=
  {| GetName := "P";
     GetHardwareQueueClass := Graphics;
     GetDeviceIndex := 0;
     GetEstimatedItemCount := 10;
     GetAttachments := [];
     GetFrameGraphGroupId := 1;
     GetWaitSemaphores := [];
     GetSignalSemaphores := [];
     GetWaitFences := [];
     GetSignalFences := [1%positive];
     GetSwapChainsToPresent := [1%positive] |}.

Definition FrameQ : Scope :=
  {| GetName := "Q";
     GetHardwareQueueClass := Graphics;
     GetDeviceIndex := 0;
     GetEstimatedItemCount := 15;
     GetAttachments := [];
     GetFrameGraphGroupId := 2;
     GetWaitSemaphores := [1%positive];
     GetSignalSemaphores := [];
     GetWaitFences := [1%positive];
     GetSignalFences := [2%positive];
     GetSwapChainsToPresent := [] |}.

Definition FrameR : Scope :=
  {| GetName := "R";
     GetHardwareQueueClass := Graphics;
     GetDeviceIndex := 0;
     GetEstimatedItemCount := 5;
     GetAttachments := [];
     GetFrameGraphGroupId := 3;
     GetWaitSemaphores := [];
     GetSignalSemaphores := [];
     GetWaitFences := [];
     GetSignalFences := [];
     GetSwapChainsToPresent := [2%positive] |}.

(** A second scope with the group id of [ScopeB]. *)
Definition ScopeB2 : Scope := PlainScope "B2" Graphics 0 15 [] 2.

(** Four execute groups: a merged one, two of one subpass chain, and a
    merged one. *)
Definition GroupA : ExecuteGroup := FrameGraphExecuteGroupPrimary None 0 [ScopeA] None.
Definition GroupB : ExecuteGroup := FrameGraphExecuteGroupSecondary 0 ScopeB 1 Parallel None.
Definition GroupB2 : ExecuteGroup := FrameGraphExecuteGroupSecondary 0 ScopeB2 1 Parallel None.
Definition GroupC : ExecuteGroup := FrameGraphExecuteGroupPrimary None 0 [ScopeC] None.

(** The null group id of the examples. *)
Definition NullId : GraphGroupId := -1.



(** Scopes of cost 5: two graphics scopes that can share a group, and a
    compute scope. *)
Definition QueueG1 : Scope := PlainScope "G1" Graphics 0 5 [] 2.
Definition QueueG2 : Scope := PlainScope "G2" Graphics 0 5 [] 3.
Definition QueueC : Scope := PlainScope "C" Compute 0 5 [] 4.

End MoreExamples.

(** * Properties *)

(** ** The semaphore tracker *)

Module TrackerProofs.

Import Tracker.

Lemma run_app t es1 es2 :
  run t (es1 ++ es2) =
  match run t es1 with
  | Some t' => run t' es2
  | None => None
  end.
Proof.
  revert t. induction es1 as [|e es1 IH]; intros t; simpl; [done|].
  destruct (step t e); [apply IH|done].
Qed.

(** Along a trace both counters are the initial ones plus what was passed. *)
Lemma run_counters es : forall t t',
  run t es = Some t' ->
  m_semaphoreCounter t' = m_semaphoreCounter t + added es /\
  m_signalledSemaphoreCounter t' = m_signalledSemaphoreCounter t + signalled es.
Proof.
  induction es as [|e es IH]; intros t t' Hrun; simpl in *.
  - injection Hrun as <-. lia.
  - destruct e as [n|n|]; simpl in Hrun.
    + apply IH in Hrun. simpl in Hrun. lia.
    + apply IH in Hrun. simpl in Hrun. lia.
    + unfold WaitForSignalAllSemaphores in Hrun.
      destruct (AllSignalled t); [|done]. apply IH in Hrun. lia.
Qed.

Lemma wait_returns_only_when_equal t t' :
  WaitForSignalAllSemaphores t = Some t' ->
  t' = t /\ m_signalledSemaphoreCounter t = m_semaphoreCounter t.
Proof.
  unfold WaitForSignalAllSemaphores, AllSignalled. case_bool_decide; naive_solver.
Qed.

Lemma CreatedTracker_eq c : CreatedTracker c = Some (Create (m_semaphoreCount c)).
Proof. unfold CreatedTracker, CreateHandle. simpl. apply last_snoc. Qed.

Lemma CollectionAddSemaphores_Some k c :
  m_trackers c <> [] ->
  exists back,
    last (m_trackers c) = Some back /\
    CollectionAddSemaphores k c =
    Some {| m_trackers :=
              <[pred (length (m_trackers c)) := AddSemaphores k back]> (m_trackers c);
            m_semaphoreCount := m_semaphoreCount c + k |}.
Proof.
  intros Hne. unfold CollectionAddSemaphores.
  destruct (last (m_trackers c)) as [back|] eqn:Hlast.
  - eauto.
  - apply last_None in Hlast. done.
Qed.

Lemma CollectionAddSemaphores_length k c c' :
  CollectionAddSemaphores k c = Some c' ->
  m_trackers c <> [] /\ length (m_trackers c') = length (m_trackers c).
Proof.
  unfold CollectionAddSemaphores.
  destruct (last (m_trackers c)) as [back|] eqn:Hlast; [|done].
  intros [= <-]. simpl. rewrite length_insert. split; [|done].
  intros Hnil. rewrite Hnil in Hlast. done.
Qed.

(** C5, as amended. A wait on a tracker made by [CreateHandle] returns only
    in a state where the amounts passed to [SignalSemaphores] add up to the
    expected count, which is the running total at creation plus the amounts
    added since. [AddSemaphores(k)] on a collection that already has a
    tracker raises by [k] the expected count of its current tracker and of
    the next tracker created. *)
Theorem tracker_wait_and_add_semaphores :
  (forall c es1 es2 t0 t',
      CreatedTracker c = Some t0 ->
      run t0 (es1 ++ EvWaitReturns :: es2) = Some t' ->
      signalled es1 = m_semaphoreCount c + added es1) /\
  (forall k c,
      m_trackers c <> [] ->
      exists c' back back' next next',
        CollectionAddSemaphores k c = Some c' /\
        last (m_trackers c) = Some back /\
        last (m_trackers c') = Some back' /\
        m_semaphoreCounter back' = m_semaphoreCounter back + k /\
        CreatedTracker c = Some next /\
        CreatedTracker c' = Some next' /\
        m_semaphoreCounter next' = m_semaphoreCounter next + k).
Proof.
  split.
  - intros c es1 es2 t0 t' Hcreated Hrun.
    rewrite CreatedTracker_eq in Hcreated. injection Hcreated as <-.
    rewrite run_app in Hrun.
    destruct (run (Create (m_semaphoreCount c)) es1) as [t1|] eqn:Hrun1; [|done].
    apply run_counters in Hrun1 as [Hcount Hsignalled]. simpl in Hcount, Hsignalled.
    simpl in Hrun.
    destruct (WaitForSignalAllSemaphores t1) as [t2|] eqn:Hwait; [|done].
    apply wait_returns_only_when_equal in Hwait as [_ Heq]. lia.
  - intros k c Hne.
    destruct (CollectionAddSemaphores_Some k c Hne) as (back & Hlast & Hadd).
    eexists _, back, (AddSemaphores k back), _, _.
    split; [exact Hadd|]. split; [exact Hlast|].
    split.
    { simpl. rewrite last_lookup, length_insert.
      apply list_lookup_insert_eq.
      destruct (m_trackers c); [done|simpl; lia]. }
    split; [done|].
    split; [apply CreatedTracker_eq|].
    split; [apply CreatedTracker_eq|]. done.
Qed.

(** C5, as amended, on the first tracker of a new collection. *)
Lemma tracker_wait_and_add_semaphores_witness :
  (CreatedTracker (fst (CreateHandle NewCollection)) = Some (Create 0) /\
   run (Create 0) ([EvAdd 2; EvSignal 2] ++ EvWaitReturns :: []) =
     Some {| m_semaphoreCounter := 2; m_signalledSemaphoreCounter := 2 |} /\
   signalled [EvAdd 2; EvSignal 2] =
     m_semaphoreCount (fst (CreateHandle NewCollection)) + added [EvAdd 2; EvSignal 2]) /\
  (m_trackers (fst (CreateHandle NewCollection)) <> [] /\
   exists c' back back' next next',
     CollectionAddSemaphores 3 (fst (CreateHandle NewCollection)) = Some c' /\
     last (m_trackers (fst (CreateHandle NewCollection))) = Some back /\
     last (m_trackers c') = Some back' /\
     m_semaphoreCounter back' = m_semaphoreCounter back + 3 /\
     CreatedTracker (fst (CreateHandle NewCollection)) = Some next /\
     CreatedTracker c' = Some next' /\
     m_semaphoreCounter next' = m_semaphoreCounter next + 3).
Proof.
  split.
  - split; [reflexivity|]. split; [reflexivity|].
    apply (proj1 tracker_wait_and_add_semaphores
             (fst (CreateHandle NewCollection)) [EvAdd 2; EvSignal 2] []
             (Create 0) {| m_semaphoreCounter := 2; m_signalledSemaphoreCounter := 2 |});
      reflexivity.
  - split; [simpl; discriminate|].
    apply (proj2 tracker_wait_and_add_semaphores 3 (fst (CreateHandle NewCollection))).
    simpl. discriminate.
Defined.

(** C5 as stated fails: before any tracker has been created,
    [AddSemaphores] reaches [back()] of an empty vector and produces no
    collection whose next tracker could expect more. *)
Lemma add_semaphores_before_first_tracker :
  ~ (forall k, exists c' next',
        CollectionAddSemaphores k NewCollection = Some c' /\
        CreatedTracker c' = Some next' /\
        m_semaphoreCounter next' = m_semaphoreCounter (Create 0) + k).
Proof.
  intros Hclaim. destruct (Hclaim 1) as (c' & next' & Hadd & _).
  vm_compute in Hadd. discriminate.
Qed.

End TrackerProofs.

(** ** Initialization *)

Module InitProofs.

Import Executer.

Lemma InitInternal_skips m descs device :
  Forall (fun entry => fst entry = device -> azrtti_cast (snd entry) = None) descs ->
  fst (InitInternal m descs) !! device = m !! device.
Proof.
  unfold InitInternal. simpl. revert m.
  induction descs as [|[i p] descs IH]; intros m Hall; simpl; [done|].
  inversion Hall as [|? ? Hhead Htail]; subst. simpl in Hhead.
  rewrite IH by done.
  destruct (azrtti_cast p) eqn:Hcast; [|done].
  destruct (decide (i = device)) as [->|Hne].
  - specialize (Hhead eq_refl). congruence.
  - by rewrite lookup_insert_ne.
Qed.

(** C9, as amended. [InitInternal] returns [Success] for every descriptor,
    malformed or not; an entry that is not a Vulkan platform-limits
    descriptor is skipped and leaves the data of its device as it was. *)
Theorem InitInternal_returns_Success m descs :
  snd (InitInternal m descs) = Success /\
  (forall device,
      Forall (fun entry => fst entry = device -> azrtti_cast (snd entry) = None) descs ->
      fst (InitInternal m descs) !! device = m !! device).
Proof.
  split; [reflexivity|]. intros device. apply InitInternal_skips.
Qed.

(** C9, as amended, on a descriptor without Vulkan entries. *)
Lemma InitInternal_returns_Success_witness :
  Forall (fun entry => fst entry = 0 -> azrtti_cast (snd entry) = None)
         [(0, OtherPlatformLimitsDescriptor); (1, NullDescriptor)] /\
  snd (InitInternal ∅ [(0, OtherPlatformLimitsDescriptor); (1, NullDescriptor)]) = Success /\
  fst (InitInternal ∅ [(0, OtherPlatformLimitsDescriptor); (1, NullDescriptor)]) !! 0
  = (∅ : gmap Z FrameGraphExecuterData) !! 0.
Proof.
  assert (Hskip : Forall (fun entry => fst entry = 0 -> azrtti_cast (snd entry) = None)
                    [(0, OtherPlatformLimitsDescriptor); (1, NullDescriptor)]).
  { repeat constructor. }
  split; [exact Hskip|].
  split.
  - apply (InitInternal_returns_Success ∅).
  - apply (proj2 (InitInternal_returns_Success ∅ _) 0 Hskip).
Defined.

(** C9 as stated fails: no descriptor makes [InitInternal] return a failure
    code. *)
Lemma InitInternal_never_fails :
  ~ (exists m descs, snd (InitInternal m descs) <> Success).
Proof. intros (m & descs & Hfail). apply Hfail. reflexivity. Qed.

End InitProofs.

(** ** Finalization of handlers *)

Module HandlerProofs.

Import Handler.

Lemma EndCalls_app groupId ends1 ends2 :
  EndCalls groupId (ends1 ++ ends2) = (EndCalls groupId ends1 + EndCalls groupId ends2)%nat.
Proof. unfold EndCalls. by rewrite filter_app, length_app. Qed.

Lemma EndCalls_nil groupId : EndCalls groupId [] = 0%nat.
Proof. reflexivity. Qed.

Lemma EndCalls_singleton groupId g :
  EndCalls groupId [g] = if decide (g = groupId) then 1%nat else 0%nat.
Proof.
  unfold EndCalls. rewrite filter_cons, filter_nil.
  destruct (decide (g = groupId)); reflexivity.
Qed.

(** What one call of [ExecuteGroupInternal] does. *)
Lemma ExecuteGroupInternal_cases m groupId m' ends :
  ExecuteGroupInternal m groupId = Some (m', ends) ->
  exists h, m !! groupId = Some h /\
    ((IsExecuted h = false /\ IsComplete h = true /\
      m' = <[groupId := End h]> m /\ ends = [groupId]) \/
     ((IsExecuted h = true \/ IsComplete h = false) /\ m' = m /\ ends = [])).
Proof.
  unfold ExecuteGroupInternal. intros Hcall.
  destruct (m !! groupId) as [h|]; [|done]. exists h. split; [done|].
  destruct (IsExecuted h) eqn:Hex, (IsComplete h) eqn:Hco; simpl in Hcall;
    injection Hcall as <- <-; naive_solver.
Qed.

Lemma act_Some m a :
  HasHandler m a -> exists m' ends, act m a = Some (m', ends).
Proof.
  destruct a as [groupId group complete|groupId]; simpl; [eauto|].
  intros [h Hh]. unfold ExecuteGroupInternal. rewrite Hh.
  destruct (negb (IsExecuted h) && IsComplete h); eauto.
Qed.

(** An action keeps the set of handlers, keeps executed handlers executed,
    and invokes [End()] only on a handler that had not executed, which has
    executed afterwards. *)
Lemma act_spec m a m' ends :
  act m a = Some (m', ends) ->
  (forall groupId, is_Some (m' !! groupId) <-> is_Some (m !! groupId)) /\
  (forall groupId, Executed m groupId -> Executed m' groupId /\ EndCalls groupId ends = 0%nat) /\
  (forall groupId, (EndCalls groupId ends <= 1)%nat) /\
  (forall groupId, EndCalls groupId ends = 1%nat -> Executed m' groupId).
Proof.
  destruct a as [gid group complete|gid]; simpl.
  - intros [= <- <-]. split; [|split; [|split]].
    + intros groupId. rewrite lookup_alter.
      case_decide; [subst; by rewrite fmap_is_Some|done].
    + intros groupId (h & Hh & Hex). split; [|apply EndCalls_nil].
      unfold Executed. rewrite lookup_alter.
      case_decide; [|eauto]. subst. rewrite Hh. simpl. eauto.
    + intros groupId. rewrite EndCalls_nil. lia.
    + intros groupId. rewrite EndCalls_nil. lia.
  - intros Hcall. apply ExecuteGroupInternal_cases in Hcall
      as (h & Hh & [(Hex & Hco & -> & ->)|(Hno & -> & ->)]).
    + split; [|split; [|split]].
      * intros groupId. rewrite lookup_insert.
        case_decide; [subst; by rewrite Hh|done].
      * intros groupId (h' & Hh' & Hex'). split.
        -- unfold Executed. rewrite lookup_insert. case_decide; eauto.
        -- rewrite EndCalls_singleton. case_decide; [|done]. subst. congruence.
      * intros groupId. rewrite EndCalls_singleton. case_decide; lia.
      * intros groupId. rewrite EndCalls_singleton. case_decide; [|lia].
        intros _. subst. exists (End h). by rewrite lookup_insert_eq.
    + split; [done|]. split; [|split].
      * intros groupId Hexd. split; [done|apply EndCalls_nil].
      * intros groupId. rewrite EndCalls_nil. lia.
      * intros groupId. rewrite EndCalls_nil. lia.
Qed.

Lemma run_spec actions : forall m,
  Forall (HasHandler m) actions ->
  exists m' ends,
    run m actions = Some (m', ends) /\
    (forall groupId, is_Some (m' !! groupId) <-> is_Some (m !! groupId)) /\
    (forall groupId, Executed m groupId ->
                     Executed m' groupId /\ EndCalls groupId ends = 0%nat) /\
    (forall groupId, (EndCalls groupId ends <= 1)%nat).
Proof.
  induction actions as [|a rest IH]; intros m Hall.
  - exists m, []. simpl. repeat split; try done. intros. rewrite EndCalls_nil. lia.
  - inversion Hall as [|? ? Ha Hrest]; subst.
    destruct (act_Some m a Ha) as (m1 & ends1 & Hact).
    destruct (act_spec _ _ _ _ Hact) as (Hdom1 & Hkeep1 & Hle1 & Hone1).
    destruct (IH m1) as (m2 & ends2 & Hrun & Hdom2 & Hkeep2 & Hle2).
    { eapply Forall_impl; [exact Hrest|]. intros [gid group complete|gid]; simpl; [done|].
      intros Hsome. by apply Hdom1. }
    exists m2, (ends1 ++ ends2). simpl. rewrite Hact, Hrun.
    split; [done|]. split; [|split].
    + intros groupId. rewrite Hdom2. apply Hdom1.
    + intros groupId Hex. destruct (Hkeep1 _ Hex) as [Hex1 Hzero1].
      destruct (Hkeep2 _ Hex1) as [Hex2 Hzero2].
      split; [done|]. rewrite EndCalls_app. lia.
    + intros groupId. rewrite EndCalls_app.
      specialize (Hle1 groupId). specialize (Hle2 groupId).
      destruct (EndCalls groupId ends1) as [|[|n]] eqn:Hcount; [lia| |lia].
      destruct (Hkeep2 groupId (Hone1 groupId Hcount)) as [_ Hzero]. lia.
Qed.

(** Repeated calls for one completed handler: the first finalizes it. *)
Lemma run_repeated_calls n : forall m groupId h,
  m !! groupId = Some h -> IsExecuted h = false -> IsComplete h = true ->
  exists m', run m (replicate (S n) (ActExecuteGroup groupId)) = Some (m', [groupId]).
Proof.
  assert (Hdone : forall k m groupId,
             Executed m groupId ->
             run m (replicate k (ActExecuteGroup groupId)) = Some (m, [])).
  { induction k as [|k IHk]; intros m groupId Hex; simpl; [done|].
    destruct Hex as (h & Hh & Hex). unfold ExecuteGroupInternal.
    rewrite Hh, Hex. simpl. rewrite IHk; [done|]. exists h. done. }
  intros m groupId h Hh Hex Hco. simpl. unfold ExecuteGroupInternal.
  rewrite Hh, Hex, Hco. simpl.
  rewrite Hdone.
  - eauto.
  - exists (End h). by rewrite lookup_insert_eq.
Qed.

(** Calls that do not overlap. In every sequence of [ExecuteGroup] calls
    taken one at a time, interleaved with groups finishing, [End()] runs at
    most once on each handler and never on a handler that had already
    executed; a call invokes [End()] only on a handler that has not
    executed and whose groups are all complete; and of any number of calls
    for a completed handler exactly one, the first, invokes [End()]. *)
Theorem End_invoked_at_most_once m actions :
  Forall (HasHandler m) actions ->
  exists m' ends,
    run m actions = Some (m', ends) /\
    (forall groupId, (EndCalls groupId ends <= 1)%nat) /\
    (forall groupId, Executed m groupId -> EndCalls groupId ends = 0%nat) /\
    (forall groupId m1 ends1,
        ExecuteGroupInternal m groupId = Some (m1, ends1) ->
        forall g, g ∈ ends1 ->
          g = groupId /\
          exists h, m !! groupId = Some h /\ IsExecuted h = false /\ IsComplete h = true) /\
    (forall groupId h n,
        m !! groupId = Some h -> IsExecuted h = false -> IsComplete h = true ->
        exists m1, run m (replicate (S n) (ActExecuteGroup groupId)) = Some (m1, [groupId])).
Proof.
  intros Hall.
  destruct (run_spec actions m Hall) as (m' & ends & Hrun & _ & Hkeep & Hle).
  exists m', ends. split; [done|]. split; [done|]. split; [|split].
  - intros groupId Hex. by apply Hkeep.
  - intros groupId m1 ends1 Hcall g Hin.
    apply ExecuteGroupInternal_cases in Hcall
      as (h & Hh & [(Hex & Hco & -> & ->)|(Hno & -> & ->)]).
    + apply list_elem_of_singleton in Hin. subst. eauto.
    + by apply elem_of_nil in Hin.
  - intros groupId h n. apply run_repeated_calls.
Qed.

(** On a handler whose second group completes between two calls. *)
Lemma End_invoked_at_most_once_witness :
  Forall (HasHandler Examples.Handlers) Examples.Calls /\
  exists m' ends,
    run Examples.Handlers Examples.Calls = Some (m', ends) /\
    (forall groupId, (EndCalls groupId ends <= 1)%nat) /\
    (forall groupId, Executed Examples.Handlers groupId -> EndCalls groupId ends = 0%nat) /\
    (forall groupId m1 ends1,
        ExecuteGroupInternal Examples.Handlers groupId = Some (m1, ends1) ->
        forall g, g ∈ ends1 ->
          g = groupId /\
          exists h, Examples.Handlers !! groupId = Some h /\
                    IsExecuted h = false /\ IsComplete h = true) /\
    (forall groupId h n,
        Examples.Handlers !! groupId = Some h -> IsExecuted h = false -> IsComplete h = true ->
        exists m1,
          run Examples.Handlers (replicate (S n) (ActExecuteGroup groupId))
          = Some (m1, [groupId])).
Proof.
  assert (Hall : Forall (HasHandler Examples.Handlers) Examples.Calls).
  { repeat (constructor; [simpl; first [exact I | eexists; reflexivity]|]). constructor. }
  split; [exact Hall|].
  apply (End_invoked_at_most_once Examples.Handlers Examples.Calls Hall).
Defined.

End HandlerProofs.

(** ** Partitioning of scopes *)

Module ExecuterProofs.

Import Tracker Executer.

Lemma wrap32_range x : 0 <= wrap32 x < 2 ^ 32.
Proof. unfold wrap32. apply Z.mod_pos_bound. lia. Qed.

Lemma wrap32_small x : 0 <= x < 2 ^ 32 -> wrap32 x = x.
Proof. unfold wrap32. apply Z.mod_small. Qed.

Lemma wrap32_add_l x y : wrap32 (wrap32 x + y) = wrap32 (x + y).
Proof. unfold wrap32. apply Zplus_mod_idemp_l. Qed.

Lemma isEmpty_true {A} (v : list A) : isEmpty v = true <-> v = [].
Proof. destruct v; simpl; split; congruence. Qed.

Lemma isEmpty_false {A} (v : list A) : isEmpty v = false <-> v <> [].
Proof. destruct v; simpl; split; congruence. Qed.

Lemma AllScopes_app gs1 gs2 : AllScopes (gs1 ++ gs2) = AllScopes gs1 ++ AllScopes gs2.
Proof. unfold AllScopes. by rewrite map_app, concat_app. Qed.

Lemma AllScopes_cons g gs : AllScopes (g :: gs) = GroupScopes g ++ AllScopes gs.
Proof. reflexivity. Qed.

Section Loop.
Context `{Platform}.
Variable m : gmap Z FrameGraphExecuterData.
Variable useSemaphoreTrackers : bool.

Lemma totalScopeCost_range scope : 0 <= totalScopeCost m scope < 2 ^ 32.
Proof. unfold totalScopeCost, u32_add. apply wrap32_range. Qed.

Lemma sumCost_snoc scopes scope :
  sumCost m (scopes ++ [scope]) = sumCost m scopes + totalScopeCost m scope.
Proof.
  unfold sumCost. induction scopes as [|s scopes IH]; simpl; [lia|].
  rewrite IH. lia.
Qed.

(** *** The semaphore bookkeeping never gets stuck *)

Lemma BindSwapChain_ready swapchains : forall c fenceMap unwaited bound,
  m_trackers c <> [] ->
  exists c' fenceMap' unwaited' bound',
    foldl BindSwapChain (Some (c, fenceMap, unwaited, bound)) swapchains
    = Some (c', fenceMap', unwaited', bound') /\
    m_trackers c' <> [].
Proof.
  induction swapchains as [|sc swapchains IH]; intros c fenceMap unwaited bound Hne; simpl.
  - eauto 10.
  - destruct (TrackerProofs.CollectionAddSemaphores_Some unwaited c Hne)
      as (back & _ & Hadd).
    rewrite Hadd. unfold GetCurrentTracker. simpl.
    destruct (<[pred (length (m_trackers c)):=AddSemaphores unwaited back]> (m_trackers c))
      as [|t ts] eqn:Hins.
    + apply (f_equal length) in Hins. rewrite length_insert in Hins.
      destruct (m_trackers c); simpl in *; congruence.
    + rewrite <- Hins. apply IH. simpl. rewrite Hins. done.
Qed.

Lemma TrackSemaphores_ready ts prev scope :
  TrackersReady useSemaphoreTrackers ts ->
  exists ts',
    TrackSemaphores useSemaphoreTrackers ts prev scope = Some ts' /\
    TrackersReady useSemaphoreTrackers ts'.
Proof.
  intros Hready. unfold TrackSemaphores.
  destruct useSemaphoreTrackers eqn:Huse; [|eauto].
  destruct (Hready eq_refl) as (c0 & Hc0 & Hne0). rewrite Hc0.
  set (presented := match prev with
                    | Some p => negb (isEmpty (GetSwapChainsToPresent p))
                    | None => false
                    end).
  set (c1 := if presented then (CreateHandle c0).1 else c0).
  assert (Hne1 : m_trackers c1 <> []).
  { unfold c1. destruct presented; [|done]. simpl.
    intros Hnil. apply app_eq_nil in Hnil as [_ Hnil]. done. }
  destruct (TrackerProofs.CollectionAddSemaphores_Some
              (Z.of_nat (length (GetWaitSemaphores scope) + length (GetWaitFences scope)))
              c1 Hne1) as (back & _ & Hadd).
  rewrite Hadd.
  match goal with
  | |- context [foldl BindSwapChain (Some (?c, ?f, ?n, ?b)) ?l] =>
      destruct (BindSwapChain_ready l c f n b) as (c3 & f3 & n3 & b3 & Hfold & Hne3)
  end.
  { simpl. intros Hnil. apply (f_equal length) in Hnil.
    rewrite length_insert in Hnil. destruct (m_trackers c1); simpl in *; congruence. }
  rewrite Hfold. eexists. split; [reflexivity|].
  intros _. simpl. eauto.
Qed.

(** *** One iteration *)

(** What an iteration does to the groups and to the merge set, by the two
    conditions of the source: whether the merge set is flushed and whether
    the scope is appended to it. *)
Lemma ProcessScope_cases st scope scopeNext :
  (mergedScopes (merge st) <> [] -> is_Some (scopePrev (merge st))) ->
  TrackersReady useSemaphoreTrackers (track st) ->
  exists st' device handle handle',
    ProcessScope m useSemaphoreTrackers st scope scopeNext = Some st' /\
    TrackersReady useSemaphoreTrackers (track st') /\
    scopePrev (merge st') = Some scope /\
    m_groups st' =
      m_groups st
      ++ (if willFlush m (merge st) scope scopeNext
          then [FrameGraphExecuteGroupPrimary None device (mergedScopes (merge st)) handle]
          else [])
      ++ (if mergeable m (scopePrev (merge st)) scope scopeNext
          then []
          else [FrameGraphExecuteGroupSecondary (GetDeviceIndex scope) scope
                  (commandListCount m scope) Parallel handle']) /\
    mergedScopes (merge st') =
      (if willFlush m (merge st) scope scopeNext then [] else mergedScopes (merge st))
      ++ (if mergeable m (scopePrev (merge st)) scope scopeNext then [scope] else []) /\
    mergedGroupCost (merge st') =
      (let base := if willFlush m (merge st) scope scopeNext
                   then 0 else mergedGroupCost (merge st) in
       if mergeable m (scopePrev (merge st)) scope scopeNext
       then u32_add base (totalScopeCost m scope) else base) /\
    mergedDeviceIndex (merge st') =
      (if willFlush m (merge st) scope scopeNext
       then GetDeviceIndex scope else mergedDeviceIndex (merge st)) /\
    mergedHardwareQueueClass (merge st') =
      (if willFlush m (merge st) scope scopeNext
       then GetHardwareQueueClass scope
       else mergedHardwareQueueClass (ResetQueueClass (merge st) scope)) /\
    (willFlush m (merge st) scope scopeNext = true ->
     exists prev, scopePrev (merge st) = Some prev /\ device = GetDeviceIndex prev) /\
    mergedSwapchainCount (merge st') =
      (let base := if willFlush m (merge st) scope scopeNext
                   then 0 else mergedSwapchainCount (merge st) in
       if mergeable m (scopePrev (merge st)) scope scopeNext
       then u32_add base (swapchainCount scope) else base).
Proof.
  intros Hprev Hready.
  assert (Hsame : mergedScopes (ResetQueueClass (merge st) scope) = mergedScopes (merge st)
                  /\ scopePrev (ResetQueueClass (merge st) scope) = scopePrev (merge st)
                  /\ mergedGroupCost (ResetQueueClass (merge st) scope)
                     = mergedGroupCost (merge st)
                  /\ mergedDeviceIndex (ResetQueueClass (merge st) scope)
                     = mergedDeviceIndex (merge st)
                  /\ mergedSwapchainCount (ResetQueueClass (merge st) scope)
                     = mergedSwapchainCount (merge st)).
  { unfold ResetQueueClass. case_bool_decide; done. }
  destruct Hsame as (Hms & Hsp & Hgc & Hdi & Hsc).
  unfold ProcessScope, FlushMergedScopes.
  rewrite Hms, Hsp. fold (willFlush m (merge st) scope scopeNext).
  destruct (willFlush m (merge st) scope scopeNext) eqn:Hflush.
  - assert (Hne : mergedScopes (merge st) <> []).
    { unfold willFlush in Hflush. apply andb_true_iff in Hflush as [_ Hne].
      apply negb_true_iff, isEmpty_false in Hne. done. }
    destruct (Hprev Hne) as [prev Hpreveq]. rewrite Hpreveq.
    destruct (TrackSemaphores_ready (track st) (Some prev) scope Hready)
      as (ts1 & Htrack & Hready1).
    simpl. rewrite Htrack.
    unfold MergeScope. simpl. fold (mergeable m (Some prev) scope scopeNext).
    destruct (mergeable m (Some prev) scope scopeNext) eqn:Hmerge;
      eexists _, (GetDeviceIndex prev), _, (currentSemaphoreHandle ts1);
      (split; [reflexivity|]); simpl; repeat split; eauto.
  - destruct (TrackSemaphores_ready (track st)
                (scopePrev (ResetQueueClass (merge st) scope)) scope Hready)
      as (ts1 & Htrack & Hready1).
    rewrite Htrack.
    unfold MergeScope. rewrite Hsp. fold (mergeable m (scopePrev (merge st)) scope scopeNext).
    destruct (mergeable m (scopePrev (merge st)) scope scopeNext) eqn:Hmerge;
      eexists _, 0, None, (currentSemaphoreHandle ts1);
      (split; [reflexivity|]); simpl; rewrite ?Hms, ?Hgc, ?Hdi, ?Hsc, ?app_nil_r;
      repeat split; eauto; done.
Qed.

(** *** The loop *)

(** Induction along the loop: an invariant of the state and of the scopes
    already processed, kept by every iteration, holds at the end. *)
Lemma MergeLoop_invariant (all : list Scope) (Inv : list Scope -> LoopState -> Prop) :
  (forall done scope rest st,
      all = done ++ scope :: rest -> Inv done st ->
      exists st',
        ProcessScope m useSemaphoreTrackers st scope (head rest) = Some st' /\
        Inv (done ++ [scope]) st') ->
  forall rest done st,
    all = done ++ rest -> Inv done st ->
    exists st', MergeLoop m useSemaphoreTrackers st rest = Some st' /\ Inv all st'.
Proof.
  intros Hstep rest.
  induction rest as [|scope rest IH]; intros done st Hall Hinv; simpl.
  - rewrite app_nil_r in Hall. subst. eauto.
  - destruct (Hstep done scope rest st Hall Hinv) as (st' & Hproc & Hinv').
    rewrite Hproc. apply (IH (done ++ [scope])); [|done].
    by rewrite <- app_assoc.
Qed.

Lemma Reached_initial : Reached useSemaphoreTrackers [] (InitialState useSemaphoreTrackers).
Proof.
  split; [done|]. split; [|done].
  intros ->. simpl. eexists. split; [reflexivity|]. simpl. discriminate.
Qed.

Lemma Reached_scopePrev done st :
  Reached useSemaphoreTrackers done st ->
  mergedScopes (merge st) <> [] -> is_Some (scopePrev (merge st)).
Proof.
  intros (Hprev & _ & Hperm) Hne. rewrite Hprev.
  destruct done as [|s done]; [|by apply last_is_Some].
  apply Permutation_nil_r in Hperm. apply app_eq_nil in Hperm as [_ Hnil]. done.
Qed.

(** An iteration takes the state reached after [done] to the state reached
    after [done ++ [scope]]. *)
Lemma Reached_step done st scope scopeNext st' :
  Reached useSemaphoreTrackers done st ->
  ProcessScope m useSemaphoreTrackers st scope scopeNext = Some st' ->
  Reached useSemaphoreTrackers (done ++ [scope]) st'.
Proof.
  intros Hreached Hproc.
  destruct (ProcessScope_cases st scope scopeNext (Reached_scopePrev _ _ Hreached)
              (proj1 (proj2 Hreached)))
    as (st1 & device & handle & handle' & Hproc1 & Hready & Hprev & Hgroups & Hmerged & _).
  rewrite Hproc in Hproc1. injection Hproc1 as <-.
  destruct Hreached as (_ & _ & Hperm).
  split; [by rewrite last_snoc|]. split; [done|].
  rewrite Hgroups, Hmerged, <- Hperm, !AllScopes_app.
  destruct (willFlush m (merge st) scope scopeNext),
           (mergeable m (scopePrev (merge st)) scope scopeNext);
    unfold AllScopes; simpl; rewrite ?app_nil_r, <- ?app_assoc.
  all: try done.
  f_equiv. apply Permutation_app_comm.
Qed.

Lemma InOrder_step done st scope scopeNext st' :
  Reached useSemaphoreTrackers done st -> InOrder done st ->
  ProcessScope m useSemaphoreTrackers st scope scopeNext = Some st' ->
  InOrder (done ++ [scope]) st'.
Proof.
  intros Hreached [Hgroups Hmerged] Hproc.
  destruct (ProcessScope_cases st scope scopeNext (Reached_scopePrev _ _ Hreached)
              (proj1 (proj2 Hreached)))
    as (st1 & device & handle & handle' & Hproc1 & _ & _ & Hgroups1 & Hmerged1 & _).
  rewrite Hproc in Hproc1. injection Hproc1 as <-.
  assert (Hold : Forall (fun g => GroupScopes g `sublist_of` done ++ [scope]) (m_groups st)).
  { eapply Forall_impl; [exact Hgroups|]. intros g Hg. by apply sublist_inserts_r. }
  assert (Hlast : [scope] `sublist_of` done ++ [scope]).
  { by apply sublist_inserts_l. }
  split.
  - rewrite Hgroups1. rewrite !Forall_app. split; [done|]. split.
    + destruct (willFlush m (merge st) scope scopeNext); [|constructor].
      constructor; [|constructor]. simpl. by apply sublist_inserts_r.
    + destruct (mergeable m (scopePrev (merge st)) scope scopeNext); [constructor|].
      constructor; [|constructor]. done.
  - rewrite Hmerged1.
    destruct (willFlush m (merge st) scope scopeNext),
             (mergeable m (scopePrev (merge st)) scope scopeNext);
      simpl; rewrite ?app_nil_r.
    + done.
    + apply sublist_nil_l.
    + by apply sublist_app.
    + by apply sublist_inserts_r.
Qed.

(** The loop runs to its end from the initial state, keeping both. *)
Lemma MergeLoop_partition scopes :
  exists st,
    MergeLoop m useSemaphoreTrackers (InitialState useSemaphoreTrackers) scopes = Some st /\
    Reached useSemaphoreTrackers scopes st /\ InOrder scopes st.
Proof.
  apply (MergeLoop_invariant scopes
           (fun done st => Reached useSemaphoreTrackers done st /\ InOrder done st)
           ) with (done := []).
  - intros done scope rest st _ [Hreached Horder].
    destruct (ProcessScope_cases st scope (head rest) (Reached_scopePrev _ _ Hreached)
                (proj1 (proj2 Hreached))) as (st' & ? & ? & ? & Hproc & _).
    exists st'. split; [done|]. split.
    + eapply Reached_step; eauto.
    + eapply InOrder_step; eauto.
  - done.
  - split; [apply Reached_initial|]. split; [constructor|]. simpl. constructor.
Qed.

(** [MergePending] moves the merge set into a last primary group. *)
Lemma MergePending_groups st :
  (mergedScopes (merge st) = [] /\ MergePending st = st) \/
  (mergedScopes (merge st) <> [] /\
   exists device,
     m_groups (MergePending st) =
     m_groups st ++ [FrameGraphExecuteGroupPrimary None device
                       (mergedScopes (merge st)) (currentSemaphoreHandle (track st))]).
Proof.
  unfold MergePending. destruct (mergedScopes (merge st)) as [|front rest] eqn:Hm.
  - by left.
  - right. split; [done|]. eexists. simpl. reflexivity.
Qed.

Lemma MergePending_AllScopes st :
  AllScopes (m_groups (MergePending st)) = AllScopes (m_groups st) ++ mergedScopes (merge st).
Proof.
  destruct (MergePending_groups st) as [[Hnil ->]|[_ [device ->]]].
  - by rewrite Hnil, app_nil_r.
  - rewrite AllScopes_app. unfold AllScopes at 2. simpl. by rewrite app_nil_r.
Qed.

(** What an iteration adds: the new groups and the new merge set hold the
    old merge set and the scope. *)
Lemma ProcessScope_adds done st scope scopeNext st' :
  Reached useSemaphoreTrackers done st ->
  ProcessScope m useSemaphoreTrackers st scope scopeNext = Some st' ->
  exists new,
    m_groups st' = m_groups st ++ new /\
    AllScopes new ++ mergedScopes (merge st') ≡ₚ mergedScopes (merge st) ++ [scope].
Proof.
  intros Hreached Hproc.
  destruct (ProcessScope_cases st scope scopeNext (Reached_scopePrev _ _ Hreached)
              (proj1 (proj2 Hreached)))
    as (st1 & device & handle & handle' & Hproc1 & _ & _ & Hgroups & Hmerged & _).
  rewrite Hproc in Hproc1. injection Hproc1 as <-.
  eexists. split; [exact Hgroups|]. rewrite Hmerged.
  destruct (willFlush m (merge st) scope scopeNext),
           (mergeable m (scopePrev (merge st)) scope scopeNext);
    unfold AllScopes; simpl; rewrite ?app_nil_r, <- ?app_assoc.
  all: try done.
  apply (Permutation_app_comm [scope]).
Qed.

(** *** Cost of the merge sets *)

Lemma CostBounded_initial : CostBounded m (InitialState useSemaphoreTrackers).
Proof. split; [done|]. split; [done|]. constructor. Qed.

Lemma willFlush_false_cost ms scope scopeNext :
  willFlush m ms scope scopeNext = false -> mergedScopes ms <> [] ->
  u32_add (mergedGroupCost ms) (totalScopeCost m scope) <= CommandListCostThreshold m scope.
Proof.
  unfold willFlush. intros Hflush Hne.
  apply andb_false_iff in Hflush as [Hflush|Hempty].
  - unfold flushMergedScopes in Hflush.
    repeat (apply orb_false_iff in Hflush as [Hflush ?]).
    unfold exceededCommandCost in Hflush. apply bool_decide_eq_false in Hflush.
    replace (mergedGroupCost (ResetQueueClass ms scope)) with (mergedGroupCost ms) in Hflush.
    + lia.
    + unfold ResetQueueClass. by case_bool_decide.
  - apply negb_false_iff, isEmpty_true in Hempty. done.
Qed.

Lemma mergeable_cost prev scope scopeNext :
  mergeable m prev scope scopeNext = true ->
  totalScopeCost m scope < CommandListCostThreshold m scope.
Proof.
  unfold mergeable. intros Hm. apply andb_true_iff in Hm as [_ Hm].
  by apply bool_decide_eq_true in Hm.
Qed.

Lemma CostBounded_step done st scope scopeNext st' :
  Reached useSemaphoreTrackers done st -> CostBounded m st ->
  ProcessScope m useSemaphoreTrackers st scope scopeNext = Some st' ->
  CostBounded m st'.
Proof.
  intros Hreached (Hsum & Hmerged & Hgroups) Hproc.
  destruct (ProcessScope_cases st scope scopeNext (Reached_scopePrev _ _ Hreached)
              (proj1 (proj2 Hreached)))
    as (st1 & device & handle & handle' & Hproc1 & _ & _ & Hgroups1 & Hmerged1 & Hcost1 & _).
  rewrite Hproc in Hproc1. injection Hproc1 as <-.
  pose proof (totalScopeCost_range scope) as Hrange.
  unfold CostBounded. rewrite Hgroups1, Hmerged1, Hcost1. clear Hgroups1 Hmerged1 Hcost1.
  destruct (willFlush m (merge st) scope scopeNext) eqn:Hflush.
  - assert (Hne : mergedScopes (merge st) <> []).
    { unfold willFlush in Hflush. apply andb_true_iff in Hflush as [_ Hne].
      by apply negb_true_iff, isEmpty_false in Hne. }
    assert (Hgroups' : Forall (fun g => IsPrimary g = true -> WithinThreshold m (GroupScopes g))
                         (m_groups st ++
                          [FrameGraphExecuteGroupPrimary None device
                             (mergedScopes (merge st)) handle])).
    { apply Forall_app. split; [done|]. constructor; [|constructor]. simpl. auto. }
    destruct (mergeable m (scopePrev (merge st)) scope scopeNext) eqn:Hmerge; simpl.
    + rewrite ?app_nil_r. apply mergeable_cost in Hmerge.
      unfold u32_add, sumCost. simpl. rewrite Z.add_0_r.
      split; [done|]. split; [|done]. intros _. exists scope. split; [done|].
      simpl. rewrite Z.add_0_r, wrap32_small by done. lia.
    + split; [done|]. split; [done|].
      apply Forall_app in Hgroups' as [_ Hflushed].
      apply Forall_app. split; [done|].
      inversion Hflushed; subst. constructor; [done|].
      constructor; [|constructor]. simpl. discriminate.
  - destruct (mergeable m (scopePrev (merge st)) scope scopeNext) eqn:Hmerge; simpl.
    + rewrite ?app_nil_r.
      assert (Heq : u32_add (mergedGroupCost (merge st)) (totalScopeCost m scope)
                    = wrap32 (sumCost m (mergedScopes (merge st) ++ [scope]))).
      { rewrite sumCost_snoc, Hsum. unfold u32_add. apply wrap32_add_l. }
      split; [done|]. split; [|done]. intros _. exists scope.
      split; [apply last_snoc|]. rewrite <- Heq.
      destruct (mergedScopes (merge st)) as [|s0 ms0] eqn:Hms.
      * rewrite Hsum. unfold u32_add. change (sumCost m []) with 0.
        rewrite (wrap32_small 0) by lia. rewrite Z.add_0_l.
        rewrite wrap32_small by done. apply mergeable_cost in Hmerge. lia.
      * apply (willFlush_false_cost _ _ _ Hflush). rewrite Hms. done.
    + rewrite ?app_nil_r. split; [done|]. split; [done|].
      apply Forall_app. split; [done|]. constructor; [|constructor]. simpl. discriminate.
Qed.

Lemma MergeLoop_cost scopes :
  exists st,
    MergeLoop m useSemaphoreTrackers (InitialState useSemaphoreTrackers) scopes = Some st /\
    Reached useSemaphoreTrackers scopes st /\ CostBounded m st.
Proof.
  apply (MergeLoop_invariant scopes
           (fun done st => Reached useSemaphoreTrackers done st /\ CostBounded m st)
           ) with (done := []).
  - intros done scope rest st _ [Hreached Hcost].
    destruct (ProcessScope_cases st scope (head rest) (Reached_scopePrev _ _ Hreached)
                (proj1 (proj2 Hreached))) as (st' & ? & ? & ? & Hproc & _).
    exists st'. split; [done|]. split.
    + eapply Reached_step; eauto.
    + eapply CostBounded_step; eauto.
  - done.
  - split; [apply Reached_initial|apply CostBounded_initial].
Qed.

(** *** Scopes of a subpass chain *)

Lemma mergeable_subpass prev scope scopeNext :
  subpassGroup prev scope scopeNext = true -> mergeable m prev scope scopeNext = false.
Proof. unfold mergeable. by intros ->. Qed.

Lemma willFlush_subpass ms scope scopeNext :
  subpassGroup (scopePrev ms) scope scopeNext = true ->
  willFlush m ms scope scopeNext = negb (isEmpty (mergedScopes ms)).
Proof.
  intros Hsub. unfold willFlush, flushMergedScopes.
  replace (scopePrev (ResetQueueClass ms scope)) with (scopePrev ms)
    by (unfold ResetQueueClass; by case_bool_decide).
  rewrite Hsub. by rewrite !orb_true_r.
Qed.

Lemma Dedicated_step before scope0 after done scope rest st st' :
  before ++ scope0 :: after = done ++ scope :: rest ->
  subpassGroup (last before) scope0 (head after) = true ->
  Reached useSemaphoreTrackers done st ->
  Dedicated before scope0 done st ->
  ProcessScope m useSemaphoreTrackers st scope (head rest) = Some st' ->
  Dedicated before scope0 (done ++ [scope]) st'.
Proof.
  intros Hall Hsub Hreached Hded Hproc Hlen.
  rewrite length_app in Hlen. simpl in Hlen.
  destruct (decide (length done = length before)) as [Heq|Hne].
  - (* the scope itself *)
    symmetry in Hall. apply app_inj_1 in Hall as [-> [= -> ->]]; [|done].
    destruct (ProcessScope_cases st scope0 (head after) (Reached_scopePrev _ _ Hreached)
                (proj1 (proj2 Hreached)))
      as (st1 & device & handle & handle' & Hproc1 & _ & _ & Hgroups & Hmerged & _).
    rewrite Hproc in Hproc1. injection Hproc1 as <-.
    destruct Hreached as (Hprev & _ & Hperm).
    rewrite Hprev in Hgroups, Hmerged.
    rewrite (mergeable_subpass _ _ _ Hsub) in Hgroups, Hmerged.
    rewrite willFlush_subpass in Hgroups, Hmerged by (by rewrite Hprev).
    rewrite app_assoc in Hgroups.
    eexists _, [], _, _. split; [exact Hgroups|].
    rewrite Hmerged, drop_ge by (rewrite length_app; simpl; lia).
    destruct (mergedScopes (merge st)) as [|s0 ms0] eqn:Hms; simpl.
    + rewrite app_nil_r in Hperm |- *. done.
    + split; [|done]. rewrite AllScopes_app. unfold AllScopes at 2. simpl.
      by rewrite app_nil_r.
  - (* a later scope *)
    destruct Hded as (front & back & count & handle & Hgroups & Hfront & Hback); [lia|].
    destruct (ProcessScope_adds _ _ _ _ _ Hreached Hproc) as (new & Hgroups' & Hnew).
    exists front, (back ++ new), count, handle.
    split; [|split; [done|]].
    + rewrite Hgroups', Hgroups, <- app_assoc. done.
    + rewrite drop_app_le by lia.
      rewrite AllScopes_app, <- app_assoc, Hnew, app_assoc, Hback. done.
Qed.

Lemma MergeLoop_dedicated before scope after :
  subpassGroup (last before) scope (head after) = true ->
  exists st,
    MergeLoop m useSemaphoreTrackers (InitialState useSemaphoreTrackers)
      (before ++ scope :: after) = Some st /\
    Reached useSemaphoreTrackers (before ++ scope :: after) st /\
    Dedicated before scope (before ++ scope :: after) st.
Proof.
  intros Hsub.
  apply (MergeLoop_invariant (before ++ scope :: after)
           (fun done st => Reached useSemaphoreTrackers done st /\
                           Dedicated before scope done st)) with (done := []).
  - intros done sc rest st Hall [Hreached Hded].
    destruct (ProcessScope_cases st sc (head rest) (Reached_scopePrev _ _ Hreached)
                (proj1 (proj2 Hreached))) as (st' & ? & ? & ? & Hproc & _).
    exists st'. split; [done|]. split.
    + eapply Reached_step; eauto.
    + eapply Dedicated_step; eauto.
  - done.
  - split; [apply Reached_initial|]. intros Hlen. simpl in Hlen. lia.
Qed.

(** *** The first scope *)

Lemma MergeLoop_first_scope s1 s2 rest :
  mergeable m None s1 (Some s2) = true ->
  GetDeviceIndex s2 <> InvalidDeviceIndex ->
  exists st handle more,
    MergeLoop m useSemaphoreTrackers (InitialState useSemaphoreTrackers) (s1 :: s2 :: rest)
    = Some st /\
    Reached useSemaphoreTrackers (s1 :: s2 :: rest) st /\
    m_groups st = FrameGraphExecuteGroupPrimary None (GetDeviceIndex s1) [s1] handle :: more.
Proof.
  intros Hmerge Hdevice.
  pose proof Reached_initial as Hr0.
  destruct (ProcessScope_cases (InitialState useSemaphoreTrackers) s1 (Some s2)
              (Reached_scopePrev _ _ Hr0) (proj1 (proj2 Hr0)))
    as (st1 & d1 & h1 & h1' & Hproc1 & _ & Hprev1 & Hgroups1 & Hmerged1 & _ & Hdev1 & _).
  assert (Hflush1 : willFlush m (merge (InitialState useSemaphoreTrackers)) s1 (Some s2)
                    = false).
  { unfold willFlush. simpl. apply andb_false_r. }
  rewrite Hflush1 in Hgroups1, Hmerged1, Hdev1.
  simpl in Hgroups1, Hmerged1, Hdev1. rewrite Hmerge in Hgroups1, Hmerged1.
  pose proof (Reached_step _ _ _ _ _ Hr0 Hproc1) as Hr1. simpl in Hr1.
  destruct (ProcessScope_cases st1 s2 (head rest)
              (Reached_scopePrev _ _ Hr1) (proj1 (proj2 Hr1)))
    as (st2 & d2 & h2 & h2' & Hproc2 & _ & _ & Hgroups2 & _ & _ & _ & _ & Hd2 & _).
  assert (Hflush2 : willFlush m (merge st1) s2 (head rest) = true).
  { unfold willFlush. rewrite Hmerged1. simpl. rewrite andb_true_r.
    unfold flushMergedScopes.
    assert (Hmis : deviceMismatch (ResetQueueClass (merge st1) s2) s2 = true).
    { unfold deviceMismatch. apply bool_decide_eq_true.
      replace (mergedDeviceIndex (ResetQueueClass (merge st1) s2))
        with (mergedDeviceIndex (merge st1))
        by (unfold ResetQueueClass; by case_bool_decide).
      rewrite Hdev1. done. }
    rewrite Hmis. by rewrite !orb_true_r. }
  rewrite Hflush2, Hgroups1, Hmerged1 in Hgroups2. simpl in Hgroups2.
  destruct (Hd2 Hflush2) as (prev & Hprev & ->).
  rewrite Hprev1 in Hprev. injection Hprev as <-.
  pose proof (Reached_step _ _ _ _ _ Hr1 Hproc2) as Hr2. simpl in Hr2.
  destruct (MergeLoop_invariant (s1 :: s2 :: rest)
              (fun done st => Reached useSemaphoreTrackers done st /\
                 exists more,
                   m_groups st =
                   FrameGraphExecuteGroupPrimary None (GetDeviceIndex s1) [s1] h2 :: more))
    with (rest := rest) (done := [s1; s2]) (st := st2) as (st & Hloop & Hr & more & Hgroups).
  - intros done sc rest' st _ [Hreached [more Hmore]].
    destruct (ProcessScope_cases st sc (head rest') (Reached_scopePrev _ _ Hreached)
                (proj1 (proj2 Hreached))) as (st' & ? & ? & ? & Hproc & _).
    exists st'. split; [done|]. split; [eapply Reached_step; eauto|].
    destruct (ProcessScope_adds _ _ _ _ _ Hreached Hproc) as (new & Hnew & _).
    exists (more ++ new). rewrite Hnew, Hmore. done.
  - done.
  - split; [done|]. eexists. exact Hgroups2.
  - exists st, h2, more. split; [|done].
    simpl. simpl in Hproc1. rewrite Hproc1, Hproc2. done.
Qed.

(** *** Three scopes of cost 10, 15 and 5 under a threshold of 20 *)

Lemma MergeLoop_three_scopes A B C :
  GetDeviceIndex B = GetDeviceIndex A -> GetDeviceIndex C = GetDeviceIndex A ->
  GetHardwareQueueClass B = GetHardwareQueueClass A ->
  GetHardwareQueueClass C = GetHardwareQueueClass A ->
  Unsynchronized A -> Unsynchronized B -> Unsynchronized C ->
  GetFrameGraphGroupId A <> GetFrameGraphGroupId B ->
  GetFrameGraphGroupId B <> GetFrameGraphGroupId C ->
  totalScopeCost m A = 10 -> totalScopeCost m B = 15 -> totalScopeCost m C = 5 ->
  CommandListCostThreshold m A = 20 -> CommandListCostThreshold m B = 20 ->
  CommandListCostThreshold m C = 20 ->
  0 <= m_swapChainsPerCommandList (ExecuterData m (GetDeviceIndex A)) ->
  exists st handle,
    MergeLoop m useSemaphoreTrackers (InitialState useSemaphoreTrackers) [A; B; C] = Some st /\
    m_groups st = [FrameGraphExecuteGroupPrimary None (GetDeviceIndex A) [A] handle] /\
    mergedScopes (merge st) = [B; C].
Proof.
  intros HdB HdC HqB HqC HuA HuB HuC HgAB HgBC HcA HcB HcC HtA HtB HtC Hswap.
  destruct HuB as (_ & HsigB & _ & HfenB & HswB).
  destruct HuC as (HwaitC & _ & HwfenC & _ & HswC).
  (* A *)
  pose proof Reached_initial as Hr0.
  destruct (ProcessScope_cases (InitialState useSemaphoreTrackers) A (Some B)
              (Reached_scopePrev _ _ Hr0) (proj1 (proj2 Hr0)))
    as (st1 & d1 & h1 & h1' & Hproc1 & _ & Hprev1 & Hgroups1 & Hmerged1 & Hcost1 & _).
  assert (Hflush1 : willFlush m (merge (InitialState useSemaphoreTrackers)) A (Some B)
                    = false).
  { unfold willFlush. simpl. apply andb_false_r. }
  assert (HmergeA : mergeable m None A (Some B) = true).
  { unfold mergeable, subpassGroup, sameGroupId.
    rewrite (bool_decide_eq_false_2 _ (not_eq_sym HgAB)). simpl.
    apply bool_decide_eq_true. lia. }
  rewrite Hflush1 in Hgroups1, Hmerged1, Hcost1.
  simpl in Hgroups1, Hmerged1, Hcost1. rewrite HmergeA in Hgroups1, Hmerged1, Hcost1.
  pose proof (Reached_step _ _ _ _ _ Hr0 Hproc1) as Hr1. simpl in Hr1.
  (* B *)
  destruct (ProcessScope_cases st1 B (Some C) (Reached_scopePrev _ _ Hr1) (proj1 (proj2 Hr1)))
    as (st2 & d2 & h2 & h2' & Hproc2 & _ & Hprev2 & Hgroups2 & Hmerged2 & Hcost2
        & Hdev2 & Hqueue2 & Hd2 & Hswap2).
  assert (Hflush2 : willFlush m (merge st1) B (Some C) = true).
  { unfold willFlush. rewrite Hmerged1. simpl. rewrite andb_true_r.
    unfold flushMergedScopes.
    assert (Hex : exceededCommandCost m (ResetQueueClass (merge st1) B) B = true).
    { unfold exceededCommandCost. apply bool_decide_eq_true.
      replace (mergedGroupCost (ResetQueueClass (merge st1) B))
        with (mergedGroupCost (merge st1))
        by (unfold ResetQueueClass; by case_bool_decide).
      rewrite Hcost1, HcA, HcB, HtB. vm_compute. done. }
    by rewrite Hex. }
  assert (HmergeB : mergeable m (Some A) B (Some C) = true).
  { unfold mergeable, subpassGroup, sameGroupId.
    rewrite (bool_decide_eq_false_2 _ (not_eq_sym HgBC)).
    rewrite (bool_decide_eq_false_2 _ HgAB). simpl.
    apply bool_decide_eq_true. lia. }
  rewrite Hprev1 in Hgroups2, Hmerged2, Hcost2, Hswap2.
  rewrite Hflush2, HmergeB in Hgroups2, Hmerged2, Hcost2, Hswap2.
  rewrite Hflush2 in Hdev2, Hqueue2.
  destruct (Hd2 Hflush2) as (prev & Hprev & ->).
  rewrite Hprev1 in Hprev. injection Hprev as <-.
  rewrite Hgroups1, Hmerged1 in Hgroups2. simpl in Hgroups2, Hmerged2, Hcost2, Hswap2.
  pose proof (Reached_step _ _ _ _ _ Hr1 Hproc2) as Hr2. simpl in Hr2.
  (* C *)
  destruct (ProcessScope_cases st2 C None (Reached_scopePrev _ _ Hr2) (proj1 (proj2 Hr2)))
    as (st3 & d3 & h3 & h3' & Hproc3 & _ & _ & Hgroups3 & Hmerged3 & _).
  assert (Hreset : ResetQueueClass (merge st2) C = merge st2).
  { unfold ResetQueueClass. rewrite Hcost2, HcB.
    rewrite bool_decide_eq_false_2; [done|]. vm_compute. done. }
  assert (Hflush3 : willFlush m (merge st2) C None = false).
  { unfold willFlush, flushMergedScopes. rewrite Hreset.
    unfold exceededCommandCost, exceededSwapChainLimit, hardwareQueueMismatch,
      onSyncBoundaries, deviceMismatch, subpassGroup, sameGroupId, swapchainCount.
    rewrite Hcost2, HcB, HcC, HtC, Hswap2, Hqueue2, Hdev2, Hprev2.
    unfold swapchainCount. rewrite HswB, HswC, HwaitC, HwfenC, HsigB, HfenB, HdC, HdB.
    rewrite (bool_decide_eq_false_2 (_ > 20)) by (vm_compute; done).
    rewrite (bool_decide_eq_false_2 (_ > m_swapChainsPerCommandList _))
      by (vm_compute (u32_add _ _); lia).
    rewrite (bool_decide_eq_false_2 (GetHardwareQueueClass C <> _)) by (rewrite HqC, HqB; auto).
    rewrite (bool_decide_eq_false_2 (_ <> GetDeviceIndex A)) by auto.
    rewrite (bool_decide_eq_false_2 _ HgBC). done. }
  assert (HmergeC : mergeable m (Some B) C None = true).
  { unfold mergeable, subpassGroup, sameGroupId.
    rewrite (bool_decide_eq_false_2 _ HgBC). simpl.
    apply bool_decide_eq_true. lia. }
  rewrite Hprev2 in Hgroups3, Hmerged3.
  rewrite Hflush3, HmergeC, Hgroups2 in Hgroups3.
  rewrite Hflush3, HmergeC, Hmerged2 in Hmerged3.
  simpl in Hgroups3, Hmerged3.
  exists st3, h2. simpl. simpl in Hproc1. rewrite Hproc1, Hproc2, Hproc3. done.
Qed.

(** *** Cost without wrap-around *)

Lemma ExactCost_step all done st scope rest st' :
  all = done ++ scope :: rest ->
  Forall (fun s => CommandListCostThreshold m s <= 2 ^ 31) all ->
  Reached useSemaphoreTrackers done st -> CostBounded m st -> ExactCost m st ->
  ProcessScope m useSemaphoreTrackers st scope (head rest) = Some st' ->
  ExactCost m st'.
Proof.
  intros Hall Hsmall Hreached (Hsum & Hmerged & _) (Hexact & Hgroups) Hproc.
  destruct (ProcessScope_cases st scope (head rest) (Reached_scopePrev _ _ Hreached)
              (proj1 (proj2 Hreached)))
    as (st1 & device & handle & handle' & Hproc1 & _ & _ & Hgroups1 & Hmerged1 & Hcost1 & _).
  rewrite Hproc in Hproc1. injection Hproc1 as <-.
  pose proof (totalScopeCost_range scope) as Hrange.
  assert (Hscope : CommandListCostThreshold m scope <= 2 ^ 31).
  { rewrite Forall_forall in Hsmall. apply Hsmall. subst all.
    apply elem_of_app. right. by left. }
  assert (Hflushed : mergedScopes (merge st) <> [] ->
            exists lastScope,
              last (mergedScopes (merge st)) = Some lastScope /\
              sumCost m (mergedScopes (merge st)) <= CommandListCostThreshold m lastScope /\
              CommandListCostThreshold m lastScope <= 2 ^ 31).
  { intros Hne. destruct (Hmerged Hne) as (lastScope & Hlast & Hle).
    exists lastScope. split; [done|]. split; [rewrite Hexact, Hsum; lia|].
    rewrite Forall_forall in Hsmall. apply Hsmall. subst all.
    apply elem_of_app. left.
    destruct Hreached as (_ & _ & Hperm). rewrite <- Hperm.
    apply elem_of_app. right.
    apply last_Some in Hlast as [front ->]. apply elem_of_app. right. by left. }
  unfold ExactCost. rewrite Hgroups1, Hmerged1, Hcost1. clear Hgroups1 Hmerged1 Hcost1.
  destruct (willFlush m (merge st) scope (head rest)) eqn:Hflush.
  - assert (Hne : mergedScopes (merge st) <> []).
    { unfold willFlush in Hflush. apply andb_true_iff in Hflush as [_ Hne].
      by apply negb_true_iff, isEmpty_false in Hne. }
    destruct (Hflushed Hne) as (lastScope & Hlast & Hle & _).
    assert (Hgroups' : Forall (fun g =>
               IsPrimary g = true ->
               exists lastScope,
                 last (GroupScopes g) = Some lastScope /\
                 sumCost m (GroupScopes g) <= CommandListCostThreshold m lastScope)
             (m_groups st ++
              [FrameGraphExecuteGroupPrimary None device (mergedScopes (merge st)) handle])).
    { apply Forall_app. split; [done|]. constructor; [|constructor]. simpl. eauto. }
    destruct (mergeable m (scopePrev (merge st)) scope (head rest)) eqn:Hmerge; simpl.
    + split; [|done]. unfold u32_add. rewrite !Z.add_0_l, Z.add_0_r.
      by rewrite wrap32_small.
    + split; [done|]. apply Forall_app in Hgroups' as [_ Hnew].
      apply Forall_app. split; [done|]. inversion Hnew; subst.
      constructor; [done|]. constructor; [|constructor]. simpl. discriminate.
  - destruct (mergeable m (scopePrev (merge st)) scope (head rest)) eqn:Hmerge; simpl.
    + rewrite ?app_nil_r. split; [|done].
      rewrite sumCost_snoc, Hexact. unfold u32_add. symmetry. apply wrap32_small.
      apply mergeable_cost in Hmerge.
      destruct (mergedScopes (merge st)) as [|s0 ms0] eqn:Hms.
      * rewrite <- Hexact. unfold sumCost. simpl. lia.
      * destruct Hflushed as (lastScope & _ & Hle & Hsmall'); [done|].
        rewrite Hexact in Hle. rewrite Hsum. pose proof (wrap32_range (sumCost m (s0 :: ms0))).
        rewrite Hsum in Hle.
        assert (2 ^ 31 + 2 ^ 31 = 2 ^ 32) by reflexivity. lia.
    + rewrite ?app_nil_r. split; [done|].
      apply Forall_app. split; [done|]. constructor; [|constructor]. simpl. discriminate.
Qed.

Lemma MergeLoop_exact_cost scopes :
  Forall (fun s => CommandListCostThreshold m s <= 2 ^ 31) scopes ->
  exists st,
    MergeLoop m useSemaphoreTrackers (InitialState useSemaphoreTrackers) scopes = Some st /\
    CostBounded m st /\ ExactCost m st.
Proof.
  intros Hsmall.
  destruct (MergeLoop_invariant scopes
           (fun done st => Reached useSemaphoreTrackers done st /\
                           CostBounded m st /\ ExactCost m st)) with (rest := scopes) (done := @nil Scope)
      (st := InitialState useSemaphoreTrackers) as (st & Hloop & _ & Hbounded & Hexact).
  - intros done scope rest st Hall (Hreached & Hcost & Hexact).
    destruct (ProcessScope_cases st scope (head rest) (Reached_scopePrev _ _ Hreached)
                (proj1 (proj2 Hreached))) as (st' & ? & ? & ? & Hproc & _).
    exists st'. split; [done|]. split; [|split].
    + eapply Reached_step; eauto.
    + eapply CostBounded_step; eauto.
    + eapply ExactCost_step; eauto.
  - done.
  - split; [apply Reached_initial|]. split; [apply CostBounded_initial|].
    split; [done|constructor].
  - eauto.
Qed.

(** *** Synchronization boundaries *)

Lemma willFlush_false_sync ms scope scopeNext :
  willFlush m ms scope scopeNext = false -> mergedScopes ms <> [] ->
  NoWaits scope /\ (forall prev, scopePrev ms = Some prev -> NoSignals prev).
Proof.
  unfold willFlush. intros Hflush Hne.
  apply andb_false_iff in Hflush as [Hflush|Hempty].
  2: { apply negb_false_iff, isEmpty_true in Hempty. done. }
  unfold flushMergedScopes in Hflush.
  repeat (apply orb_false_iff in Hflush as [Hflush ?]).
  match goal with Hsync : onSyncBoundaries _ _ = false |- _ => rename Hsync into Hs end.
  unfold onSyncBoundaries in Hs.
  replace (scopePrev (ResetQueueClass ms scope)) with (scopePrev ms) in Hs
    by (unfold ResetQueueClass; by case_bool_decide).
  apply orb_false_iff in Hs as [Hs Hprev]. apply orb_false_iff in Hs as [Hws Hwf].
  apply negb_false_iff, isEmpty_true in Hws. apply negb_false_iff, isEmpty_true in Hwf.
  split; [done|]. intros prev Heq. rewrite Heq in Hprev.
  apply orb_false_iff in Hprev as [Hss Hsf].
  apply negb_false_iff, isEmpty_true in Hss. apply negb_false_iff, isEmpty_true in Hsf. done.
Qed.

Lemma SyncSeparated_snoc scopes scope :
  SyncSeparated scopes -> (forall a, a ∈ scopes -> NoSignals a) ->
  (scopes <> [] -> NoWaits scope) ->
  SyncSeparated (scopes ++ [scope]).
Proof.
  intros Hsep Hsignals Hwaits i j a b Hij Hi Hj.
  assert (Hj' : (j < length (scopes ++ [scope]))%nat) by (by eapply lookup_lt_Some).
  rewrite length_app in Hj'. simpl in Hj'.
  rewrite lookup_app_l in Hi by lia.
  destruct (decide (j = length scopes)) as [->|Hlt].
  - rewrite list_lookup_middle in Hj by done. injection Hj as <-.
    split.
    + apply Hsignals. by eapply list_elem_of_lookup_2.
    + apply Hwaits. intros ->. done.
  - rewrite lookup_app_l in Hj by lia. exact (Hsep i j a b Hij Hi Hj).
Qed.

Lemma SyncBounded_step done st scope scopeNext st' :
  Reached useSemaphoreTrackers done st -> SyncBounded st ->
  ProcessScope m useSemaphoreTrackers st scope scopeNext = Some st' ->
  SyncBounded st'.
Proof.
  intros Hreached (Hsep & Hlast & Hgroups) Hproc.
  destruct (ProcessScope_cases st scope scopeNext (Reached_scopePrev _ _ Hreached)
              (proj1 (proj2 Hreached)))
    as (st1 & device & handle & handle' & Hproc1 & _ & Hprev1 & Hgroups1 & Hmerged1 & _).
  rewrite Hproc in Hproc1. injection Hproc1 as <-.
  assert (Hone : SyncSeparated [scope]).
  { intros [|i] [|j] a b Hij Hi Hj; simpl in *; try lia; done. }
  assert (Hnil : SyncSeparated []).
  { intros i j a b _ Hi. done. }
  unfold SyncBounded. rewrite Hgroups1, Hmerged1, Hprev1. clear Hgroups1 Hmerged1.
  assert (Hsecondary : forall d s n p h,
             SyncSeparated (GroupScopes (FrameGraphExecuteGroupSecondary d s n p h))).
  { intros d s n p h [|i] [|j] a b Hij Hi Hj; simpl in *; try lia; done. }
  destruct (willFlush m (merge st) scope scopeNext) eqn:Hflush.
  - destruct (mergeable m (scopePrev (merge st)) scope scopeNext); simpl.
    + split; [done|]. split.
      * intros a Ha. apply list_elem_of_singleton in Ha as ->. by right.
      * apply Forall_app. split; [done|]. by constructor.
    + split; [done|]. split.
      * intros a Ha. by apply elem_of_nil in Ha.
      * apply Forall_app. split; [done|]. constructor; [done|]. by constructor.
  - assert (Hquiet : mergedScopes (merge st) <> [] ->
              NoWaits scope /\ forall a, a ∈ mergedScopes (merge st) -> NoSignals a).
    { intros Hne. destruct (willFlush_false_sync _ _ _ Hflush Hne) as [Hw Hs].
      split; [done|]. intros a Ha. destruct (Hlast a Ha) as [Hq|Hp]; [done|by apply Hs]. }
    destruct (mergeable m (scopePrev (merge st)) scope scopeNext); simpl;
      rewrite ?app_nil_r.
    + split; [|split; [|done]].
      * destruct (mergedScopes (merge st)) as [|s0 ms0] eqn:Hms; [done|].
        destruct Hquiet as [Hw Hs]; [done|]. by apply SyncSeparated_snoc.
      * intros a Ha. apply elem_of_app in Ha as [Ha|Ha].
        -- left. apply Hquiet; [|done]. intros Hnil'. rewrite Hnil' in Ha.
           by apply elem_of_nil in Ha.
        -- apply list_elem_of_singleton in Ha as ->. by right.
    + split; [done|]. split.
      * intros a Ha. left. apply Hquiet; [|done]. intros Hnil'. rewrite Hnil' in Ha.
        by apply elem_of_nil in Ha.
      * apply Forall_app. split; [done|]. by constructor.
Qed.

Lemma MergeLoop_sync scopes :
  exists st,
    MergeLoop m useSemaphoreTrackers (InitialState useSemaphoreTrackers) scopes = Some st /\
    SyncBounded st.
Proof.
  destruct (MergeLoop_invariant scopes
           (fun done st => Reached useSemaphoreTrackers done st /\ SyncBounded st))
    with (rest := scopes) (done := @nil Scope) (st := InitialState useSemaphoreTrackers)
    as (st & Hloop & _ & Hsync).
  - intros done scope rest st Hall (Hreached & Hsync).
    destruct (ProcessScope_cases st scope (head rest) (Reached_scopePrev _ _ Hreached)
                (proj1 (proj2 Hreached))) as (st' & ? & ? & ? & Hproc & _).
    exists st'. split; [done|]. split.
    + eapply Reached_step; eauto.
    + eapply SyncBounded_step; eauto.
  - done.
  - split; [apply Reached_initial|]. split; [|split].
    + intros i j a b _ Hi. done.
    + intros a Ha. by apply elem_of_nil in Ha.
    + constructor.
  - eauto.
Qed.

End Loop.

(** *** The in-sync build *)

Lemma GroupScopes_InSyncGroup prev scope next :
  GroupScopes (InSyncGroup prev scope next) = [scope].
Proof. unfold InSyncGroup. by destruct (subpassGroup prev scope next). Qed.

Lemma ProcessScopeInSync_group st scope scopeNext :
  mergedScopes (merge st) = [] ->
  mergedScopes (merge (ProcessScopeInSync st scope scopeNext)) = [] /\
  scopePrev (merge (ProcessScopeInSync st scope scopeNext)) = Some scope /\
  m_groups (ProcessScopeInSync st scope scopeNext)
  = m_groups st ++ [InSyncGroup (scopePrev (merge st)) scope scopeNext].
Proof.
  intros Hempty. unfold ProcessScopeInSync, InSyncGroup.
  destruct (subpassGroup (scopePrev (merge st)) scope scopeNext); simpl;
    rewrite ?Hempty; done.
Qed.

(** The loop makes one group per scope, in the order of the scopes. *)
Lemma InSyncLoop_groups scopes : forall st,
  mergedScopes (merge st) = [] ->
  exists new,
    m_groups (InSyncLoop st scopes) = m_groups st ++ new /\
    length new = length scopes /\
    (forall i scope,
        scopes !! i = Some scope ->
        new !! i = Some (InSyncGroup
                           (match i with O => scopePrev (merge st) | S j => scopes !! j end)
                           scope (scopes !! S i))).
Proof.
  induction scopes as [|s rest IH]; intros st Hempty; simpl.
  - exists []. rewrite app_nil_r. done.
  - destruct (ProcessScopeInSync_group st s (head rest) Hempty) as (Hempty1 & Hprev1 & Hgroups1).
    destruct (IH _ Hempty1) as (new & Hnew & Hlen & Hlookup).
    exists (InSyncGroup (scopePrev (merge st)) s (head rest) :: new).
    split; [|split].
    + rewrite Hnew, Hgroups1, <- app_assoc. done.
    + simpl. by rewrite Hlen.
    + intros [|i] scope Hi; simpl in *.
      * injection Hi as <-. by rewrite head_lookup.
      * rewrite (Hlookup i scope Hi), Hprev1. by destruct i.
Qed.

Lemma AllScopes_singletons gs : forall scopes,
  map GroupScopes gs = map (fun s => [s]) scopes ->
  forall n, AllScopes (take n gs) = take n scopes /\ AllScopes (drop n gs) = drop n scopes.
Proof.
  induction gs as [|g gs IH]; intros [|s scopes] Hmap n; simpl in Hmap; try done.
  - by destruct n.
  - injection Hmap as Hg Hmap.
    destruct n as [|n]; simpl.
    + split; [done|]. rewrite AllScopes_cons, Hg.
      destruct (IH scopes Hmap 0%nat) as [_ Hdrop]. rewrite drop_0 in Hdrop.
      by rewrite Hdrop.
    + destruct (IH scopes Hmap n) as [Htake Hdrop].
      split; [|done]. by rewrite AllScopes_cons, Hg, Htake.
Qed.

Lemma drop_after_middle before (scope : Scope) after :
  drop (S (length before)) (before ++ scope :: after) = after.
Proof. induction before as [|b before IH]; simpl; [by rewrite drop_0|done]. Qed.

Lemma ScopeBefore_middle before scope after :
  ScopeBefore (before ++ scope :: after) (length before) = last before.
Proof.
  destruct before as [|b before _] using rev_ind; [done|].
  rewrite length_app, last_snoc, Nat.add_1_r. simpl.
  rewrite <- app_assoc. by apply list_lookup_middle.
Qed.

Lemma lookup_after_middle before (scope : Scope) after :
  (before ++ scope :: after) !! S (length before) = head after.
Proof.
  rewrite head_lookup, lookup_app_r by lia.
  by replace (S (length before) - length before)%nat with 1%nat by lia.
Qed.

Section Begin.
Context `{Platform}.
Variable m : gmap Z FrameGraphExecuterData.

Lemma BeginInternal_heuristic front rest :
  BeginInternal false m (front :: rest) =
  match MergeLoop m (SignalFenceFromCPU (GetDeviceIndex front))
          (InitialState (SignalFenceFromCPU (GetDeviceIndex front))) (front :: rest) with
  | Some st => Some (MergePending st)
  | None => None
  end.
Proof. reflexivity. Qed.

Lemma BeginInternal_in_sync front rest :
  BeginInternal true m (front :: rest) =
  Some (InSyncLoop (InitialState (SignalFenceFromCPU (GetDeviceIndex front)))
          (front :: rest)).
Proof. reflexivity. Qed.

(** C1. In cost-heuristic mode [BeginInternal] returns for every non-empty
    scope list, and the scopes of the execute groups it makes are the
    input scopes, each as often as in the input (once, when the input has
    no scope twice); every group lists its scopes in input order; and a
    secondary group holds a single scope. *)
Theorem scopes_partitioned_exactly scopes :
  scopes <> [] ->
  exists st,
    BeginInternal false m scopes = Some st /\
    AllScopes (m_groups st) ≡ₚ scopes /\
    (NoDup scopes -> NoDup (AllScopes (m_groups st))) /\
    Forall (fun g => GroupScopes g `sublist_of` scopes) (m_groups st) /\
    Forall (fun g => IsPrimary g = false -> exists scope, GroupScopes g = [scope])
           (m_groups st).
Proof.
  intros Hne. destruct scopes as [|front rest]; [done|].
  rewrite BeginInternal_heuristic.
  destruct (MergeLoop_partition m (SignalFenceFromCPU (GetDeviceIndex front)) (front :: rest))
    as (st & Hloop & (_ & _ & Hperm) & Hgroups & Hmerged).
  rewrite Hloop. eexists. split; [reflexivity|].
  assert (Hall : AllScopes (m_groups (MergePending st)) ≡ₚ front :: rest).
  { by rewrite MergePending_AllScopes. }
  split; [done|]. split; [by rewrite Hall|]. split.
  - destruct (MergePending_groups st) as [[_ ->]|[_ [device ->]]]; [done|].
    apply Forall_app. split; [done|]. by constructor.
  - apply Forall_forall. intros [name device scopes tracker|device scope n policy tracker] _;
      simpl; [done|eauto].
Qed.

(** C3. A scope that shares its frame-graph group id with the scope just
    before or just after it gets a secondary group of its own, in either
    build: the groups made before that group hold exactly the scopes in
    front of it, so the pending merge set has been flushed, and the
    groups made after it hold exactly the scopes behind it, so the scope
    is in no merged group. *)
Theorem subpass_scope_gets_dedicated_group forceCpuGpuInSync before scope after :
  subpassGroup (last before) scope (head after) = true ->
  exists st front back count policy handle,
    BeginInternal forceCpuGpuInSync m (before ++ scope :: after) = Some st /\
    m_groups st =
      front ++ FrameGraphExecuteGroupSecondary (GetDeviceIndex scope) scope count
                 policy handle :: back /\
    AllScopes front ≡ₚ before /\
    AllScopes back ≡ₚ after.
Proof.
  intros Hsub.
  destruct (before ++ scope :: after) as [|first others] eqn:Hscopes0.
  { by destruct before. }
  destruct forceCpuGpuInSync.
  - (* in-sync build *)
    rewrite BeginInternal_in_sync, <- Hscopes0. clear Hscopes0.
    set (st0 := InitialState (SignalFenceFromCPU (GetDeviceIndex first))).
    destruct (InSyncLoop_groups (before ++ scope :: after) st0 eq_refl)
      as (new & Hnew & Hlen & Hlookup).
    simpl in Hnew.
    assert (Hscopes : map GroupScopes new = map (fun s => [s]) (before ++ scope :: after)).
    { apply list_eq. intros i. rewrite !list_lookup_fmap.
      destruct ((before ++ scope :: after) !! i) as [s|] eqn:Hi; simpl.
      - rewrite (Hlookup i s Hi). simpl. by rewrite GroupScopes_InSyncGroup.
      - apply lookup_ge_None in Hi. rewrite <- Hlen in Hi.
        apply lookup_ge_None in Hi. by rewrite Hi. }
    assert (Hat : (before ++ scope :: after) !! length before = Some scope).
    { by rewrite list_lookup_middle. }
    pose proof (Hlookup _ _ Hat) as Hgroup.
    change (match length before with
            | O => scopePrev (merge st0)
            | S j => (before ++ scope :: after) !! j
            end) with (ScopeBefore (before ++ scope :: after) (length before)) in Hgroup.
    rewrite ScopeBefore_middle, lookup_after_middle in Hgroup. unfold InSyncGroup in Hgroup. rewrite Hsub in Hgroup.
    exists (InSyncLoop st0 (before ++ scope :: after)),
      (take (length before) new), (drop (S (length before)) new), 1, Serial, None.
    split; [done|]. split; [|split].
    + rewrite Hnew. symmetry. by apply take_drop_middle.
    + rewrite (proj1 (AllScopes_singletons _ _ Hscopes _)). by rewrite take_app_length.
    + rewrite (proj2 (AllScopes_singletons _ _ Hscopes _)).
      by rewrite drop_after_middle.
  - (* cost heuristic *)
    rewrite BeginInternal_heuristic, <- Hscopes0. clear Hscopes0.
    destruct (MergeLoop_dedicated m (SignalFenceFromCPU (GetDeviceIndex first))
                before scope after Hsub)
      as (st & Hloop & Hreached & Hded).
    rewrite Hloop.
    destruct Hded as (front & back & count & handle & Hgroups & Hfront & Hback).
    { rewrite length_app. simpl. lia. }
    rewrite drop_after_middle in Hback.
    destruct (MergePending_groups st) as [[Hnil Hsame]|[_ [device Hpending]]].
    + exists (MergePending st), front, back, count, Parallel, handle.
      rewrite Hsame. rewrite Hnil, app_nil_r in Hback. done.
    + eexists (MergePending st), front, (back ++ [_]), count, Parallel, handle.
      split; [done|]. split; [|split; [done|]].
      * rewrite Hpending, Hgroups, <- app_assoc. reflexivity.
      * rewrite AllScopes_app. unfold AllScopes at 2. simpl. by rewrite app_nil_r.
Qed.

(** C6. In the in-sync build [BeginInternal] makes one execute group per
    scope, in the order of the scopes: a secondary group with one command
    list for a scope that shares its group id with a neighbour, a primary
    group holding that scope alone for any other; so every group holds
    exactly one scope. *)
Theorem in_sync_one_scope_per_group scopes :
  scopes <> [] ->
  exists st,
    BeginInternal true m scopes = Some st /\
    length (m_groups st) = length scopes /\
    (forall i scope,
        scopes !! i = Some scope ->
        m_groups st !! i =
        Some (if subpassGroup (ScopeBefore scopes i) scope (scopes !! S i)
              then FrameGraphExecuteGroupSecondary (GetDeviceIndex scope) scope 1 Serial None
              else FrameGraphExecuteGroupPrimary (Some (GetName scope))
                     (GetDeviceIndex scope) [scope] None)) /\
    Forall (fun g => exists scope, GroupScopes g = [scope]) (m_groups st).
Proof.
  intros Hne. destruct scopes as [|front rest]; [done|].
  rewrite BeginInternal_in_sync.
  set (st0 := InitialState (SignalFenceFromCPU (GetDeviceIndex front))).
  destruct (InSyncLoop_groups (front :: rest) st0 eq_refl) as (new & Hnew & Hlen & Hlookup).
  change (m_groups st0 ++ new) with new in Hnew.
  eexists. split; [reflexivity|]. rewrite Hnew.
  split; [done|]. split.
  - intros i scope Hi. rewrite (Hlookup i scope Hi). done.
  - apply Forall_lookup. intros i g Hg.
    destruct (lookup_lt_is_Some_2 (front :: rest) i) as [scope Hscope].
    { rewrite <- Hlen. by eapply lookup_lt_Some. }
    rewrite (Hlookup i scope Hscope) in Hg. injection Hg as <-.
    exists scope. apply GroupScopes_InSyncGroup.
Qed.

(** C7, as amended. In cost-heuristic mode the scopes of every primary
    group, which are a merge set at the moment it was flushed, cost in
    32-bit arithmetic at most the command-list cost threshold computed for
    the last scope of the group; when no threshold of a scope exceeds 2^31
    the sum does not wrap around and is itself at most that threshold. *)
Theorem flushed_cost_within_last_threshold scopes :
  scopes <> [] ->
  exists st,
    BeginInternal false m scopes = Some st /\
    Forall (fun g =>
              IsPrimary g = true ->
              exists lastScope,
                last (GroupScopes g) = Some lastScope /\
                wrap32 (sumCost m (GroupScopes g)) <= CommandListCostThreshold m lastScope)
           (m_groups st) /\
    (Forall (fun s => CommandListCostThreshold m s <= 2 ^ 31) scopes ->
     Forall (fun g =>
               IsPrimary g = true ->
               exists lastScope,
                 last (GroupScopes g) = Some lastScope /\
                 sumCost m (GroupScopes g) <= CommandListCostThreshold m lastScope)
            (m_groups st)).
Proof.
  intros Hne. destruct scopes as [|front rest]; [done|].
  rewrite BeginInternal_heuristic.
  destruct (MergeLoop_cost m (SignalFenceFromCPU (GetDeviceIndex front)) (front :: rest))
    as (st & Hloop & _ & (Hsum & Hmerged & Hgroups)).
  rewrite Hloop. eexists. split; [reflexivity|]. split.
  - destruct (MergePending_groups st) as [[_ ->]|[Hpending [device ->]]]; [done|].
    apply Forall_app. split; [done|]. constructor; [|constructor].
    intros _. by apply Hmerged.
  - intros Hsmall.
    destruct (MergeLoop_exact_cost m (SignalFenceFromCPU (GetDeviceIndex front))
                (front :: rest) Hsmall) as (st1 & Hloop1 & _ & Hexact & Hgroups1).
    rewrite Hloop in Hloop1. injection Hloop1 as <-.
    destruct (MergePending_groups st) as [[_ ->]|[Hpending [device ->]]]; [done|].
    apply Forall_app. split; [done|]. constructor; [|constructor].
    intros _. destruct (Hmerged Hpending) as (lastScope & Hlast & Hle).
    exists lastScope. simpl. split; [done|]. rewrite Hexact, Hsum. done.
Qed.

(** In cost-heuristic mode no execute group holds two scopes of which the
    earlier signals a semaphore or fence or the later waits for one. *)
Lemma synchronization_boundaries_split_groups scopes :
  scopes <> [] ->
  exists st,
    BeginInternal false m scopes = Some st /\
    Forall (fun g => SyncSeparated (GroupScopes g)) (m_groups st).
Proof.
  intros Hne. destruct scopes as [|front rest]; [done|].
  rewrite BeginInternal_heuristic.
  destruct (MergeLoop_sync m (SignalFenceFromCPU (GetDeviceIndex front)) (front :: rest))
    as (st & Hloop & Hmerged & _ & Hgroups).
  rewrite Hloop. eexists. split; [reflexivity|].
  destruct (MergePending_groups st) as [[_ ->]|[_ [device ->]]]; [done|].
  apply Forall_app. split; [done|]. by constructor.
Qed.

(** C10. In cost-heuristic mode, when the first of at least two scopes is
    appended to the merge set and the second scope runs on a device, whose
    index is not the invalid one, the merge set is flushed at the second
    scope: the first group is a primary group with the first scope alone,
    whatever the costs, queue classes and semaphores of the two are. *)
Theorem first_scope_alone_in_its_group s1 s2 rest :
  subpassGroup None s1 (Some s2) = false ->
  totalScopeCost m s1 < CommandListCostThreshold m s1 ->
  GetDeviceIndex s2 <> InvalidDeviceIndex ->
  exists st handle more,
    BeginInternal false m (s1 :: s2 :: rest) = Some st /\
    m_groups st = FrameGraphExecuteGroupPrimary None (GetDeviceIndex s1) [s1] handle :: more /\
    AllScopes more ≡ₚ s2 :: rest.
Proof.
  intros Hsub Hcost Hdevice.
  assert (Hmerge : mergeable m None s1 (Some s2) = true).
  { unfold mergeable. rewrite Hsub. simpl. by apply bool_decide_eq_true. }
  rewrite BeginInternal_heuristic.
  destruct (MergeLoop_first_scope m (SignalFenceFromCPU (GetDeviceIndex s1)) s1 s2 rest
              Hmerge Hdevice)
    as (st & handle & more & Hloop & (_ & _ & Hperm) & Hgroups).
  rewrite Hloop.
  assert (Hall : AllScopes (m_groups (MergePending st)) ≡ₚ s1 :: s2 :: rest).
  { by rewrite MergePending_AllScopes. }
  destruct (MergePending_groups st) as [[_ Hsame]|[_ [device Hpending]]].
  - exists (MergePending st), handle, more. rewrite Hsame in *.
    split; [done|]. split; [done|].
    rewrite Hgroups, AllScopes_cons in Hall. simpl in Hall.
    by apply Permutation_cons_inv in Hall.
  - eexists (MergePending st), handle, (more ++ [_]).
    split; [done|]. split.
    + rewrite Hpending, Hgroups. reflexivity.
    + rewrite Hpending, Hgroups, <- app_comm_cons, AllScopes_cons in Hall. simpl in Hall.
      by apply Permutation_cons_inv in Hall.
Qed.

(** C4, as amended. Three scopes on one device and one queue, without
    semaphores, fences and swap chains, of cost 10, 15 and 5, none sharing
    its group id with a neighbour, under a threshold of 20: the groups are
    Primary{A} and Primary{B, C}. *)
Theorem three_scopes_two_groups A B C :
  GetDeviceIndex B = GetDeviceIndex A -> GetDeviceIndex C = GetDeviceIndex A ->
  GetHardwareQueueClass B = GetHardwareQueueClass A ->
  GetHardwareQueueClass C = GetHardwareQueueClass A ->
  Unsynchronized A -> Unsynchronized B -> Unsynchronized C ->
  GetFrameGraphGroupId A <> GetFrameGraphGroupId B ->
  GetFrameGraphGroupId B <> GetFrameGraphGroupId C ->
  totalScopeCost m A = 10 -> totalScopeCost m B = 15 -> totalScopeCost m C = 5 ->
  CommandListCostThreshold m A = 20 -> CommandListCostThreshold m B = 20 ->
  CommandListCostThreshold m C = 20 ->
  0 <= m_swapChainsPerCommandList (ExecuterData m (GetDeviceIndex A)) ->
  exists st handle1 handle2,
    BeginInternal false m [A; B; C] = Some st /\
    m_groups st =
      [FrameGraphExecuteGroupPrimary None (GetDeviceIndex A) [A] handle1;
       FrameGraphExecuteGroupPrimary None (GetDeviceIndex A) [B; C] handle2].
Proof.
  intros HdB HdC HqB HqC HuA HuB HuC HgAB HgBC HcA HcB HcC HtA HtB HtC Hswap.
  rewrite BeginInternal_heuristic.
  destruct (MergeLoop_three_scopes m (SignalFenceFromCPU (GetDeviceIndex A)) A B C)
    as (st & handle & Hloop & Hgroups & Hmerged); try done.
  rewrite Hloop. eexists _, handle, _. split; [reflexivity|].
  unfold MergePending. rewrite Hmerged, Hgroups, HdB. reflexivity.
Qed.

End Begin.

(** ** The statements on concrete inputs *)

Import Examples.

(** C1 on the three scopes A, B, C. *)
Lemma scopes_partitioned_exactly_witness :
  [ScopeA; ScopeB; ScopeC] <> [] /\
  exists st,
    @BeginInternal Vulkan false Data20 [ScopeA; ScopeB; ScopeC] = Some st /\
    AllScopes (m_groups st) ≡ₚ [ScopeA; ScopeB; ScopeC] /\
    (NoDup [ScopeA; ScopeB; ScopeC] -> NoDup (AllScopes (m_groups st))) /\
    Forall (fun g => GroupScopes g `sublist_of` [ScopeA; ScopeB; ScopeC]) (m_groups st) /\
    Forall (fun g => IsPrimary g = false -> exists scope, GroupScopes g = [scope])
           (m_groups st).
Proof.
  split; [discriminate|].
  apply (@scopes_partitioned_exactly Vulkan Data20 [ScopeA; ScopeB; ScopeC]).
  discriminate.
Defined.

(** C3 on two scopes of one group id followed by a scope of another. *)
Lemma subpass_scope_gets_dedicated_group_witness :
  subpassGroup (last [ScopeA]) (PlainScope "B" Graphics 0 15 [] 1) (head [ScopeC]) = true /\
  exists st front back count policy handle,
    @BeginInternal Vulkan false Data20
      ([ScopeA] ++ PlainScope "B" Graphics 0 15 [] 1 :: [ScopeC]) = Some st /\
    m_groups st =
      front ++ FrameGraphExecuteGroupSecondary
                 (GetDeviceIndex (PlainScope "B" Graphics 0 15 [] 1))
                 (PlainScope "B" Graphics 0 15 [] 1) count policy handle :: back /\
    AllScopes front ≡ₚ [ScopeA] /\
    AllScopes back ≡ₚ [ScopeC].
Proof.
  split; [reflexivity|].
  apply (@subpass_scope_gets_dedicated_group Vulkan Data20 false
           [ScopeA] (PlainScope "B" Graphics 0 15 [] 1) [ScopeC]).
  reflexivity.
Defined.

(** C6 on the three scopes A, B, C. *)
Lemma in_sync_one_scope_per_group_witness :
  [ScopeA; ScopeB; ScopeC] <> [] /\
  exists st,
    @BeginInternal Vulkan true Data20 [ScopeA; ScopeB; ScopeC] = Some st /\
    length (m_groups st) = length [ScopeA; ScopeB; ScopeC] /\
    (forall i scope,
        [ScopeA; ScopeB; ScopeC] !! i = Some scope ->
        m_groups st !! i =
        Some (if subpassGroup (ScopeBefore [ScopeA; ScopeB; ScopeC] i) scope
                   ([ScopeA; ScopeB; ScopeC] !! S i)
              then FrameGraphExecuteGroupSecondary (GetDeviceIndex scope) scope 1 Serial None
              else FrameGraphExecuteGroupPrimary (Some (GetName scope))
                     (GetDeviceIndex scope) [scope] None)) /\
    Forall (fun g => exists scope, GroupScopes g = [scope]) (m_groups st).
Proof.
  split; [discriminate|].
  apply (@in_sync_one_scope_per_group Vulkan Data20 [ScopeA; ScopeB; ScopeC]).
  discriminate.
Defined.

(** C7, as amended, on four scopes whose items cost nothing. *)
Lemma flushed_cost_within_last_threshold_witness :
  [CostS; CostA; CostB; CostC] <> [] /\
  exists st,
    @BeginInternal Vulkan false DataFreeItems [CostS; CostA; CostB; CostC] = Some st /\
    Forall (fun g =>
              IsPrimary g = true ->
              exists lastScope,
                last (GroupScopes g) = Some lastScope /\
                wrap32 (@sumCost Vulkan DataFreeItems (GroupScopes g))
                <= @CommandListCostThreshold Vulkan DataFreeItems lastScope)
           (m_groups st) /\
    (Forall (fun s => @CommandListCostThreshold Vulkan DataFreeItems s <= 2 ^ 31)
            [CostS; CostA; CostB; CostC] ->
     Forall (fun g =>
               IsPrimary g = true ->
               exists lastScope,
                 last (GroupScopes g) = Some lastScope /\
                 @sumCost Vulkan DataFreeItems (GroupScopes g)
                 <= @CommandListCostThreshold Vulkan DataFreeItems lastScope)
            (m_groups st)).
Proof.
  split; [discriminate|].
  apply (@flushed_cost_within_last_threshold Vulkan DataFreeItems
           [CostS; CostA; CostB; CostC]).
  discriminate.
Defined.

(** C10 on the three scopes A, B, C. *)
Lemma first_scope_alone_in_its_group_witness :
  subpassGroup None ScopeA (Some ScopeB) = false /\
  @totalScopeCost Vulkan Data20 ScopeA < @CommandListCostThreshold Vulkan Data20 ScopeA /\
  GetDeviceIndex ScopeB <> @InvalidDeviceIndex Vulkan /\
  exists st handle more,
    @BeginInternal Vulkan false Data20 (ScopeA :: ScopeB :: [ScopeC]) = Some st /\
    m_groups st =
      FrameGraphExecuteGroupPrimary None (GetDeviceIndex ScopeA) [ScopeA] handle :: more /\
    AllScopes more ≡ₚ ScopeB :: [ScopeC].
Proof.
  split; [reflexivity|]. split; [reflexivity|]. split; [discriminate|].
  apply (@first_scope_alone_in_its_group Vulkan Data20 ScopeA ScopeB [ScopeC]).
  - reflexivity.
  - reflexivity.
  - discriminate.
Defined.

(** C4, as amended, on the three scopes A, B, C. *)
Lemma three_scopes_two_groups_witness :
  exists st handle1 handle2,
    @BeginInternal Vulkan false Data20 [ScopeA; ScopeB; ScopeC] = Some st /\
    m_groups st =
      [FrameGraphExecuteGroupPrimary None (GetDeviceIndex ScopeA) [ScopeA] handle1;
       FrameGraphExecuteGroupPrimary None (GetDeviceIndex ScopeA) [ScopeB; ScopeC] handle2].
Proof.
  apply (@three_scopes_two_groups Vulkan Data20 ScopeA ScopeB ScopeC);
    try reflexivity; try (repeat split; reflexivity); try discriminate.
Defined.

(** C4 as stated fails: on the three scopes the groups are not Primary{A},
    Primary{B}, Secondary{C}. *)
Lemma three_scopes_not_three_groups :
  ~ (exists st g1 g2 g3,
        @BeginInternal Vulkan false Data20 [ScopeA; ScopeB; ScopeC] = Some st /\
        m_groups st = [g1; g2; g3] /\
        IsPrimary g1 = true /\ GroupScopes g1 = [ScopeA] /\
        IsPrimary g2 = true /\ GroupScopes g2 = [ScopeB] /\
        IsPrimary g3 = false /\ GroupScopes g3 = [ScopeC]).
Proof.
  intros (st & g1 & g2 & g3 & Hbegin & Hgroups & _).
  apply (f_equal (fmap (fun st => length (m_groups st)))) in Hbegin.
  simpl in Hbegin. rewrite Hgroups in Hbegin. vm_compute in Hbegin. discriminate.
Qed.

(** C7 as stated fails: the merge set {A, B} is flushed with an accumulated
    cost of 25, above the threshold of 20 configured for the device, which
    is also the threshold of the scope C at which it is flushed. *)
Lemma flushed_cost_above_device_threshold :
  map GroupScopes
    <$> (m_groups <$> @BeginInternal Vulkan false DataFreeItems [CostS; CostA; CostB; CostC])
  = Some [[CostS]; [CostA; CostB]; [CostC]] /\
  @sumCost Vulkan DataFreeItems [CostA; CostB] = 25 /\
  m_commandListCostThresholdMin (@ExecuterData Vulkan DataFreeItems 0) = 20 /\
  @CommandListCostThreshold Vulkan DataFreeItems CostC = 20 /\
  ~ (@sumCost Vulkan DataFreeItems [CostA; CostB]
     <= m_commandListCostThresholdMin (@ExecuterData Vulkan DataFreeItems 0)).
Proof.
  split; [vm_compute; reflexivity|].
  split; [vm_compute; reflexivity|].
  split; [vm_compute; reflexivity|].
  split; [vm_compute; reflexivity|].
  vm_compute. intros Hle. apply Hle. reflexivity.
Qed.

(** C2 on two inputs. A scope of cost 0 keeps [mergedGroupCost] at 0, so the
    queue class of the merge set follows the next scope: a graphics and a
    compute scope share a primary group. [mergedDeviceIndex] is set only
    when a merge set is flushed, so after a scope with a group of its own
    the next merge set starts under the device of that scope: scopes of
    device 1 and device 0 share a primary group. *)
Theorem merged_group_mixes_queues_and_devices :
  (map GroupScopes <$> (m_groups <$> @BeginInternal Vulkan false Data20 [QueueS; QueueA; QueueB])
   = Some [[QueueS]; [QueueA; QueueB]] /\
   GetHardwareQueueClass QueueA = Graphics /\ GetHardwareQueueClass QueueB = Compute) /\
  (map GroupScopes
     <$> (m_groups <$> @BeginInternal Vulkan false Data20 [DeviceS; DeviceT; DeviceA; DeviceB])
   = Some [[DeviceS]; [DeviceT]; [DeviceA; DeviceB]] /\
   GetDeviceIndex DeviceA = 1 /\ GetDeviceIndex DeviceB = 0).
Proof. repeat split; vm_compute; reflexivity. Qed.

End ExecuterProofs.

(** ** The tracker collection over a frame *)

Module CollectionProofs.

Import Tracker Collection.

Lemma insert_last {A} (front : list A) (x y : A) :
  <[pred (length (front ++ [x])) := y]> (front ++ [x]) = front ++ [y].
Proof.
  rewrite length_app. simpl. rewrite Nat.add_1_r. simpl.
  rewrite insert_app_r_alt by lia. by rewrite Nat.sub_diag.
Qed.

Lemma CollectionAddSemaphores_snoc k front back total :
  CollectionAddSemaphores k {| m_trackers := front ++ [back]; m_semaphoreCount := total |}
  = Some {| m_trackers := front ++ [AddSemaphores k back]; m_semaphoreCount := total + k |}.
Proof.
  unfold CollectionAddSemaphores. simpl. rewrite last_snoc. by rewrite insert_last.
Qed.

Lemma AscendingCounts_snoc (l : list Z) (x : Z) :
  AscendingCounts l -> Forall (fun y => y <= x) l -> AscendingCounts (l ++ [x]).
Proof.
  intros Hasc Hle i j a b Hij Hi Hj.
  assert (Hj' : (j < length (l ++ [x]))%nat) by (by eapply lookup_lt_Some).
  rewrite length_app in Hj'. simpl in Hj'.
  destruct (decide (j = length l)) as [->|Hlt].
  - rewrite list_lookup_middle in Hj by done. injection Hj as <-.
    destruct (decide (i = length l)) as [->|Hlt].
    + rewrite list_lookup_middle in Hi by done. injection Hi as <-. lia.
    + rewrite lookup_app_l in Hi by lia.
      rewrite Forall_forall in Hle. apply Hle. by eapply list_elem_of_lookup_2.
  - rewrite lookup_app_l in Hi, Hj by lia. exact (Hasc i j a b Hij Hi Hj).
Qed.

Lemma AscendingCounts_front (l : list Z) (x : Z) :
  AscendingCounts (l ++ [x]) -> AscendingCounts l.
Proof.
  intros Hasc i j a b Hij Hi Hj. apply (Hasc i j a b Hij).
  - rewrite lookup_app_l; [done|]. by eapply lookup_lt_Some.
  - rewrite lookup_app_l; [done|]. by eapply lookup_lt_Some.
Qed.

Lemma apply_Open c op :
  Open c ->
  exists c', apply c op = Some c' /\ Open c' /\
             m_semaphoreCount c' = m_semaphoreCount c + totalAdded [op] /\
             (NonNegative op -> Ascending c -> Ascending c').
Proof.
  intros (front & back & Htrackers & Hback & Hzero).
  destruct c as [trackers total]. simpl in *. subst trackers.
  destruct op as [|k]; simpl.
  - eexists. split; [reflexivity|]. split; [|split].
    + exists (front ++ [back]), (Create total). simpl. split; [done|]. split; [done|].
      apply Forall_app. split; [done|]. by constructor.
    + simpl. lia.
    + intros _ [Hsorted Hle]. unfold Ascending, ExpectedCounts in *. simpl in *.
      rewrite map_app. simpl. split.
      * by apply AscendingCounts_snoc.
      * apply Forall_app. split; [done|]. constructor; [lia|constructor].
  - rewrite CollectionAddSemaphores_snoc. eexists. split; [reflexivity|]. split; [|split].
    + exists front, (AddSemaphores k back). simpl. split; [done|]. split; [lia|].
      apply Forall_app in Hzero as [Hfront Hlast]. apply Forall_app. split; [done|].
      inversion Hlast; subst. by constructor.
    + simpl. lia.
    + intros Hk [Hsorted Hle]. unfold Ascending, ExpectedCounts in *. simpl in *.
      rewrite map_app in *. simpl in *.
      apply Forall_app in Hle as [Hfront _].
      assert (Hfront' : Forall (fun y => y <= total + k) (map m_semaphoreCounter front)).
      { eapply Forall_impl; [exact Hfront|]. simpl. intros. lia. }
      split.
      * rewrite Hback. apply AscendingCounts_snoc; [|done]. by eapply AscendingCounts_front.
      * apply Forall_app. split; [done|]. constructor; [lia|constructor].
Qed.

Lemma applyAll_Open ops : forall c,
  Open c ->
  exists c', applyAll c ops = Some c' /\ Open c' /\
             m_semaphoreCount c' = m_semaphoreCount c + totalAdded ops /\
             (Forall NonNegative ops -> Ascending c -> Ascending c') /\
             (length (m_trackers c) <= length (m_trackers c'))%nat.
Proof.
  induction ops as [|op ops IH]; intros c Hopen; simpl.
  - exists c. split; [done|]. split; [done|]. split; [lia|]. split; [done|lia].
  - destruct (apply_Open c op Hopen) as (c1 & Happly & Hopen1 & Hcount1 & Hasc1).
    destruct (IH c1 Hopen1) as (c2 & Hall & Hopen2 & Hcount2 & Hasc2 & Hlen2).
    exists c2. rewrite Happly. split; [done|]. split; [done|]. split; [|split].
    + rewrite Hcount2, Hcount1. simpl. destruct op; lia.
    + intros Hnonneg Hasc. inversion Hnonneg; subst. auto.
    + etrans; [|exact Hlen2]. destruct op as [|k]; simpl in Happly.
      * injection Happly as <-. simpl. rewrite length_app. lia.
      * apply TrackerProofs.CollectionAddSemaphores_length in Happly as [_ ->]. lia.
Qed.

Lemma CreateHandle_Open : Open (fst (CreateHandle NewCollection)).
Proof.
  exists [], (Create 0). simpl. split; [done|]. split; [done|]. by repeat constructor.
Qed.

Lemma applyAll_range ops : forall c c',
  Open c -> applyAll c ops = Some c' ->
  Forall (fun t => IntRange (m_semaphoreCounter t)) (m_trackers c) ->
  (forall n, IntRange (m_semaphoreCount c + totalAdded (take n ops))) ->
  Forall (fun t => IntRange (m_semaphoreCounter t)) (m_trackers c') /\
  IntRange (m_semaphoreCount c').
Proof.
  induction ops as [|op ops IH]; intros c c' Hopen Hall Hrange Htotals; simpl in Hall.
  - injection Hall as <-. split; [done|].
    specialize (Htotals 0%nat). simpl in Htotals. by rewrite Z.add_0_r in Htotals.
  - destruct (apply_Open c op Hopen) as (c1 & Happly & Hopen1 & Hcount1 & _).
    rewrite Happly in Hall. apply (IH c1 c' Hopen1 Hall).
    + destruct Hopen as (front & back & Htrackers & Hback & _).
      destruct c as [trackers total]. simpl in *. subst trackers.
      destruct op as [|k]; simpl in Happly.
      * injection Happly as <-. simpl. apply Forall_app. split; [done|].
        constructor; [|constructor]. simpl.
        specialize (Htotals 0%nat). simpl in Htotals. by rewrite Z.add_0_r in Htotals.
      * rewrite CollectionAddSemaphores_snoc in Happly. injection Happly as <-. simpl.
        apply Forall_app in Hrange as [Hfront _]. apply Forall_app. split; [done|].
        constructor; [|constructor]. simpl. rewrite Hback.
        specialize (Htotals 1%nat). simpl in Htotals. by rewrite Z.add_0_r in Htotals.
    + intros n. rewrite Hcount1. specialize (Htotals (S n)). simpl in Htotals.
      destruct op as [|k]; simpl in *.
      * by rewrite Z.add_0_r.
      * by rewrite Z.add_0_r, <- Z.add_assoc.
Qed.

(** X16. Once the first tracker is open, no sequence of [CreateHandle] and
    [AddSemaphores] on the collection fails. When the amounts and the
    running totals fit the [int] of the counters, no counter leaves that
    range, the running total is the sum of the amounts added, the current
    tracker expects exactly the running total, nothing is signalled yet,
    and when no negative amount is added the expected counts of the
    trackers ascend from the oldest to the current one. *)
Theorem current_tracker_expects_running_total ops :
  WithinInt ops ->
  exists c current,
    applyAll NewCollection (OpCreateHandle :: ops) = Some c /\
    m_semaphoreCount c = totalAdded ops /\
    IntRange (m_semaphoreCount c) /\
    Forall (fun t => IntRange (m_semaphoreCounter t)) (m_trackers c) /\
    last (m_trackers c) = Some current /\
    m_semaphoreCounter current = m_semaphoreCount c /\
    Forall (fun t => m_signalledSemaphoreCounter t = 0) (m_trackers c) /\
    (Forall NonNegative ops -> AscendingCounts (ExpectedCounts c)).
Proof.
  intros [_ Htotals].
  destruct (applyAll_Open ops _ CreateHandle_Open)
    as (c & Hall & (front & back & Htrackers & Hback & Hzero) & Hcount & Hasc & _).
  destruct (applyAll_range ops _ c CreateHandle_Open Hall) as [Hcounters Htotal].
  { repeat constructor; unfold IntRange; simpl; lia. }
  { intros n. simpl. apply Htotals. }
  exists c, back. split; [exact Hall|]. split; [by rewrite Hcount|].
  split; [done|]. split; [done|].
  split; [by rewrite Htrackers, last_snoc|]. split; [done|]. split; [done|].
  intros Hnonneg. apply Hasc; [done|].
  split; unfold ExpectedCounts; simpl.
  - intros [|i] [|j] a b Hij Hi Hj; simpl in *; try done. naive_solver lia.
  - by repeat constructor.
Qed.

(** *** Signalling through a handle *)

Lemma SignalFirst_spec count n : forall ts,
  (count <= length ts)%nat ->
  exists ts',
    SignalFirst count n ts = Some ts' /\
    length ts' = length ts /\
    forall i t, ts !! i = Some t ->
                ts' !! i = Some (if decide (i < count)%nat
                                 then fst (SignalSemaphores n t) else t).
Proof.
  induction count as [|count IH]; intros ts Hle; simpl.
  - exists ts. split; [done|]. split; [done|]. intros i t Hi.
    destruct (decide (i < 0)%nat); [lia|done].
  - destruct ts as [|t0 ts]; simpl in Hle; [lia|].
    destruct (IH ts) as (ts' & Hsig & Hlen & Hlookup); [lia|].
    rewrite Hsig. eexists. split; [reflexivity|]. split; [simpl; lia|].
    intros [|i] t Hi; simpl in *.
    + injection Hi as <-. done.
    + rewrite (Hlookup i t Hi).
      destruct (decide (i < count)%nat), (decide (S i < S count)%nat); try lia; done.
Qed.

Lemma SignalFirst_None count n : forall ts,
  (length ts < count)%nat -> SignalFirst count n ts = None.
Proof.
  induction count as [|count IH]; intros ts Hlt; simpl; [lia|].
  destruct ts as [|t0 ts]; [done|]. simpl in Hlt. rewrite IH; [done|lia].
Qed.

Lemma SignalFirst_counters count n ts :
  (count <= length ts)%nat ->
  exists ts',
    SignalFirst count n ts = Some ts' /\
    length ts' = length ts /\
    forall i t,
      ts !! i = Some t ->
      ts' !! i =
      Some {| m_semaphoreCounter := m_semaphoreCounter t;
              m_signalledSemaphoreCounter :=
                if decide (i < count)%nat
                then m_signalledSemaphoreCounter t + n
                else m_signalledSemaphoreCounter t |}.
Proof.
  intros Hle.
  destruct (SignalFirst_spec count n ts Hle) as (ts' & Hsig & Hlen & Hlookup).
  exists ts'. split; [done|]. split; [done|]. intros i t Hi.
  rewrite (Hlookup i t Hi). destruct (decide (i < count)%nat); [done|]. by destruct t.
Qed.

(** X17. Signalling [countTrackers] trackers of a collection succeeds exactly
    when the collection has that many; it then adds the amount to the
    signalled counter of the first [countTrackers] trackers and changes
    neither another tracker, nor an expected count, nor the running total. *)
Theorem signal_reaches_first_trackers countTrackers n c :
  (is_Some (CollectionSignalSemaphores countTrackers n c)
   <-> (Z.to_nat countTrackers <= length (m_trackers c))%nat) /\
  (forall c',
      CollectionSignalSemaphores countTrackers n c = Some c' ->
      m_semaphoreCount c' = m_semaphoreCount c /\
      ExpectedCounts c' = ExpectedCounts c /\
      forall i t,
        m_trackers c !! i = Some t ->
        m_trackers c' !! i =
        Some {| m_semaphoreCounter := m_semaphoreCounter t;
                m_signalledSemaphoreCounter :=
                  if decide (Z.of_nat i < countTrackers)
                  then m_signalledSemaphoreCounter t + n
                  else m_signalledSemaphoreCounter t |}).
Proof.
  unfold CollectionSignalSemaphores.
  destruct (decide (Z.to_nat countTrackers <= length (m_trackers c))%nat) as [Hle|Hgt].
  - destruct (SignalFirst_counters (Z.to_nat countTrackers) n (m_trackers c) Hle)
      as (ts' & Hsig & Hlen & Hlookup).
    rewrite Hsig. split; [split; eauto|].
    intros c' [= <-]. simpl. split; [done|].
    assert (Hat : forall i t,
               m_trackers c !! i = Some t ->
               ts' !! i =
               Some {| m_semaphoreCounter := m_semaphoreCounter t;
                       m_signalledSemaphoreCounter :=
                         if decide (Z.of_nat i < countTrackers)
                         then m_signalledSemaphoreCounter t + n
                         else m_signalledSemaphoreCounter t |}).
    { intros i t Hi. rewrite (Hlookup i t Hi).
      destruct (decide (i < Z.to_nat countTrackers)%nat),
               (decide (Z.of_nat i < countTrackers)); try lia; done. }
    split; [|done].
    unfold ExpectedCounts. simpl. apply list_eq. intros i.
    change (map m_semaphoreCounter ts') with (m_semaphoreCounter <$> ts').
    change (map m_semaphoreCounter (m_trackers c)) with (m_semaphoreCounter <$> m_trackers c).
    rewrite !list_lookup_fmap.
    destruct (m_trackers c !! i) as [t|] eqn:Hi.
    + by rewrite (Hat i t Hi).
    + apply lookup_ge_None in Hi. rewrite <- Hlen in Hi.
      apply lookup_ge_None in Hi. by rewrite Hi.
  - rewrite SignalFirst_None by lia. split; [|done].
    split; [by intros [? ?]|lia].
Qed.

(** X18. A handle signals the trackers that were open when it was created, its
    own one included, and never fails however the collection has grown
    since; trackers opened later are not signalled. *)
Theorem handle_signals_trackers_open_at_creation c ops c' n :
  applyAll (fst (CreateHandle c)) ops = Some c' ->
  exists c'',
    HandleSignalSemaphores (snd (CreateHandle c)) n c' = Some c'' /\
    forall i t,
      m_trackers c' !! i = Some t ->
      m_trackers c'' !! i =
      Some {| m_semaphoreCounter := m_semaphoreCounter t;
              m_signalledSemaphoreCounter :=
                if decide (i <= length (m_trackers c))%nat
                then m_signalledSemaphoreCounter t + n
                else m_signalledSemaphoreCounter t |}.
Proof.
  intros Hall.
  assert (Hlen : (length (m_trackers (fst (CreateHandle c))) <= length (m_trackers c'))%nat).
  { revert Hall. generalize (fst (CreateHandle c)). clear c.
    induction ops as [|op ops IH]; intros c0 Hall; simpl in Hall.
    - injection Hall as <-. lia.
    - destruct (apply c0 op) as [c1|] eqn:Happly; [|done].
      etrans; [|exact (IH c1 Hall)]. destruct op as [|k]; simpl in Happly.
      + injection Happly as <-. simpl. rewrite length_app. lia.
      + apply TrackerProofs.CollectionAddSemaphores_length in Happly as [_ ->]. lia. }
  unfold HandleSignalSemaphores, CollectionSignalSemaphores.
  simpl in *. rewrite length_app in *. simpl in *.
  destruct (SignalFirst_counters (Z.to_nat (Z.of_nat (length (m_trackers c) + 1))) n
              (m_trackers c')) as (ts' & -> & _ & Hat); [lia|].
  eexists. split; [reflexivity|]. simpl. intros i t Hi. rewrite (Hat i t Hi).
  destruct (decide (i < Z.to_nat (Z.of_nat (length (m_trackers c) + 1)))%nat),
           (decide (i <= length (m_trackers c))%nat); try lia; done.
Qed.

(** *** Signalling too much *)

Lemma run_overshoot es : forall t,
  m_semaphoreCounter t < m_signalledSemaphoreCounter t ->
  Forall SignalOrWait es -> EvWaitReturns ∈ es -> run t es = None.
Proof.
  induction es as [|e es IH]; intros t Hover Hall Hin.
  - by apply elem_of_nil in Hin.
  - inversion Hall as [|? ? He Hes]; subst.
    destruct e as [k|k|]; simpl in *.
    + done.
    + apply IH; [simpl; lia|done|].
      apply elem_of_cons in Hin as [Hin|Hin]; [done|done].
    + unfold WaitForSignalAllSemaphores, AllSignalled.
      rewrite bool_decide_eq_false_2; [done|lia].
Qed.

(** X19. The wait tests the two counters for equality: once more has been
    signalled than a tracker expects, further signals never wake a waiter,
    and [SignalSemaphores] does not notify. *)
Theorem overshoot_never_wakes t es :
  m_semaphoreCounter t < m_signalledSemaphoreCounter t ->
  Forall SignalOrWait es ->
  (EvWaitReturns ∈ es -> run t es = None) /\
  (forall n, 0 <= n -> snd (SignalSemaphores n t) = false).
Proof.
  intros Hover Hall. split; [by apply run_overshoot|].
  intros n Hn. unfold SignalSemaphores, AllSignalled. simpl.
  apply bool_decide_eq_false_2. lia.
Qed.

(** The statements on a frame that adds 2, opens a second tracker and
    adds 3. *)
Lemma current_tracker_expects_running_total_witness :
  WithinInt [OpAddSemaphores 2; OpCreateHandle; OpAddSemaphores 3] /\
  Forall NonNegative [OpAddSemaphores 2; OpCreateHandle; OpAddSemaphores 3] /\
  exists c current,
    applyAll NewCollection
      (OpCreateHandle :: [OpAddSemaphores 2; OpCreateHandle; OpAddSemaphores 3]) = Some c /\
    m_semaphoreCount c = totalAdded [OpAddSemaphores 2; OpCreateHandle; OpAddSemaphores 3] /\
    IntRange (m_semaphoreCount c) /\
    Forall (fun t => IntRange (m_semaphoreCounter t)) (m_trackers c) /\
    last (m_trackers c) = Some current /\
    m_semaphoreCounter current = m_semaphoreCount c /\
    Forall (fun t => m_signalledSemaphoreCounter t = 0) (m_trackers c) /\
    (Forall NonNegative [OpAddSemaphores 2; OpCreateHandle; OpAddSemaphores 3] ->
     AscendingCounts (ExpectedCounts c)).
Proof.
  assert (Hint : WithinInt [OpAddSemaphores 2; OpCreateHandle; OpAddSemaphores 3]).
  { split.
    - repeat constructor; unfold IntRange; lia.
    - intros [|[|[|n]]]; unfold IntRange; simpl; rewrite ?take_nil; simpl; lia. }
  split; [exact Hint|]. split.
  - repeat constructor; simpl; lia.
  - apply (current_tracker_expects_running_total
             [OpAddSemaphores 2; OpCreateHandle; OpAddSemaphores 3] Hint).
Defined.

Lemma signal_reaches_first_trackers_witness :
  exists c',
    CollectionSignalSemaphores 1 4
      {| m_trackers := [Create 2; Create 5]; m_semaphoreCount := 5 |} = Some c' /\
    m_semaphoreCount c' = 5 /\
    ExpectedCounts c' = [2; 5] /\
    m_trackers c' !! 0%nat
    = Some {| m_semaphoreCounter := 2; m_signalledSemaphoreCounter := 0 + 4 |} /\
    m_trackers c' !! 1%nat
    = Some {| m_semaphoreCounter := 5; m_signalledSemaphoreCounter := 0 |}.
Proof.
  eexists. split; [reflexivity|].
  destruct (proj2 (signal_reaches_first_trackers 1 4
                     {| m_trackers := [Create 2; Create 5]; m_semaphoreCount := 5 |})
              _ eq_refl) as (Hcount & Hcounts & Hat).
  split; [exact Hcount|]. split; [exact Hcounts|].
  split; [exact (Hat 0%nat (Create 2) eq_refl)|exact (Hat 1%nat (Create 5) eq_refl)].
Defined.

Lemma handle_signals_trackers_open_at_creation_witness :
  applyAll (fst (CreateHandle NewCollection)) [OpAddSemaphores 2; OpCreateHandle]
  = Some {| m_trackers := [AddSemaphores 2 (Create 0); Create 2]; m_semaphoreCount := 2 |} /\
  exists c'',
    HandleSignalSemaphores (snd (CreateHandle NewCollection)) 2
      {| m_trackers := [AddSemaphores 2 (Create 0); Create 2]; m_semaphoreCount := 2 |}
    = Some c'' /\
    forall i t,
      [AddSemaphores 2 (Create 0); Create 2] !! i = Some t ->
      m_trackers c'' !! i =
      Some {| m_semaphoreCounter := m_semaphoreCounter t;
              m_signalledSemaphoreCounter :=
                if decide (i <= length (m_trackers NewCollection))%nat
                then m_signalledSemaphoreCounter t + 2
                else m_signalledSemaphoreCounter t |}.
Proof.
  split; [reflexivity|].
  apply (handle_signals_trackers_open_at_creation NewCollection
           [OpAddSemaphores 2; OpCreateHandle]
           {| m_trackers := [AddSemaphores 2 (Create 0); Create 2]; m_semaphoreCount := 2 |} 2).
  reflexivity.
Defined.

Lemma overshoot_never_wakes_witness :
  m_semaphoreCounter {| m_semaphoreCounter := 2; m_signalledSemaphoreCounter := 3 |}
  < m_signalledSemaphoreCounter {| m_semaphoreCounter := 2; m_signalledSemaphoreCounter := 3 |} /\
  Forall SignalOrWait [EvSignal 1; EvWaitReturns] /\
  (EvWaitReturns ∈ [EvSignal 1; EvWaitReturns] ->
   run {| m_semaphoreCounter := 2; m_signalledSemaphoreCounter := 3 |}
     [EvSignal 1; EvWaitReturns] = None) /\
  (forall n, 0 <= n ->
             snd (SignalSemaphores n
                    {| m_semaphoreCounter := 2; m_signalledSemaphoreCounter := 3 |}) = false).
Proof.
  assert (Hover : m_semaphoreCounter
                    {| m_semaphoreCounter := 2; m_signalledSemaphoreCounter := 3 |}
                  < m_signalledSemaphoreCounter
                      {| m_semaphoreCounter := 2; m_signalledSemaphoreCounter := 3 |}).
  { simpl. lia. }
  assert (Hall : Forall SignalOrWait [EvSignal 1; EvWaitReturns]).
  { repeat constructor. simpl. lia. }
  split; [exact Hover|]. split; [exact Hall|].
  apply (overshoot_never_wakes _ _ Hover Hall).
Defined.

End CollectionProofs.

(** ** Handlers of the execute groups *)

Module HandlersProofs.

Import Tracker Executer Handlers.

Lemma AddExecuteGroupHandler_keeps handlers key groups id h :
  handlers !! id = Some h ->
  AddExecuteGroupHandler handlers key groups !! id = Some h.
Proof.
  intros Hh. unfold AddExecuteGroupHandler.
  destruct groups as [|front rest]; [done|].
  destruct (handlers !! key) eqn:Hkey; [done|].
  rewrite lookup_insert_ne; [done|]. intros ->. congruence.
Qed.

Lemma AddExecuteGroupHandler_other handlers key groups id :
  key <> id \/ groups = [] ->
  AddExecuteGroupHandler handlers key groups !! id = handlers !! id.
Proof.
  intros Hcase. unfold AddExecuteGroupHandler.
  destruct groups as [|front rest]; [done|].
  destruct Hcase as [Hne|Hnil]; [|done].
  destruct (handlers !! key); [done|]. by rewrite lookup_insert_ne.
Qed.

Lemma AddExecuteGroupHandler_new handlers key front rest :
  handlers !! key = None ->
  AddExecuteGroupHandler handlers key (front :: rest) !! key
  = Some (MakeHandler front (front :: rest)).
Proof.
  intros Hnone. unfold AddExecuteGroupHandler. rewrite Hnone. by rewrite lookup_insert_eq.
Qed.

Lemma AddExecuteGroupHandler_is_Some handlers key groups :
  groups <> [] -> is_Some (AddExecuteGroupHandler handlers key groups !! key).
Proof.
  intros Hne. destruct groups as [|front rest]; [done|].
  destruct (handlers !! key) as [h|] eqn:Hkey.
  - exists h. by apply AddExecuteGroupHandler_keeps.
  - rewrite AddExecuteGroupHandler_new by done. eauto.
Qed.

Lemma AddExecuteGroupHandler_mono handlers key groups id :
  is_Some (handlers !! id) -> is_Some (AddExecuteGroupHandler handlers key groups !! id).
Proof. intros [h Hh]. exists h. by apply AddExecuteGroupHandler_keeps. Qed.

Lemma groupRefs_nonempty groups first i :
  (first < i)%nat -> (i <= length groups)%nat -> groupRefs groups first i <> [].
Proof.
  intros Hlt Hle Hnil. apply (f_equal length) in Hnil.
  unfold groupRefs in Hnil. rewrite length_take, length_drop in Hnil. simpl in Hnil. lia.
Qed.

Lemma groupRefs_middle before run after :
  groupRefs (before ++ run ++ after) (length before) (length before + length run) = run.
Proof.
  unfold groupRefs. rewrite drop_app_length.
  replace (length before + length run - length before)%nat with (length run) by lia.
  by rewrite take_app_length.
Qed.

Section WithGroupId.
Variable GetGroupId : ExecuteGroup -> GraphGroupId.
Variable NullGroupId : GraphGroupId.

(** Induction along the loop over the groups. *)
Lemma HandlerLoop_invariant groups (Inv : nat -> HandlerState -> Prop) :
  (forall i g st,
      groups !! i = Some g -> Inv i st -> Inv (S i) (HandlerStep GetGroupId groups st i g)) ->
  forall rest i st,
    drop i groups = rest -> (i <= length groups)%nat -> Inv i st ->
    Inv (length groups) (HandlerLoop GetGroupId groups st i rest).
Proof.
  intros Hstep rest. induction rest as [|g rest IH]; intros i st Hdrop Hle Hinv; simpl.
  - apply drop_nil_inv in Hdrop. by replace (length groups) with i by lia.
  - assert (Hi : groups !! i = Some g).
    { pose proof (lookup_drop groups i 0) as Hl. rewrite Hdrop, Nat.add_0_r in Hl. done. }
    apply IH.
    + erewrite drop_S in Hdrop by done. by injection Hdrop.
    + apply lookup_lt_Some in Hi. lia.
    + by apply Hstep.
Qed.

Lemma Covered_step groups i g st :
  groups !! i = Some g -> Covered GetGroupId groups i st ->
  Covered GetGroupId groups (S i) (HandlerStep GetGroupId groups st i g).
Proof.
  intros Hi (Hle & Hbefore & Hrun). unfold HandlerStep, Covered.
  case_bool_decide as Hid; simpl.
  - split; [lia|]. split.
    + intros j gj Hj Hgj.
      destruct (decide (j < initGroupIndex st)%nat) as [Hlt|Hge].
      * apply AddExecuteGroupHandler_mono. by eapply Hbefore.
      * rewrite (Hrun j gj) by (done || lia).
        apply AddExecuteGroupHandler_is_Some, groupRefs_nonempty; [lia|].
        apply lookup_lt_Some in Hi. lia.
    + intros j gj Hj Hgj. assert (j = i) as -> by lia. congruence.
  - split; [lia|]. split; [done|].
    intros j gj Hj Hgj. destruct (decide (j = i)) as [->|Hne].
    + try apply dec_stable in Hid. congruence.
    + apply (Hrun j gj); [lia|done].
Qed.

(** X1. After [Begin] every execute group has a handler under its group id, so
    the lookup of [ExecuteGroupInternal] finds one for each of them. *)
Theorem every_group_has_a_handler handlers groups g :
  g ∈ groups ->
  is_Some (CreateHandlers GetGroupId NullGroupId handlers groups !! GetGroupId g).
Proof.
  intros Hin. apply list_elem_of_lookup in Hin as [j Hj].
  unfold CreateHandlers.
  set (st0 := {| groupId := NullGroupId; initGroupIndex := 0; m_groupHandlers := handlers |}).
  assert (Hinv : Covered GetGroupId groups (length groups) (HandlerLoop GetGroupId groups st0 0 groups)).
  { apply (HandlerLoop_invariant groups (Covered GetGroupId groups)).
    - intros. by apply Covered_step.
    - done.
    - lia.
    - split; [simpl; lia|]. split; intros ? ? Hlt; simpl in Hlt; lia. }
  destruct Hinv as (Hle & Hbefore & Hrun).
  set (st := HandlerLoop GetGroupId groups st0 0 groups) in *.
  destruct (decide (j < initGroupIndex st)%nat) as [Hlt|Hge].
  - apply AddExecuteGroupHandler_mono. by eapply Hbefore.
  - pose proof (lookup_lt_Some _ _ _ Hj) as Hjlen.
    rewrite (Hrun j g) by (done || lia).
    apply AddExecuteGroupHandler_is_Some, groupRefs_nonempty; lia.
Qed.

Lemma Untouched_step handlers id groups i g st :
  groups !! i = Some g -> GetGroupId g <> id -> Untouched handlers id i st ->
  Untouched handlers id (S i) (HandlerStep GetGroupId groups st i g).
Proof.
  intros Hi Hg [Hsame Hcase]. unfold HandlerStep, Untouched.
  case_bool_decide as Hid; simpl.
  - split; [|by left]. rewrite AddExecuteGroupHandler_other; [done|].
    destruct Hcase as [Hne|[-> ->]]; [by left|]. right. unfold groupRefs. by rewrite take_0.
  - split; [done|]. left. try apply dec_stable in Hid. congruence.
Qed.

(** X3. [CreateHandlers] never removes or replaces a handler that is in the map,
    and under an id that no group has it adds none. *)
Theorem handlers_only_added_for_groups handlers groups id :
  (forall h, handlers !! id = Some h ->
             CreateHandlers GetGroupId NullGroupId handlers groups !! id = Some h) /\
  (Forall (fun g => GetGroupId g <> id) groups ->
   CreateHandlers GetGroupId NullGroupId handlers groups !! id = handlers !! id).
Proof.
  unfold CreateHandlers.
  set (st0 := {| groupId := NullGroupId; initGroupIndex := 0; m_groupHandlers := handlers |}).
  split.
  - intros h Hh. apply AddExecuteGroupHandler_keeps.
    apply (HandlerLoop_invariant groups (fun _ st => m_groupHandlers st !! id = Some h));
      [|done|lia|done].
    intros i g st _ Hst. unfold HandlerStep. case_bool_decide; [|done]. simpl.
    by apply AddExecuteGroupHandler_keeps.
  - intros Hall.
    assert (Hinv : Untouched handlers id (length groups)
                     (HandlerLoop GetGroupId groups st0 0 groups)).
    { apply (HandlerLoop_invariant groups (Untouched handlers id)); [|done|lia|].
      - intros i g st Hi. apply Untouched_step; [done|].
        rewrite Forall_forall in Hall. apply Hall. by eapply list_elem_of_lookup_2.
      - split; [done|]. by right. }
    destruct Hinv as [Hsame Hcase]. rewrite AddExecuteGroupHandler_other; [done|].
    destruct Hcase as [Hne|[Hlen ->]]; [by left|]. right.
    unfold groupRefs. rewrite Hlen. by rewrite take_0.
Qed.

Lemma RunProgress_step handlers id before front rest after i g st :
  handlers !! id = None ->
  FirstRun GetGroupId id before (front :: rest) after ->
  (before ++ (front :: rest) ++ after) !! i = Some g ->
  RunProgress handlers id before (front :: rest) front i st ->
  RunProgress handlers id before (front :: rest) front (S i)
    (HandlerStep GetGroupId (before ++ (front :: rest) ++ after) st i g).
Proof.
  intros Hnone (Hbefore & Hrun & _ & Hafter) Hi (Hp1 & Hp2 & Hp3).
  set (run := front :: rest) in *.
  destruct (decide (i < length before)%nat) as [Hlt1|Hge1].
  - (* a group in front of the run *)
    rewrite lookup_app_l in Hi by done.
    assert (Hg : GetGroupId g <> id).
    { rewrite Forall_forall in Hbefore. apply Hbefore. by eapply list_elem_of_lookup_2. }
    split; [|split]; intros Hrange; try lia.
    apply Untouched_step; [|done|apply Hp1; lia].
    by rewrite lookup_app_l.
  - rewrite lookup_app_r in Hi by lia.
    destruct (decide (i < length before + length run)%nat) as [Hlt2|Hge2].
    + (* a group of the run *)
      rewrite lookup_app_l in Hi by lia.
      assert (Hg : GetGroupId g = id).
      { rewrite Forall_forall in Hrun. apply Hrun. by eapply list_elem_of_lookup_2. }
      split; [|split]; intros Hrange; try lia.
      unfold HandlerStep. case_bool_decide as Hid; simpl.
      * destruct (decide (i = length before)) as [->|Hne].
        -- destruct (Hp1 (Nat.le_refl _)) as [Hsame Hcase].
           split; [done|]. split; [done|].
           rewrite AddExecuteGroupHandler_other; [congruence|].
           destruct Hcase as [Hne|[Hzero Hinit]]; [by left|]. right.
           unfold groupRefs. rewrite Hinit, Hzero. by rewrite take_0.
        -- destruct Hp2 as (Hgid & _); [lia|]. congruence.
      * try apply dec_stable in Hid.
        destruct (decide (i = length before)) as [->|Hne].
        -- destruct (Hp1 (Nat.le_refl _)) as [Hsame [Hne|[Hzero Hinit]]]; [congruence|].
           split; [congruence|]. split; [lia|congruence].
        -- apply Hp2. lia.
    + (* a group behind the run *)
      split; [|split]; intros Hrange; try lia.
      unfold HandlerStep.
      destruct (decide (i = length before + length run)%nat) as [Heq|Hne].
      * rewrite lookup_app_r in Hi by lia.
        replace (i - length before - length run)%nat with 0%nat in Hi by lia.
        destruct after as [|a after]; [done|]. injection Hi as <-.
        destruct Hp2 as (Hgid & Hinit & Hmap); [simpl in *; lia|].
        rewrite bool_decide_eq_true_2 by congruence.
        rewrite Hgid, Hinit, Heq, groupRefs_middle. simpl.
        by apply AddExecuteGroupHandler_new.
      * case_bool_decide; simpl; [|apply Hp3; lia].
        apply AddExecuteGroupHandler_keeps, Hp3. lia.
Qed.

(** X2. The handler under an id that had none holds the first maximal run of
    groups with that id: its groups are this run, in order, its device is
    that of the first group of the run, and it is a primary handler exactly
    when the run is a single primary group. A later run with the same id
    gets no handler of its own, [insert] keeping the first. *)
Theorem handler_holds_first_run handlers id before front rest after :
  handlers !! id = None ->
  FirstRun GetGroupId id before (front :: rest) after ->
  CreateHandlers GetGroupId NullGroupId handlers (before ++ (front :: rest) ++ after) !! id
  = Some {| handlerClass :=
              if bool_decide (rest = []) && IsPrimary front
              then PrimaryHandler else SecondaryHandler;
            handlerDevice := GroupDevice front;
            handlerGroups := front :: rest |}.
Proof.
  intros Hnone Hfirst.
  assert (Hmake : MakeHandler front (front :: rest)
                  = {| handlerClass :=
                         if bool_decide (rest = []) && IsPrimary front
                         then PrimaryHandler else SecondaryHandler;
                       handlerDevice := GroupDevice front;
                       handlerGroups := front :: rest |}).
  { assert (Hone : bool_decide (length (front :: rest) = 1%nat) = bool_decide (rest = [])).
    { destruct rest as [|g rest].
      - by rewrite !bool_decide_eq_true_2.
      - rewrite (bool_decide_eq_false_2 (_ = 1%nat)) by (simpl; lia).
        by rewrite bool_decide_eq_false_2. }
    unfold MakeHandler. by rewrite Hone. }
  rewrite <- Hmake. clear Hmake.
  set (groups := before ++ (front :: rest) ++ after).
  unfold CreateHandlers.
  set (st0 := {| groupId := NullGroupId; initGroupIndex := 0; m_groupHandlers := handlers |}).
  assert (Hinv : RunProgress handlers id before (front :: rest) front (length groups)
                   (HandlerLoop GetGroupId groups st0 0 groups)).
  { apply (HandlerLoop_invariant groups
             (RunProgress handlers id before (front :: rest) front)); [|done|lia|].
    - intros i g st Hi. by apply RunProgress_step.
    - split; [|split]; intros Hrange; simpl in Hrange; try lia.
      split; [done|]. by right. }
  destruct Hinv as (_ & Hp2 & Hp3).
  assert (Hlen : length groups = (length before + length (front :: rest) + length after)%nat).
  { unfold groups. rewrite !length_app. lia. }
  destruct after as [|a after].
  - destruct Hp2 as (Hgid & Hinit & Hmap); [simpl in *; lia|].
    rewrite Hgid, Hinit.
    replace (length groups) with (length before + length (front :: rest))%nat
      by (simpl in *; lia).
    unfold groups. rewrite groupRefs_middle. by apply AddExecuteGroupHandler_new.
  - apply AddExecuteGroupHandler_keeps, Hp3. simpl in *. lia.
Qed.

End WithGroupId.

Import Examples MoreExamples.

Lemma every_group_has_a_handler_witness :
  GroupB2 ∈ [GroupA; GroupB; GroupB2; GroupC] /\
  is_Some (CreateHandlers (FirstScopeGroupId NullId) NullId ∅
             [GroupA; GroupB; GroupB2; GroupC] !! FirstScopeGroupId NullId GroupB2).
Proof.
  split; [by repeat constructor|].
  apply (every_group_has_a_handler (FirstScopeGroupId NullId) NullId ∅
           [GroupA; GroupB; GroupB2; GroupC] GroupB2).
  by repeat constructor.
Defined.

Lemma handlers_only_added_for_groups_witness :
  Forall (fun g => FirstScopeGroupId NullId g <> 2) [GroupA; GroupC] /\
  CreateHandlers (FirstScopeGroupId NullId) NullId ∅ [GroupA; GroupC] !! 2
  = (∅ : gmap GraphGroupId ExecuteGroupHandler) !! 2.
Proof.
  split; [by repeat constructor|].
  apply (handlers_only_added_for_groups (FirstScopeGroupId NullId) NullId ∅
           [GroupA; GroupC] 2).
  by repeat constructor.
Defined.

Lemma handler_holds_first_run_witness :
  (∅ : gmap GraphGroupId ExecuteGroupHandler) !! 2 = None /\
  FirstRun (FirstScopeGroupId NullId) 2 [GroupA] [GroupB; GroupB2] [GroupC; GroupB] /\
  CreateHandlers (FirstScopeGroupId NullId) NullId ∅
    ([GroupA] ++ [GroupB; GroupB2] ++ [GroupC; GroupB]) !! 2
  = Some {| handlerClass :=
              if bool_decide ([GroupB2] = []) && IsPrimary GroupB
              then PrimaryHandler else SecondaryHandler;
            handlerDevice := GroupDevice GroupB;
            handlerGroups := [GroupB; GroupB2] |}.
Proof.
  split; [reflexivity|].
  split; [split; [|split; [|split]]; by repeat constructor|].
  apply (handler_holds_first_run (FirstScopeGroupId NullId) NullId ∅ 2
           [GroupA] GroupB [GroupB2] [GroupC; GroupB]).
  - reflexivity.
  - split; [|split; [|split]]; by repeat constructor.
Defined.

End HandlersProofs.

(** ** Further properties of the partitioning *)

Module PartitionProofs.

Import Tracker Executer Handlers Vocabulary ExecuterProofs.

Lemma PrimaryGroups_app gs1 gs2 :
  PrimaryGroups (gs1 ++ gs2) = PrimaryGroups gs1 ++ PrimaryGroups gs2.
Proof. apply filter_app. Qed.

Lemma SecondaryGroups_app gs1 gs2 :
  SecondaryGroups (gs1 ++ gs2) = SecondaryGroups gs1 ++ SecondaryGroups gs2.
Proof. apply filter_app. Qed.

Lemma length_AllScopes gs :
  Forall (fun g => GroupScopes g <> []) gs -> (length gs <= length (AllScopes gs))%nat.
Proof.
  induction 1 as [|g gs Hg _ IH]; simpl; [lia|].
  rewrite AllScopes_cons, length_app.
  destruct (GroupScopes g); [done|]. simpl. lia.
Qed.

Section Loop.
Context `{Platform}.
Variable m : gmap Z FrameGraphExecuterData.
Variable useSemaphoreTrackers : bool.

(** What one iteration adds to the primary and to the secondary groups. *)
Lemma ProcessScope_order done st scope scopeNext st' :
  Reached useSemaphoreTrackers done st ->
  ProcessScope m useSemaphoreTrackers st scope scopeNext = Some st' ->
  AllScopes (PrimaryGroups (m_groups st')) ++ mergedScopes (merge st')
  = (AllScopes (PrimaryGroups (m_groups st)) ++ mergedScopes (merge st))
    ++ (if mergeable m (last done) scope scopeNext then [scope] else []) /\
  AllScopes (SecondaryGroups (m_groups st'))
  = AllScopes (SecondaryGroups (m_groups st))
    ++ (if mergeable m (last done) scope scopeNext then [] else [scope]) /\
  (Forall (SecondaryAsMade m) (m_groups st) -> Forall (SecondaryAsMade m) (m_groups st')).
Proof.
  intros Hreached Hproc.
  destruct (ProcessScope_cases m useSemaphoreTrackers st scope scopeNext
              (Reached_scopePrev _ _ _ Hreached) (proj1 (proj2 Hreached)))
    as (st1 & device & handle & handle' & Hproc1 & _ & _ & Hgroups & Hmerged & _).
  rewrite Hproc in Hproc1. injection Hproc1 as <-.
  destruct Hreached as (Hprev & _ & _). rewrite Hprev in Hgroups, Hmerged.
  rewrite Hgroups, Hmerged, !PrimaryGroups_app, !SecondaryGroups_app, !AllScopes_app.
  destruct (willFlush m (merge st) scope scopeNext),
           (mergeable m (last done) scope scopeNext);
    unfold PrimaryGroups, SecondaryGroups, AllScopes; simpl;
    rewrite ?app_nil_r, <- ?app_assoc; (split; [done|]); (split; [done|]);
    intros Hmade; rewrite ?Forall_app; repeat split; try done;
    repeat constructor; unfold commandListCount; lia.
Qed.

Lemma MergeLoop_order rest : forall done st,
  Reached useSemaphoreTrackers done st ->
  exists st',
    MergeLoop m useSemaphoreTrackers st rest = Some st' /\
    Reached useSemaphoreTrackers (done ++ rest) st' /\
    AllScopes (PrimaryGroups (m_groups st')) ++ mergedScopes (merge st')
    = (AllScopes (PrimaryGroups (m_groups st)) ++ mergedScopes (merge st))
      ++ MergedScopes m (last done) rest /\
    AllScopes (SecondaryGroups (m_groups st'))
    = AllScopes (SecondaryGroups (m_groups st)) ++ UnmergedScopes m (last done) rest /\
    (Forall (SecondaryAsMade m) (m_groups st) -> Forall (SecondaryAsMade m) (m_groups st')).
Proof.
  induction rest as [|scope rest IH]; intros done st Hreached; simpl.
  - exists st. rewrite !app_nil_r. done.
  - destruct (ProcessScope_cases m useSemaphoreTrackers st scope (head rest)
                (Reached_scopePrev _ _ _ Hreached) (proj1 (proj2 Hreached)))
      as (st1 & ? & ? & ? & Hproc & _).
    rewrite Hproc.
    pose proof (Reached_step _ _ _ _ _ _ _ Hreached Hproc) as Hreached1.
    destruct (ProcessScope_order _ _ _ _ _ Hreached Hproc) as (Hprim1 & Hsec1 & Hmade1).
    destruct (IH _ _ Hreached1) as (st' & Hloop & Hreached' & Hprim & Hsec & Hmade).
    exists st'. split; [done|]. rewrite <- app_assoc in Hreached'. split; [done|].
    rewrite last_snoc in Hprim, Hsec.
    split; [|split].
    + rewrite Hprim, Hprim1, <- !app_assoc. done.
    + rewrite Hsec, Hsec1, <- !app_assoc. done.
    + auto.
Qed.

(** *** Queue classes *)

Lemma sumCost_positive scopes :
  Forall (fun s => 0 < totalScopeCost m s) scopes -> scopes <> [] -> 0 < sumCost m scopes.
Proof.
  induction 1 as [|s scopes Hs Hall IH]; intros Hne; [done|].
  unfold sumCost in *. simpl.
  destruct scopes as [|s' scopes]; [simpl; lia|].
  assert (0 < foldr (fun scope acc => totalScopeCost m scope + acc) 0 (s' :: scopes))
    by (by apply IH).
  lia.
Qed.

Lemma SameQueueClass_snoc scopes scope :
  (forall s, s ∈ scopes -> GetHardwareQueueClass s = GetHardwareQueueClass scope) ->
  SameQueueClass (scopes ++ [scope]).
Proof.
  intros Hall a b Ha Hb.
  apply elem_of_app in Ha as [Ha|Ha]; apply elem_of_app in Hb as [Hb|Hb];
    rewrite ?list_elem_of_singleton in *; subst; rewrite ?(Hall a), ?(Hall b) by done; done.
Qed.

Lemma QueueUniform_step all done st scope rest st' :
  all = done ++ scope :: rest ->
  Forall (fun s => 0 < totalScopeCost m s) all ->
  Reached useSemaphoreTrackers done st -> ExactCost m st -> QueueUniform st ->
  ProcessScope m useSemaphoreTrackers st scope (head rest) = Some st' ->
  QueueUniform st'.
Proof.
  intros Hall Hpos Hreached (Hexact & _) (Hmerged & Hgroups) Hproc.
  destruct (ProcessScope_cases m useSemaphoreTrackers st scope (head rest)
              (Reached_scopePrev _ _ _ Hreached) (proj1 (proj2 Hreached)))
    as (st1 & device & handle & handle' & Hproc1 & _ & _ & Hgroups1 & Hmerged1 & _ & _
        & Hqueue1 & _).
  rewrite Hproc in Hproc1. injection Hproc1 as <-.
  assert (Hsame : SameQueueClass (mergedScopes (merge st))).
  { intros a b Ha Hb. by rewrite (Hmerged a Ha), (Hmerged b Hb). }
  assert (Hnonempty : mergedScopes (merge st) <> [] ->
            ResetQueueClass (merge st) scope = merge st).
  { intros Hne. unfold ResetQueueClass. rewrite bool_decide_eq_false_2; [done|].
    rewrite <- Hexact.
    assert (0 < sumCost m (mergedScopes (merge st))); [|lia].
    apply sumCost_positive; [|done].
    rewrite Forall_forall in Hpos |- *. intros s Hs. apply Hpos. subst all.
    apply elem_of_app. left. destruct Hreached as (_ & _ & Hperm). rewrite <- Hperm.
    apply elem_of_app. by right. }
  unfold QueueUniform. rewrite Hgroups1, Hmerged1, Hqueue1. clear Hgroups1 Hmerged1 Hqueue1.
  destruct (willFlush m (merge st) scope (head rest)) eqn:Hflush.
  - destruct (mergeable m (scopePrev (merge st)) scope (head rest)); simpl.
    + split.
      * intros s Hs. apply list_elem_of_singleton in Hs. by subst.
      * apply Forall_app. split; [done|]. by constructor.
    + split.
      * intros s Hs. by apply elem_of_nil in Hs.
      * apply Forall_app. split; [done|]. constructor; [done|]. constructor; [|constructor].
        intros a b Ha Hb. simpl in *.
        apply list_elem_of_singleton in Ha, Hb. by subst.
  - destruct (mergeable m (scopePrev (merge st)) scope (head rest)); simpl;
      rewrite ?app_nil_r.
    + split; [|done].
      destruct (mergedScopes (merge st)) as [|s0 ms0] eqn:Hms.
      * intros s Hs. simpl in Hs. apply list_elem_of_singleton in Hs. subst.
        unfold ResetQueueClass. rewrite bool_decide_eq_true_2; [done|].
        rewrite <- Hexact. done.
      * rewrite Hnonempty by done.
        assert (Hq : GetHardwareQueueClass scope = mergedHardwareQueueClass (merge st)).
        { unfold willFlush in Hflush. rewrite ?Hms in Hflush. simpl in Hflush.
          rewrite andb_true_r in Hflush. unfold flushMergedScopes in Hflush.
          repeat (apply orb_false_iff in Hflush as [Hflush ?]).
          match goal with Hmis : hardwareQueueMismatch _ _ = false |- _ =>
            unfold hardwareQueueMismatch in Hmis; rewrite Hnonempty in Hmis by done;
            apply bool_decide_eq_false in Hmis; by apply dec_stable in Hmis end. }
        intros s Hs. apply elem_of_app in Hs as [Hs|Hs].
        -- by apply Hmerged.
        -- apply list_elem_of_singleton in Hs. by subst.
    + split.
      * intros s Hs. rewrite Hnonempty; [by apply Hmerged|].
        intros Hnil. rewrite Hnil in Hs. by apply elem_of_nil in Hs.
      * apply Forall_app. split; [done|]. constructor; [|constructor].
        intros a b Ha Hb. simpl in *.
        apply list_elem_of_singleton in Ha, Hb. by subst.
Qed.

Lemma MergeLoop_queues scopes :
  Forall (fun s => 0 < totalScopeCost m s) scopes ->
  Forall (fun s => CommandListCostThreshold m s <= 2 ^ 31) scopes ->
  exists st,
    MergeLoop m useSemaphoreTrackers (InitialState useSemaphoreTrackers) scopes = Some st /\
    QueueUniform st.
Proof.
  intros Hpos Hsmall.
  destruct (MergeLoop_invariant m useSemaphoreTrackers scopes
           (fun done st => Reached useSemaphoreTrackers done st /\
                           CostBounded m st /\ ExactCost m st /\ QueueUniform st))
    with (rest := scopes) (done := @nil Scope) (st := InitialState useSemaphoreTrackers)
    as (st & Hloop & _ & _ & _ & Hqueue).
  - intros done scope rest st Hall (Hreached & Hcost & Hexact & Hqueue).
    destruct (ProcessScope_cases m useSemaphoreTrackers st scope (head rest)
                (Reached_scopePrev _ _ _ Hreached) (proj1 (proj2 Hreached)))
      as (st' & ? & ? & ? & Hproc & _).
    exists st'. split; [done|]. split; [|split; [|split]].
    + eapply Reached_step; eauto.
    + eapply CostBounded_step; eauto.
    + eapply ExactCost_step; eauto.
    + eapply QueueUniform_step; eauto.
  - done.
  - split; [apply Reached_initial|]. split; [apply CostBounded_initial|].
    split; [split; [done|constructor]|]. split; [|constructor].
    intros s Hs. by apply elem_of_nil in Hs.
  - eauto.
Qed.

End Loop.

Section Begin.
Context `{Platform}.
Variable m : gmap Z FrameGraphExecuterData.

(** X4. [BeginInternal] produces its groups only for a non-empty scope list: on
    the empty list it reads the front of an empty vector. For a non-empty
    list it produces them in the in-sync build, and in cost-heuristic mode
    when no divisor of lines 134 and 237 is zero: then neither a null
    pointer nor an empty vector is ever read. *)
Theorem begin_succeeds_on_nonempty_lists forceCpuGpuInSync scopes :
  (is_Some (BeginInternal forceCpuGpuInSync m scopes) -> scopes <> []) /\
  (scopes <> [] ->
   (forceCpuGpuInSync = false -> Forall (DivisorsNonZero m) scopes) ->
   is_Some (BeginInternal forceCpuGpuInSync m scopes)).
Proof.
  split.
  - intros [st Hst] ->. done.
  - intros Hne _. destruct scopes as [|front rest]; [done|].
    destruct forceCpuGpuInSync.
    + rewrite BeginInternal_in_sync. eauto.
    + rewrite BeginInternal_heuristic.
      destruct (MergeLoop_partition m (SignalFenceFromCPU (GetDeviceIndex front))
                  (front :: rest)) as (st & -> & _). eauto.
Qed.

(** X5. In cost-heuristic mode no execute group is empty, and a non-empty scope
    list gets at least one group and at most as many groups as it has
    scopes. *)
Theorem groups_nonempty_and_at_most_scopes scopes :
  scopes <> [] ->
  exists st,
    BeginInternal false m scopes = Some st /\
    Forall (fun g => GroupScopes g <> []) (m_groups st) /\
    (1 <= length (m_groups st) <= length scopes)%nat.
Proof.
  intros Hne. destruct scopes as [|front rest]; [done|].
  rewrite BeginInternal_heuristic.
  destruct (MergeLoop_cost m (SignalFenceFromCPU (GetDeviceIndex front)) (front :: rest))
    as (st & Hloop & (_ & _ & Hperm) & (_ & _ & Hgroups)).
  rewrite Hloop. eexists. split; [reflexivity|].
  assert (Hall : Forall (fun g => GroupScopes g <> []) (m_groups (MergePending st))).
  { assert (Hold : Forall (fun g => GroupScopes g <> []) (m_groups st)).
    { eapply Forall_impl; [exact Hgroups|].
      intros [name device scopes tracker|device scope n policy tracker] Hg; simpl; [|done].
      destruct (Hg eq_refl) as (lastScope & Hlast & _). intros ->. done. }
    destruct (MergePending_groups st) as [[_ ->]|[Hpending [device ->]]]; [done|].
    apply Forall_app. split; [done|]. by constructor. }
  split; [done|].
  assert (Hscopes : AllScopes (m_groups (MergePending st)) ≡ₚ front :: rest).
  { by rewrite MergePending_AllScopes. }
  pose proof (length_AllScopes _ Hall) as Hlen.
  rewrite Hscopes in Hlen. split; [|done].
  destruct (m_groups (MergePending st)); [|simpl; lia].
  apply Permutation_nil_l in Hscopes. done.
Qed.

(** X6. In cost-heuristic mode the primary groups, read one after the other,
    list exactly the scopes that were appended to a merge set, in input
    order, and the secondary groups are exactly the other scopes, in input
    order, each on the device of its scope, with the command-list count
    computed at line 237, which is at least 1, and the parallel job
    policy. *)
Theorem groups_keep_input_order scopes :
  scopes <> [] ->
  exists st,
    BeginInternal false m scopes = Some st /\
    AllScopes (PrimaryGroups (m_groups st)) = MergedScopes m None scopes /\
    AllScopes (SecondaryGroups (m_groups st)) = UnmergedScopes m None scopes /\
    Forall (SecondaryAsMade m) (m_groups st).
Proof.
  intros Hne. destruct scopes as [|front rest]; [done|].
  rewrite BeginInternal_heuristic.
  destruct (MergeLoop_order m (SignalFenceFromCPU (GetDeviceIndex front)) (front :: rest) []
              _ (Reached_initial _)) as (st & Hloop & _ & Hprim & Hsec & Hmade).
  rewrite Hloop. eexists. split; [reflexivity|].
  simpl in Hprim, Hsec.
  destruct (MergePending_groups st) as [[Hnil ->]|[_ [device ->]]].
  - rewrite Hnil, app_nil_r in Hprim. split; [done|]. split; [done|].
    apply Hmade. constructor.
  - rewrite PrimaryGroups_app, SecondaryGroups_app, !AllScopes_app.
    unfold PrimaryGroups at 2, SecondaryGroups at 2, AllScopes at 2 4. simpl.
    rewrite !app_nil_r. split; [done|]. split; [done|].
    apply Forall_app. split; [apply Hmade; constructor|]. by repeat constructor.
Qed.

(** X7. In cost-heuristic mode, when every scope costs something and no
    threshold exceeds 2^31, all scopes of an execute group have the same
    hardware queue class. *)
Theorem positive_costs_keep_queue_classes_apart scopes :
  scopes <> [] ->
  Forall (fun s => 0 < totalScopeCost m s) scopes ->
  Forall (fun s => CommandListCostThreshold m s <= 2 ^ 31) scopes ->
  exists st,
    BeginInternal false m scopes = Some st /\
    Forall (fun g => SameQueueClass (GroupScopes g)) (m_groups st).
Proof.
  intros Hne Hpos Hsmall. destruct scopes as [|front rest]; [done|].
  rewrite BeginInternal_heuristic.
  destruct (MergeLoop_queues m (SignalFenceFromCPU (GetDeviceIndex front)) (front :: rest)
              Hpos Hsmall) as (st & Hloop & Hmerged & Hgroups).
  rewrite Hloop. eexists. split; [reflexivity|].
  destruct (MergePending_groups st) as [[_ ->]|[_ [device ->]]]; [done|].
  apply Forall_app. split; [done|]. constructor; [|constructor].
  intros a b Ha Hb. simpl in *. by rewrite (Hmerged a Ha), (Hmerged b Hb).
Qed.

End Begin.

Import Examples MoreExamples.

Lemma begin_succeeds_on_nonempty_lists_witness :
  [ScopeA; ScopeB; ScopeC] <> [] /\
  Forall (@DivisorsNonZero Vulkan Data20) [ScopeA; ScopeB; ScopeC] /\
  is_Some (@BeginInternal Vulkan false Data20 [ScopeA; ScopeB; ScopeC]) /\
  ~ is_Some (@BeginInternal Vulkan false Data20 []).
Proof.
  assert (Hdivisors : Forall (@DivisorsNonZero Vulkan Data20) [ScopeA; ScopeB; ScopeC]).
  { repeat constructor; vm_compute; discriminate. }
  split; [discriminate|]. split; [exact Hdivisors|]. split.
  - apply (@begin_succeeds_on_nonempty_lists Vulkan Data20 false [ScopeA; ScopeB; ScopeC]).
    + discriminate.
    + intros _. exact Hdivisors.
  - intros Hsome.
    by apply (@begin_succeeds_on_nonempty_lists Vulkan Data20 false []) in Hsome.
Defined.

Lemma groups_nonempty_and_at_most_scopes_witness :
  [ScopeA; ScopeB; ScopeC] <> [] /\
  exists st,
    @BeginInternal Vulkan false Data20 [ScopeA; ScopeB; ScopeC] = Some st /\
    Forall (fun g => GroupScopes g <> []) (m_groups st) /\
    (1 <= length (m_groups st) <= length [ScopeA; ScopeB; ScopeC])%nat.
Proof.
  split; [discriminate|].
  apply (@groups_nonempty_and_at_most_scopes Vulkan Data20 [ScopeA; ScopeB; ScopeC]).
  discriminate.
Defined.

Lemma groups_keep_input_order_witness :
  [DeviceS; DeviceT; DeviceA; DeviceB] <> [] /\
  exists st,
    @BeginInternal Vulkan false Data20 [DeviceS; DeviceT; DeviceA; DeviceB] = Some st /\
    AllScopes (PrimaryGroups (m_groups st))
    = @MergedScopes Vulkan Data20 None [DeviceS; DeviceT; DeviceA; DeviceB] /\
    AllScopes (SecondaryGroups (m_groups st))
    = @UnmergedScopes Vulkan Data20 None [DeviceS; DeviceT; DeviceA; DeviceB] /\
    Forall (@SecondaryAsMade Vulkan Data20) (m_groups st).
Proof.
  split; [discriminate|].
  apply (@groups_keep_input_order Vulkan Data20 [DeviceS; DeviceT; DeviceA; DeviceB]).
  discriminate.
Defined.

Lemma positive_costs_keep_queue_classes_apart_witness :
  [QueueS; QueueG1; QueueG2; QueueC] <> [] /\
  Forall (fun s => 0 < @totalScopeCost Vulkan Data20 s) [QueueS; QueueG1; QueueG2; QueueC] /\
  Forall (fun s => @CommandListCostThreshold Vulkan Data20 s <= 2 ^ 31)
         [QueueS; QueueG1; QueueG2; QueueC] /\
  exists st,
    @BeginInternal Vulkan false Data20 [QueueS; QueueG1; QueueG2; QueueC] = Some st /\
    Forall (fun g => SameQueueClass (GroupScopes g)) (m_groups st) /\
    map GroupScopes (m_groups st) = [[QueueS]; [QueueG1; QueueG2]; [QueueC]].
Proof.
  split; [discriminate|].
  split; [repeat constructor|].
  split; [repeat constructor; vm_compute; discriminate|].
  destruct (@positive_costs_keep_queue_classes_apart Vulkan Data20
              [QueueS; QueueG1; QueueG2; QueueC]) as (st & Hbegin & Hclasses).
  - discriminate.
  - repeat constructor.
  - repeat constructor; vm_compute; discriminate.
  - exists st. split; [exact Hbegin|]. split; [exact Hclasses|].
    vm_compute in Hbegin. injection Hbegin as <-. reflexivity.
Defined.

End PartitionProofs.

(** ** The semaphore bookkeeping of [BeginInternal] *)

Module BookkeepingProofs.

Import Tracker Executer Handlers Vocabulary ExecuterProofs.

Lemma unwaited_lookup (fences : gmap Fence bool) fence :
  UnwaitedFences fences !! fence =
  match fences !! fence with
  | Some false => Some false
  | _ => None
  end.
Proof.
  unfold UnwaitedFences.
  destruct (fences !! fence) as [[|]|] eqn:Hf.
  - apply map_lookup_filter_None. right. intros x Hx. simpl. congruence.
  - apply map_lookup_filter_Some. done.
  - apply map_lookup_filter_None. by left.
Qed.

Lemma RegisterSignalFence_count acc fence :
  snd acc = Z.of_nat (size (UnwaitedFences (fst acc))) ->
  snd (RegisterSignalFence acc fence)
  = Z.of_nat (size (UnwaitedFences (fst (RegisterSignalFence acc fence)))).
Proof.
  intros Hcount. unfold RegisterSignalFence.
  destruct (fst acc !! fence) as [b|] eqn:Hf; [done|]. simpl.
  unfold UnwaitedFences. rewrite map_filter_insert_True by done.
  rewrite map_size_insert_None.
  - fold (UnwaitedFences (fst acc)). lia.
  - fold (UnwaitedFences (fst acc)). by rewrite unwaited_lookup, Hf.
Qed.

Lemma RegisterWaitFence_count acc fence :
  snd acc = Z.of_nat (size (UnwaitedFences (fst acc))) ->
  snd (RegisterWaitFence acc fence)
  = Z.of_nat (size (UnwaitedFences (fst (RegisterWaitFence acc fence)))).
Proof.
  intros Hcount. unfold RegisterWaitFence. simpl.
  unfold UnwaitedFences. rewrite map_filter_insert_False by (simpl; congruence).
  rewrite map_filter_delete. fold (UnwaitedFences (fst acc)).
  rewrite map_size_delete, unwaited_lookup.
  destruct (fst acc !! fence) as [[|]|] eqn:Hf; simpl; try done.
  assert (size (UnwaitedFences (fst acc)) <> 0%nat); [|lia].
  intros Hzero. apply map_size_empty_inv in Hzero.
  pose proof (unwaited_lookup (fst acc) fence) as Hl. rewrite Hf, Hzero in Hl. done.
Qed.

Lemma foldl_count (f : gmap Fence bool * Z -> Fence -> gmap Fence bool * Z) fences :
  (forall acc fence,
      snd acc = Z.of_nat (size (UnwaitedFences (fst acc))) ->
      snd (f acc fence) = Z.of_nat (size (UnwaitedFences (fst (f acc fence))))) ->
  forall acc,
    snd acc = Z.of_nat (size (UnwaitedFences (fst acc))) ->
    snd (foldl f acc fences) = Z.of_nat (size (UnwaitedFences (fst (foldl f acc fences)))).
Proof.
  intros Hstep. induction fences as [|fence fences IH]; intros acc Hacc; simpl; [done|].
  apply IH. by apply Hstep.
Qed.

Lemma GetCurrentTracker_Some c :
  m_trackers c <> [] -> GetCurrentTracker c = Some (pred (length (m_trackers c))).
Proof. unfold GetCurrentTracker. by destruct (m_trackers c). Qed.

(** The swap chains of a scope: each is bound to the current tracker, the
    first adds the fences not waited for and clears them. *)
Lemma BindSwapChain_tracking swapchains : forall c fences unwaited bound,
  Collection.Open c -> Collection.Ascending c ->
  unwaited = Z.of_nat (size (UnwaitedFences fences)) ->
  (forall sc idx, bound !! sc = Some idx -> (idx < length (m_trackers c))%nat) ->
  exists c' fences' unwaited' bound',
    foldl BindSwapChain (Some (c, fences, unwaited, bound)) swapchains
    = Some (c', fences', unwaited', bound') /\
    Collection.Open c' /\ Collection.Ascending c' /\
    length (m_trackers c') = length (m_trackers c) /\
    unwaited' = Z.of_nat (size (UnwaitedFences fences')) /\
    (forall sc idx, bound' !! sc = Some idx -> (idx < length (m_trackers c'))%nat) /\
    (forall sc, sc ∈ swapchains -> is_Some (bound' !! sc)) /\
    (forall sc, is_Some (bound !! sc) -> is_Some (bound' !! sc)).
Proof.
  induction swapchains as [|swapchain swapchains IH];
    intros c fences unwaited bound Hopen Hasc Hcount Hbound; simpl.
  - exists c, fences, unwaited, bound.
    split; [done|]. split; [done|]. split; [done|]. split; [done|]. split; [done|].
    split; [done|]. split; [|done]. intros sc Hsc. by apply elem_of_nil in Hsc.
  - destruct (CollectionProofs.apply_Open c (Collection.OpAddSemaphores unwaited) Hopen)
      as (c1 & Happly & Hopen1 & _ & Hasc1).
    simpl in Happly. rewrite Happly.
    pose proof (TrackerProofs.CollectionAddSemaphores_length _ _ _ Happly) as [Hne Hlen].
    assert (Hpos : (0 < length (m_trackers c1))%nat).
    { rewrite Hlen. destruct (m_trackers c); simpl; [done|lia]. }
    rewrite GetCurrentTracker_Some by (destruct (m_trackers c1); simpl in *; [lia|done]).
    destruct (IH c1 ∅ 0 (<[swapchain := pred (length (m_trackers c1))]> bound))
      as (c' & fences' & unwaited' & bound' & Hfold & Hopen' & Hasc' & Hlen' & Hcount'
          & Hbound' & Hin' & Hkeep').
    + done.
    + apply Hasc1; [|done]. simpl. lia.
    + done.
    + intros sc idx. rewrite lookup_insert. case_decide.
      * intros [= <-]. lia.
      * intros Hsc. rewrite Hlen. by eapply Hbound.
    + exists c', fences', unwaited', bound'. split; [done|]. split; [done|]. split; [done|].
      split; [lia|]. split; [done|]. split; [done|]. split.
      * intros sc Hsc. apply elem_of_cons in Hsc as [->|Hsc]; [|by apply Hin'].
        apply Hkeep'. rewrite lookup_insert_eq. eauto.
      * intros sc Hsc. apply Hkeep'. rewrite lookup_insert. case_decide; [eauto|done].
Qed.

(** One scope keeps the bookkeeping sound; a tracker is opened exactly when
    the scope before presented a swap chain, and the swap chains of the
    scope are bound. *)
Lemma TrackSemaphores_tracking ts prev scope :
  Tracking ts ->
  exists ts',
    TrackSemaphores true ts prev scope = Some ts' /\
    Tracking ts' /\
    TrackerCount ts' =
      (TrackerCount ts +
       match prev with
       | Some p => if Presents p then 1 else 0
       | None => 0
       end)%nat /\
    (forall sc, sc ∈ GetSwapChainsToPresent scope -> is_Some (swapChainTracker ts' !! sc)) /\
    (forall sc, is_Some (swapChainTracker ts !! sc) -> is_Some (swapChainTracker ts' !! sc)).
Proof.
  intros (c0 & h0 & Hc0 & Hh0 & Hcount0 & Hopen0 & Hasc0 & Hfences0 & Hbound0).
  unfold TrackSemaphores. rewrite Hc0.
  set (presented := match prev with
                    | Some p => negb (isEmpty (GetSwapChainsToPresent p))
                    | None => false
                    end).
  set (c1 := if presented then (CreateHandle c0).1 else c0).
  set (h1 := if presented then Some (CreateHandle c0).2 else currentSemaphoreHandle ts).
  assert (H1 : Collection.Open c1 /\ Collection.Ascending c1 /\
               length (m_trackers c1)
               = (length (m_trackers c0) + if presented then 1 else 0)%nat /\
               exists h, h1 = Some h /\ m_countTrackers h = Z.of_nat (length (m_trackers c1))).
  { unfold c1, h1. destruct presented.
    - destruct (CollectionProofs.apply_Open c0 Collection.OpCreateHandle Hopen0)
        as (c & [= <-] & Hopen & _ & Hasc).
      split; [done|]. split; [by apply Hasc|]. split.
      + simpl. rewrite length_app. simpl. lia.
      + eexists. split; [reflexivity|]. done.
    - split; [done|]. split; [done|]. split; [lia|]. rewrite Hh0. eauto. }
  destruct H1 as (Hopen1 & Hasc1 & Hlen1 & h & Hh1 & Hcount1).
  set (waits := Z.of_nat (length (GetWaitSemaphores scope) + length (GetWaitFences scope))).
  destruct (CollectionProofs.apply_Open c1 (Collection.OpAddSemaphores waits) Hopen1)
    as (c2 & Happly & Hopen2 & _ & Hasc2).
  simpl in Happly. rewrite Happly.
  pose proof (TrackerProofs.CollectionAddSemaphores_length _ _ _ Happly) as [_ Hlen2].
  set (fences2 := foldl RegisterWaitFence
                    (foldl RegisterSignalFence
                       (userFencesSignalledMap ts, numUnwaitedFences ts)
                       (GetSignalFences scope))
                    (GetWaitFences scope)).
  assert (Hfences2 : snd fences2 = Z.of_nat (size (UnwaitedFences (fst fences2)))).
  { unfold fences2. apply foldl_count; [apply RegisterWaitFence_count|].
    apply foldl_count; [apply RegisterSignalFence_count|]. done. }
  destruct (BindSwapChain_tracking (GetSwapChainsToPresent scope) c2 (fst fences2)
              (snd fences2) (swapChainTracker ts))
    as (c3 & fences3 & unwaited3 & bound3 & Hfold & Hopen3 & Hasc3 & Hlen3 & Hcount3
        & Hbound3 & Hin3 & Hkeep3).
  - done.
  - apply Hasc2; [|done]. unfold waits. simpl. lia.
  - done.
  - intros sc idx Hsc. rewrite Hlen2, Hlen1. apply Hbound0 in Hsc. lia.
  - rewrite Hfold. eexists. split; [reflexivity|]. split; [|split; [|split]].
    + exists c3, h. simpl. split; [done|]. split; [done|]. split; [|done].
      rewrite Hcount1. by rewrite Hlen3, Hlen2.
    + unfold TrackerCount. simpl. rewrite Hc0, Hlen3, Hlen2, Hlen1.
      unfold presented, Presents. destruct prev as [p|]; [|done].
      by destruct (negb (isEmpty (GetSwapChainsToPresent p))).
    + done.
    + done.
Qed.

Section Loop.
Context `{Platform}.
Variable m : gmap Z FrameGraphExecuterData.

Lemma FlushMergedScopes_handle ms handle scope scopeNext ms1 flushed :
  FlushMergedScopes m ms handle scope scopeNext = Some (ms1, flushed) ->
  scopePrev ms1 = scopePrev ms /\ Forall (fun g => GroupHandle g = handle) flushed.
Proof.
  unfold FlushMergedScopes.
  destruct (flushMergedScopes m ms scope scopeNext && negb (isEmpty (mergedScopes ms))).
  - destruct (scopePrev ms) as [prev|] eqn:Hprev; [|done].
    intros [= <- <-]. split; [done|]. by repeat constructor.
  - intros [= <- <-]. split; [done|]. constructor.
Qed.

Lemma MergeScope_handle ms handle scope scopeNext :
  Forall (fun g => GroupHandle g = handle) (MergeScope m ms handle scope scopeNext).2.
Proof.
  unfold MergeScope.
  match goal with |- context [if ?b then _ else _] => destruct b end;
    simpl; by repeat constructor.
Qed.

(** What an iteration does to the bookkeeping and with which handles it
    makes its groups: a flushed merge set gets the handle of the state
    before the scope, the scope's own group the handle after it. *)
Lemma ProcessScope_track useSemaphoreTrackers st scope scopeNext st' :
  ProcessScope m useSemaphoreTrackers st scope scopeNext = Some st' ->
  TrackSemaphores useSemaphoreTrackers (track st) (scopePrev (merge st)) scope
  = Some (track st') /\
  exists flushed created,
    m_groups st' = m_groups st ++ flushed ++ created /\
    Forall (fun g => GroupHandle g = currentSemaphoreHandle (track st)) flushed /\
    Forall (fun g => GroupHandle g = currentSemaphoreHandle (track st')) created.
Proof.
  unfold ProcessScope.
  destruct (FlushMergedScopes m (ResetQueueClass (merge st) scope)
              (currentSemaphoreHandle (track st)) scope scopeNext)
    as [[ms1 flushed]|] eqn:Hflush; [|done].
  destruct (FlushMergedScopes_handle _ _ _ _ _ _ Hflush) as [Hprev Hflushed].
  rewrite Hprev.
  replace (scopePrev (ResetQueueClass (merge st) scope)) with (scopePrev (merge st))
    by (unfold ResetQueueClass; by case_bool_decide).
  destruct (TrackSemaphores useSemaphoreTrackers (track st) (scopePrev (merge st)) scope)
    as [ts1|] eqn:Htrack; [|done].
  pose proof (MergeScope_handle ms1 (currentSemaphoreHandle ts1) scope scopeNext) as Hcreated.
  destruct (MergeScope m ms1 (currentSemaphoreHandle ts1) scope scopeNext)
    as [ms2 created].
  intros [= <-]. split; [done|]. by exists flushed, created.
Qed.

Lemma AllButLast_snoc done (scope : Scope) : AllButLast (done ++ [scope]) = done.
Proof.
  unfold AllButLast. rewrite length_app. simpl. rewrite Nat.add_1_r. simpl.
  apply take_app_length.
Qed.

Lemma presenting_before done :
  length (filter (fun s => Presents s = true) done)
  = (length (filter (fun s => Presents s = true) (AllButLast done))
     + match last done with
       | Some p => if Presents p then 1 else 0
       | None => 0
       end)%nat.
Proof.
  destruct done as [|p done _] using rev_ind; [done|].
  rewrite AllButLast_snoc, last_snoc, filter_app, length_app.
  rewrite filter_cons, filter_nil. destruct (Presents p); by case_decide.
Qed.

Lemma Tracked_step done st scope scopeNext st' :
  Reached true done st -> Tracked done st ->
  ProcessScope m true st scope scopeNext = Some st' ->
  Tracked (done ++ [scope]) st'.
Proof.
  intros (Hprev & _ & _) (Htracking & Hcount & Hbound & Hgroups) Hproc.
  destruct (ProcessScope_track _ _ _ _ _ Hproc)
    as (Htrack & flushed & created & Hnew & Hflushed & Hcreated).
  destruct (TrackSemaphores_tracking (track st) (scopePrev (merge st)) scope Htracking)
    as (ts' & Htrack' & Htracking' & Hcount' & Hin' & Hkeep').
  rewrite Htrack in Htrack'. injection Htrack' as <-.
  split; [done|]. split; [|split].
  - rewrite AllButLast_snoc, (presenting_before done), Hcount', Hcount, Hprev. lia.
  - intros s sc Hs Hsc. apply elem_of_app in Hs as [Hs|Hs].
    + apply Hkeep'. by eapply Hbound.
    + apply list_elem_of_singleton in Hs. subst. by apply Hin'.
  - assert (Hgrow : (TrackerCount (track st) <= TrackerCount (track st'))%nat) by lia.
    destruct Htracking as (c & h & Hc & Hh & Hhc & _).
    destruct Htracking' as (c' & h' & Hc' & Hh' & Hhc' & Hopen' & _).
    assert (Hpos : (1 <= length (m_trackers c))%nat).
    { unfold TrackerCount in Hcount. rewrite Hc in Hcount. lia. }
    unfold HandleInRange, TrackerCount in *. rewrite Hc, Hc' in Hgrow. rewrite Hc'.
    rewrite Hc in Hgroups.
    rewrite Hnew, !Forall_app. split; [|split].
    + eapply Forall_impl; [exact Hgroups|]. intros g (hg & Hg & Hrange).
      exists hg. split; [done|]. lia.
    + eapply Forall_impl; [exact Hflushed|]. intros g Hg. exists h.
      split; [congruence|]. lia.
    + eapply Forall_impl; [exact Hcreated|]. intros g Hg. exists h'.
      split; [congruence|]. lia.
Qed.

Lemma Tracked_initial : Tracked [] (InitialState true).
Proof.
  split; [|split; [|split]].
  - eexists _, _. simpl. split; [reflexivity|]. split; [reflexivity|].
    split; [done|]. split; [apply CollectionProofs.CreateHandle_Open|]. split.
    + split; unfold Collection.ExpectedCounts; simpl.
      * intros [|i] [|j] a b Hij Hi Hj; simpl in *; try done. naive_solver lia.
      * by repeat constructor.
    + split; [done|]. intros sc idx Hsc. by rewrite lookup_empty in Hsc.
  - done.
  - intros s sc Hs. by apply elem_of_nil in Hs.
  - constructor.
Qed.

Lemma MergeLoop_tracked scopes :
  exists st,
    MergeLoop m true (InitialState true) scopes = Some st /\ Tracked scopes st.
Proof.
  destruct (MergeLoop_invariant m true scopes
              (fun done st => Reached true done st /\ Tracked done st))
    with (rest := scopes) (done := @nil Scope) (st := InitialState true)
    as (st & Hloop & _ & Htracked).
  - intros done scope rest st Hall (Hreached & Htracked).
    destruct (ProcessScope_cases m true st scope (head rest)
                (Reached_scopePrev _ _ _ Hreached) (proj1 (proj2 Hreached)))
      as (st' & ? & ? & ? & Hproc & _).
    exists st'. split; [done|]. split.
    + eapply Reached_step; eauto.
    + eapply Tracked_step; eauto.
  - done.
  - split; [apply Reached_initial|apply Tracked_initial].
  - eauto.
Qed.

(** Without trackers the bookkeeping stays as it was and no group gets a
    handle. *)
Lemma MergeLoop_untracked scopes :
  exists st,
    MergeLoop m false (InitialState false) scopes = Some st /\
    track st = InitialTrackState false /\
    Forall (fun g => GroupHandle g = None) (m_groups st).
Proof.
  destruct (MergeLoop_invariant m false scopes
              (fun done st => Reached false done st /\
                              track st = InitialTrackState false /\
                              Forall (fun g => GroupHandle g = None) (m_groups st)))
    with (rest := scopes) (done := @nil Scope) (st := InitialState false)
    as (st & Hloop & _ & Htrack & Hgroups).
  - intros done scope rest st Hall (Hreached & Htrack & Hgroups).
    destruct (ProcessScope_cases m false st scope (head rest)
                (Reached_scopePrev _ _ _ Hreached) (proj1 (proj2 Hreached)))
      as (st' & ? & ? & ? & Hproc & _).
    exists st'. split; [done|]. split; [eapply Reached_step; eauto|].
    destruct (ProcessScope_track _ _ _ _ _ Hproc)
      as (Htrack' & flushed & created & Hnew & Hflushed & Hcreated).
    simpl in Htrack'. injection Htrack' as Htrack'. rewrite <- Htrack' in *.
    split; [done|]. rewrite Hnew, !Forall_app. rewrite Htrack in Hflushed, Hcreated.
    done.
  - done.
  - split; [apply Reached_initial|]. split; [done|constructor].
  - eauto.
Qed.

End Loop.

Section Begin.
Context `{Platform}.
Variable m : gmap Z FrameGraphExecuterData.

Lemma BeginInternal_tracked front rest :
  SignalFenceFromCPU (GetDeviceIndex front) = true ->
  exists st,
    BeginInternal false m (front :: rest) = Some st /\ Tracked (front :: rest) st.
Proof.
  intros Hsignal. rewrite BeginInternal_heuristic, Hsignal.
  destruct (MergeLoop_tracked m (front :: rest))
    as (st & -> & Htracking & Hcount & Hbound & Hgroups).
  eexists. split; [reflexivity|].
  unfold MergePending. destruct (mergedScopes (merge st)) as [|first merged]; [done|].
  split; [done|]. split; [done|]. split; [done|]. simpl.
  apply Forall_app. split; [done|]. constructor; [|constructor].
  destruct Htracking as (c & h & Hc & Hh & Hhc & _).
  exists h. split; [done|]. unfold TrackerCount in *. simpl. rewrite Hc in *. lia.
Qed.

(** X9. With fences that the CPU can signal, in cost-heuristic mode every
    execute group gets a tracker handle, and signalling through the handle
    of any group succeeds on the collection [BeginInternal] leaves: a handle
    counts at least one tracker and never more trackers than there are. *)
Theorem every_group_can_signal_its_trackers front rest :
  SignalFenceFromCPU (GetDeviceIndex front) = true ->
  exists st c,
    BeginInternal false m (front :: rest) = Some st /\
    semaphoreTrackers (track st) = Some c /\
    forall g, g ∈ m_groups st ->
      exists h, GroupHandle g = Some h /\
                (1 <= Z.to_nat (m_countTrackers h) <= length (m_trackers c))%nat /\
                forall n, is_Some (HandleSignalSemaphores h n c).
Proof.
  intros Hsignal.
  destruct (BeginInternal_tracked front rest Hsignal)
    as (st & Hbegin & Htracking & _ & _ & Hgroups).
  destruct Htracking as (c & _ & Hc & _).
  exists st, c. split; [done|]. split; [done|]. intros g Hg.
  rewrite Forall_forall in Hgroups. destruct (Hgroups g Hg) as (h & Hh & Hrange).
  unfold TrackerCount in Hrange. rewrite Hc in Hrange.
  exists h. split; [done|]. split; [lia|]. intros n.
  unfold HandleSignalSemaphores, CollectionSignalSemaphores.
  destruct (CollectionProofs.SignalFirst_spec (Z.to_nat (m_countTrackers h)) n (m_trackers c))
    as (ts' & -> & _); [lia|]. eauto.
Qed.

(** X10. With fences that the CPU can signal, in cost-heuristic mode the
    collection ends with one tracker for the frame and one more for every
    scope that presents a swap chain and is not the last scope. *)
Theorem one_tracker_per_presenting_scope front rest :
  SignalFenceFromCPU (GetDeviceIndex front) = true ->
  exists st c,
    BeginInternal false m (front :: rest) = Some st /\
    semaphoreTrackers (track st) = Some c /\
    length (m_trackers c)
    = S (length (filter (fun s => Presents s = true) (AllButLast (front :: rest)))).
Proof.
  intros Hsignal.
  destruct (BeginInternal_tracked front rest Hsignal)
    as (st & Hbegin & Htracking & Hcount & _).
  destruct Htracking as (c & _ & Hc & _).
  exists st, c. split; [done|]. split; [done|].
  unfold TrackerCount in Hcount. by rewrite Hc in Hcount.
Qed.

(** X11. With fences that the CPU can signal, in cost-heuristic mode every swap
    chain that a scope presents is bound to a tracker of the collection. *)
Theorem presented_swap_chains_are_bound front rest :
  SignalFenceFromCPU (GetDeviceIndex front) = true ->
  exists st c,
    BeginInternal false m (front :: rest) = Some st /\
    semaphoreTrackers (track st) = Some c /\
    forall scope swapchain,
      scope ∈ front :: rest -> swapchain ∈ GetSwapChainsToPresent scope ->
      exists index tracker,
        swapChainTracker (track st) !! swapchain = Some index /\
        m_trackers c !! index = Some tracker.
Proof.
  intros Hsignal.
  destruct (BeginInternal_tracked front rest Hsignal)
    as (st & Hbegin & Htracking & _ & Hbound & _).
  destruct Htracking as (c & h & Hc & _ & _ & _ & _ & _ & Hrange).
  exists st, c. split; [done|]. split; [done|]. intros scope swapchain Hscope Hswap.
  destruct (Hbound scope swapchain Hscope Hswap) as [index Hindex].
  destruct (lookup_lt_is_Some_2 (m_trackers c) index) as [tracker Htracker].
  { by eapply Hrange. }
  eauto.
Qed.


(** X13. With fences that the CPU can signal, in cost-heuristic mode the
    collection [BeginInternal] leaves has nothing signalled, its newest
    tracker expects the running total, and the expected counts never
    decrease from an older tracker to a newer one. *)
Theorem newer_trackers_expect_no_less front rest :
  SignalFenceFromCPU (GetDeviceIndex front) = true ->
  exists st c current,
    BeginInternal false m (front :: rest) = Some st /\
    semaphoreTrackers (track st) = Some c /\
    last (m_trackers c) = Some current /\
    m_semaphoreCounter current = m_semaphoreCount c /\
    Forall (fun t => m_signalledSemaphoreCounter t = 0) (m_trackers c) /\
    Collection.AscendingCounts (Collection.ExpectedCounts c).
Proof.
  intros Hsignal.
  destruct (BeginInternal_tracked front rest Hsignal)
    as (st & Hbegin & Htracking & _).
  destruct Htracking as (c & h & Hc & _ & _ & Hopen & Hasc & _).
  destruct Hopen as (older & current & Htrackers & Hcurrent & Hzero).
  exists st, c, current. split; [done|]. split; [done|].
  split; [by rewrite Htrackers, last_snoc|]. split; [done|]. split; [done|].
  apply Hasc.
Qed.

(** X14. Without fences that the CPU can signal, in cost-heuristic mode no
    tracker collection is made, no group gets a handle, and fences and swap
    chains are not registered. *)
Theorem no_trackers_without_cpu_signalling front rest :
  SignalFenceFromCPU (GetDeviceIndex front) = false ->
  exists st,
    BeginInternal false m (front :: rest) = Some st /\
    semaphoreTrackers (track st) = None /\
    userFencesSignalledMap (track st) = ∅ /\
    swapChainTracker (track st) = ∅ /\
    Forall (fun g => GroupHandle g = None) (m_groups st).
Proof.
  intros Hsignal. rewrite BeginInternal_heuristic, Hsignal.
  destruct (MergeLoop_untracked m (front :: rest)) as (st & -> & Htrack & Hgroups).
  eexists. split; [reflexivity|].
  unfold MergePending. destruct (mergedScopes (merge st)) as [|first merged]; simpl.
  - rewrite Htrack. done.
  - rewrite Htrack. simpl. split; [done|]. split; [done|]. split; [done|].
    apply Forall_app. split; [done|]. by repeat constructor.
Qed.

End Begin.

Import Examples MoreExamples.

Lemma every_group_can_signal_its_trackers_witness :
  @SignalFenceFromCPU Vulkan (GetDeviceIndex FrameP) = true /\
  exists st c,
    @BeginInternal Vulkan false Data20 [FrameP; FrameQ; FrameR] = Some st /\
    semaphoreTrackers (track st) = Some c /\
    forall g, g ∈ m_groups st ->
      exists h, GroupHandle g = Some h /\
                (1 <= Z.to_nat (m_countTrackers h) <= length (m_trackers c))%nat /\
                forall n, is_Some (HandleSignalSemaphores h n c).
Proof.
  split; [reflexivity|].
  apply (@every_group_can_signal_its_trackers Vulkan Data20 FrameP [FrameQ; FrameR]).
  reflexivity.
Defined.

Lemma one_tracker_per_presenting_scope_witness :
  @SignalFenceFromCPU Vulkan (GetDeviceIndex FrameP) = true /\
  exists st c,
    @BeginInternal Vulkan false Data20 [FrameP; FrameQ; FrameR] = Some st /\
    semaphoreTrackers (track st) = Some c /\
    length (m_trackers c)
    = S (length (filter (fun s => Presents s = true) (AllButLast [FrameP; FrameQ; FrameR]))).
Proof.
  split; [reflexivity|].
  apply (@one_tracker_per_presenting_scope Vulkan Data20 FrameP [FrameQ; FrameR]).
  reflexivity.
Defined.

Lemma presented_swap_chains_are_bound_witness :
  @SignalFenceFromCPU Vulkan (GetDeviceIndex FrameP) = true /\
  exists st c,
    @BeginInternal Vulkan false Data20 [FrameP; FrameQ; FrameR] = Some st /\
    semaphoreTrackers (track st) = Some c /\
    forall scope swapchain,
      scope ∈ [FrameP; FrameQ; FrameR] -> swapchain ∈ GetSwapChainsToPresent scope ->
      exists index tracker,
        swapChainTracker (track st) !! swapchain = Some index /\
        m_trackers c !! index = Some tracker.
Proof.
  split; [reflexivity|].
  apply (@presented_swap_chains_are_bound Vulkan Data20 FrameP [FrameQ; FrameR]).
  reflexivity.
Defined.


Lemma newer_trackers_expect_no_less_witness :
  @SignalFenceFromCPU Vulkan (GetDeviceIndex FrameP) = true /\
  exists st c current,
    @BeginInternal Vulkan false Data20 [FrameP; FrameQ; FrameR] = Some st /\
    semaphoreTrackers (track st) = Some c /\
    last (m_trackers c) = Some current /\
    m_semaphoreCounter current = m_semaphoreCount c /\
    Forall (fun t => m_signalledSemaphoreCounter t = 0) (m_trackers c) /\
    Collection.AscendingCounts (Collection.ExpectedCounts c).
Proof.
  split; [reflexivity|].
  apply (@newer_trackers_expect_no_less Vulkan Data20 FrameP [FrameQ; FrameR]).
  reflexivity.
Defined.

Lemma no_trackers_without_cpu_signalling_witness :
  @SignalFenceFromCPU VulkanNoCpuSignal (GetDeviceIndex FrameP) = false /\
  exists st,
    @BeginInternal VulkanNoCpuSignal false Data20 [FrameP; FrameQ; FrameR] = Some st /\
    semaphoreTrackers (track st) = None /\
    userFencesSignalledMap (track st) = ∅ /\
    swapChainTracker (track st) = ∅ /\
    Forall (fun g => GroupHandle g = None) (m_groups st).
Proof.
  split; [reflexivity|].
  apply (@no_trackers_without_cpu_signalling VulkanNoCpuSignal Data20 FrameP
           [FrameQ; FrameR]).
  reflexivity.
Defined.

End BookkeepingProofs.

(** ** Swap chains per command list, and the in-sync build *)

Module LimitsProofs.

Import Tracker Executer Handlers Vocabulary ExecuterProofs.

Lemma swapChainTotal_app xs ys :
  swapChainTotal (xs ++ ys) = swapChainTotal xs + swapChainTotal ys.
Proof. induction xs as [|x xs IH]; simpl; [done|]. rewrite IH. lia. Qed.

Lemma swapChainTotal_nonneg xs : 0 <= swapChainTotal xs.
Proof. induction xs as [|x xs IH]; simpl; lia. Qed.

Lemma swapChainTotal_perm xs ys : xs ≡ₚ ys -> swapChainTotal xs = swapChainTotal ys.
Proof. induction 1; simpl; lia. Qed.

Section Loop.
Context `{Platform}.
Variable m : gmap Z FrameGraphExecuterData.
Variable useSemaphoreTrackers : bool.

Lemma willFlush_false_swapchains ms scope scopeNext :
  willFlush m ms scope scopeNext = false -> mergedScopes ms <> [] ->
  u32_add (mergedSwapchainCount ms) (swapchainCount scope)
  <= m_swapChainsPerCommandList (ExecuterData m (GetDeviceIndex scope)).
Proof.
  unfold willFlush. intros Hflush Hne.
  apply andb_false_iff in Hflush as [Hflush|Hempty].
  - unfold flushMergedScopes in Hflush.
    do 4 (apply orb_false_iff in Hflush as [Hflush _]).
    apply orb_false_iff in Hflush as [_ Hflush].
    unfold exceededSwapChainLimit in Hflush. apply bool_decide_eq_false in Hflush.
    replace (mergedSwapchainCount (ResetQueueClass ms scope))
      with (mergedSwapchainCount ms) in Hflush.
    + lia.
    + unfold ResetQueueClass. by case_bool_decide.
  - apply negb_false_iff, isEmpty_true in Hempty. done.
Qed.

Lemma SwapChainsBounded_step done st scope scopeNext st' :
  swapChainTotal (done ++ [scope]) < 2 ^ 32 ->
  Reached useSemaphoreTrackers done st -> SwapChainsBounded m st ->
  ProcessScope m useSemaphoreTrackers st scope scopeNext = Some st' ->
  SwapChainsBounded m st'.
Proof.
  intros Hsmall Hreached (Hcount & Hmerged & Hgroups) Hproc.
  destruct (ProcessScope_cases m useSemaphoreTrackers st scope scopeNext
              (Reached_scopePrev _ _ _ Hreached) (proj1 (proj2 Hreached)))
    as (st1 & device & handle & handle' & Hproc1 & _ & _ & Hgroups1 & Hmerged1 & _ & _ & _
        & _ & Hcount1).
  rewrite Hproc in Hproc1. injection Hproc1 as <-.
  destruct Hreached as (_ & _ & Hperm).
  pose proof (swapChainTotal_perm _ _ Hperm) as Htotal.
  rewrite swapChainTotal_app in Htotal, Hsmall.
  pose proof (swapChainTotal_nonneg (AllScopes (m_groups st))) as Hgroups0.
  pose proof (swapChainTotal_nonneg (mergedScopes (merge st))) as Hmerged0.
  change (swapChainTotal [scope])
    with (Z.of_nat (length (GetSwapChainsToPresent scope)) + 0) in Hsmall.
  assert (Hscope : swapchainCount scope = Z.of_nat (length (GetSwapChainsToPresent scope))).
  { unfold swapchainCount, size_u32. apply wrap32_small. lia. }
  unfold SwapChainsBounded. rewrite Hgroups1, Hmerged1, Hcount1.
  clear Hgroups1 Hmerged1 Hcount1.
  assert (Hsingle : forall s, FitsSwapChainLimit m [s]).
  { intros s Hlen. simpl in Hlen. lia. }
  assert (Hnone : FitsSwapChainLimit m []).
  { intros Hlen. simpl in Hlen. lia. }
  destruct (willFlush m (merge st) scope scopeNext) eqn:Hflush;
    destruct (mergeable m (scopePrev (merge st)) scope scopeNext) eqn:Hmerge; simpl;
    rewrite ?app_nil_r.
  - split; [|split; [apply Hsingle|]].
    + unfold u32_add. rewrite Hscope, Z.add_0_r. apply wrap32_small. lia.
    + apply Forall_app. split; [done|]. by repeat constructor.
  - split; [done|]. split; [done|].
    apply Forall_app. split; [done|]. constructor; [done|]. constructor; [|constructor].
    apply Hsingle.
  - assert (Hnew : u32_add (mergedSwapchainCount (merge st)) (swapchainCount scope)
                   = swapChainTotal (mergedScopes (merge st) ++ [scope])).
    { unfold u32_add. rewrite swapChainTotal_app, Hcount, Hscope. simpl.
      rewrite Z.add_0_r. apply wrap32_small. lia. }
    split; [done|]. split; [|done].
    intros Hlen. exists scope. split; [apply last_snoc|]. rewrite <- Hnew.
    apply (willFlush_false_swapchains _ _ _ Hflush).
    intros Hnil. rewrite Hnil in Hlen. simpl in Hlen. lia.
  - split; [done|]. split; [done|].
    apply Forall_app. split; [done|]. constructor; [|constructor]. apply Hsingle.
Qed.

Lemma MergeLoop_swapchains scopes :
  swapChainTotal scopes < 2 ^ 32 ->
  exists st,
    MergeLoop m useSemaphoreTrackers (InitialState useSemaphoreTrackers) scopes = Some st /\
    SwapChainsBounded m st.
Proof.
  intros Hsmall.
  destruct (MergeLoop_invariant m useSemaphoreTrackers scopes
              (fun done st => Reached useSemaphoreTrackers done st /\ SwapChainsBounded m st))
    with (rest := scopes) (done := @nil Scope) (st := InitialState useSemaphoreTrackers)
    as (st & Hloop & _ & Hbounded).
  - intros done scope rest st Hall [Hreached Hbounded].
    destruct (ProcessScope_cases m useSemaphoreTrackers st scope (head rest)
                (Reached_scopePrev _ _ _ Hreached) (proj1 (proj2 Hreached)))
      as (st' & ? & ? & ? & Hproc & _).
    exists st'. split; [done|]. split.
    + eapply Reached_step; eauto.
    + eapply SwapChainsBounded_step; eauto.
      rewrite Hall in Hsmall. rewrite !swapChainTotal_app in *.
      pose proof (swapChainTotal_nonneg rest). simpl in *. lia.
  - done.
  - split; [apply Reached_initial|].
    split; [done|]. split; [|constructor]. intros Hlen. simpl in Hlen. lia.
  - eauto.
Qed.

(** The in-sync loop leaves the bookkeeping of the semaphores as it finds
    it and ends with an empty merge set. *)
Lemma InSyncLoop_track scopes : forall st,
  mergedScopes (merge st) = [] ->
  track (InSyncLoop st scopes) = track st /\
  mergedScopes (merge (InSyncLoop st scopes)) = [].
Proof.
  induction scopes as [|scope rest IH]; intros st Hempty; simpl; [done|].
  destruct (IH (ProcessScopeInSync st scope (head rest))) as [Htrack Hmerged].
  - unfold ProcessScopeInSync.
    by destruct (subpassGroup (scopePrev (merge st)) scope (head rest)).
  - rewrite Htrack, Hmerged. split; [|done].
    unfold ProcessScopeInSync.
    by destruct (subpassGroup (scopePrev (merge st)) scope (head rest)).
Qed.

End Loop.

Section Begin.
Context `{Platform}.
Variable m : gmap Z FrameGraphExecuterData.

(** X8. In cost-heuristic mode, when the scopes present fewer than 2^32 swap
    chains in all, a group of two or more scopes presents no more swap
    chains than [m_swapChainsPerCommandList] of the device of its last
    scope allows. *)
Theorem merged_groups_fit_swap_chain_limit scopes :
  scopes <> [] ->
  swapChainTotal scopes < 2 ^ 32 ->
  exists st,
    BeginInternal false m scopes = Some st /\
    Forall (fun g => FitsSwapChainLimit m (GroupScopes g)) (m_groups st).
Proof.
  intros Hne Hsmall. destruct scopes as [|front rest]; [done|].
  rewrite BeginInternal_heuristic.
  destruct (MergeLoop_swapchains m (SignalFenceFromCPU (GetDeviceIndex front)) (front :: rest)
              Hsmall) as (st & -> & _ & Hmerged & Hgroups).
  eexists. split; [reflexivity|].
  destruct (MergePending_groups st) as [[_ ->]|[_ [device ->]]]; [done|].
  apply Forall_app. split; [done|]. by repeat constructor.
Qed.

(** X15. In the in-sync build [BeginInternal] makes the tracker collection the
    device asks for and then never uses it: it ends with the bookkeeping it
    started with, no semaphore added, no fence or swap chain registered, and
    with an empty merge set. *)
Theorem in_sync_never_uses_trackers scopes front :
  head scopes = Some front ->
  exists st,
    BeginInternal true m scopes = Some st /\
    track st = InitialTrackState (SignalFenceFromCPU (GetDeviceIndex front)) /\
    mergedScopes (merge st) = [].
Proof.
  intros Hfront. destruct scopes as [|first rest]; [done|].
  injection Hfront as ->. rewrite BeginInternal_in_sync.
  eexists. split; [reflexivity|].
  by apply InSyncLoop_track.
Qed.

End Begin.

Import Examples MoreExamples.

Lemma merged_groups_fit_swap_chain_limit_witness :
  [ScopeA; FrameR; QueueS] <> [] /\
  swapChainTotal [ScopeA; FrameR; QueueS] < 2 ^ 32 /\
  exists st,
    @BeginInternal Vulkan false Data20 [ScopeA; FrameR; QueueS] = Some st /\
    Forall (fun g => @FitsSwapChainLimit Vulkan Data20 (GroupScopes g)) (m_groups st).
Proof.
  split; [discriminate|]. split; [reflexivity|].
  apply (@merged_groups_fit_swap_chain_limit Vulkan Data20 [ScopeA; FrameR; QueueS]).
  - discriminate.
  - reflexivity.
Defined.

Lemma in_sync_never_uses_trackers_witness :
  head [FrameP; FrameQ; FrameR] = Some FrameP /\
  exists st,
    @BeginInternal Vulkan true Data20 [FrameP; FrameQ; FrameR] = Some st /\
    track st = InitialTrackState (@SignalFenceFromCPU Vulkan (GetDeviceIndex FrameP)) /\
    mergedScopes (merge st) = [].
Proof.
  split; [reflexivity|].
  apply (@in_sync_never_uses_trackers Vulkan Data20 [FrameP; FrameQ; FrameR] FrameP).
  reflexivity.
Defined.

End LimitsProofs.

(** ** The data [InitInternal] stores *)

Module InitMoreProofs.

Import Executer InitProofs.

Lemma InitInternal_cons m entry descs :
  fst (InitInternal m (entry :: descs))
  = fst (InitInternal (match azrtti_cast (snd entry) with
                       | Some d => <[fst entry := d]> m
                       | None => m
                       end) descs).
Proof. reflexivity. Qed.

Lemma InitInternal_absent m descs device :
  device ∉ descs.*1 -> fst (InitInternal m descs) !! device = m !! device.
Proof.
  intros Hnotin. apply InitInternal_skips, Forall_forall.
  intros [i p] Hin Hi. simpl in Hi. subst i.
  exfalso. apply Hnotin. apply list_elem_of_fmap. by exists (device, p).
Qed.

(** X20. When the descriptor names a device once, as a map does, [InitInternal]
    stores for the device the data of its Vulkan platform-limits
    descriptor, and keeps what the executer had when the entry is no such
    descriptor or the descriptor does not name the device. *)
Theorem InitInternal_stores_vulkan_limits m descs device :
  NoDup (descs.*1) ->
  (forall p, (device, p) ∈ descs ->
             fst (InitInternal m descs) !! device
             = match azrtti_cast p with
               | Some d => Some d
               | None => m !! device
               end) /\
  (device ∉ descs.*1 -> fst (InitInternal m descs) !! device = m !! device).
Proof.
  intros Hnodup. split; [|apply InitInternal_absent].
  revert m Hnodup.
  induction descs as [|[i q] descs IH]; intros m Hnodup p Hin.
  - by apply elem_of_nil in Hin.
  - rewrite fmap_cons in Hnodup. apply NoDup_cons in Hnodup as [Hnotin Hnodup].
    simpl in Hnotin. rewrite InitInternal_cons. cbn [fst snd].
    apply elem_of_cons in Hin as [[= <- <-]|Hin].
    + rewrite InitInternal_absent by done.
      destruct (azrtti_cast p); [by rewrite lookup_insert_eq|done].
    + rewrite (IH _ Hnodup p Hin).
      destruct (azrtti_cast p); [done|].
      assert (Hne : i <> device).
      { intros ->. apply Hnotin. apply list_elem_of_fmap. by exists (device, p). }
      destruct (azrtti_cast q); [by rewrite lookup_insert_ne|done].
Qed.

(** X21. When the descriptor names a device once, the data [InitInternal] stores
    do not depend on the order in which the entries of the map come. *)
Theorem InitInternal_order_irrelevant m descs descs' :
  NoDup (descs.*1) ->
  descs ≡ₚ descs' ->
  InitInternal m descs = InitInternal m descs'.
Proof.
  intros Hnodup Hperm. unfold InitInternal. f_equal.
  revert m Hnodup.
  induction Hperm as [|entry descs descs' Hperm IH|[i p] [j q] descs
                      |descs descs' descs'' Hperm IH Hperm' IH'];
    intros m Hnodup.
  - done.
  - simpl. apply IH. rewrite fmap_cons in Hnodup. by apply NoDup_cons in Hnodup as [_ ?].
  - simpl. f_equal.
    rewrite !fmap_cons in Hnodup. apply NoDup_cons in Hnodup as [Hnotin _].
    assert (Hne : j <> i).
    { intros ->. apply Hnotin. simpl. by left. }
    destruct (azrtti_cast p), (azrtti_cast q); try done.
    by apply insert_insert_ne.
  - rewrite IH by done. apply IH'. by rewrite <- Hperm.
Qed.

Import Examples.

Lemma InitInternal_stores_vulkan_limits_witness :
  NoDup ([(0, VulkanPlatformLimitsDescriptor LimitsFreeItems);
          (1, OtherPlatformLimitsDescriptor)].*1) /\
  (0, VulkanPlatformLimitsDescriptor LimitsFreeItems)
    ∈ [(0, VulkanPlatformLimitsDescriptor LimitsFreeItems);
       (1, OtherPlatformLimitsDescriptor)] /\
  fst (InitInternal Data20 [(0, VulkanPlatformLimitsDescriptor LimitsFreeItems);
                            (1, OtherPlatformLimitsDescriptor)]) !! 0
  = match azrtti_cast (VulkanPlatformLimitsDescriptor LimitsFreeItems) with
    | Some d => Some d
    | None => Data20 !! 0
    end.
Proof.
  assert (Hnodup : NoDup ([(0, VulkanPlatformLimitsDescriptor LimitsFreeItems);
                           (1, OtherPlatformLimitsDescriptor)].*1)).
  { repeat constructor; simpl; intros Hin; repeat (apply elem_of_cons in Hin as [Hin|Hin]);
      try discriminate; by apply elem_of_nil in Hin. }
  split; [exact Hnodup|]. split; [by repeat constructor|].
  apply (proj1 (InitInternal_stores_vulkan_limits Data20 _ 0 Hnodup)).
  by repeat constructor.
Defined.

Lemma InitInternal_order_irrelevant_witness :
  NoDup ([(0, VulkanPlatformLimitsDescriptor Limits20);
          (1, VulkanPlatformLimitsDescriptor LimitsFreeItems)].*1) /\
  [(0, VulkanPlatformLimitsDescriptor Limits20);
   (1, VulkanPlatformLimitsDescriptor LimitsFreeItems)]
  ≡ₚ [(1, VulkanPlatformLimitsDescriptor LimitsFreeItems);
      (0, VulkanPlatformLimitsDescriptor Limits20)] /\
  InitInternal ∅ [(0, VulkanPlatformLimitsDescriptor Limits20);
                  (1, VulkanPlatformLimitsDescriptor LimitsFreeItems)]
  = InitInternal ∅ [(1, VulkanPlatformLimitsDescriptor LimitsFreeItems);
                    (0, VulkanPlatformLimitsDescriptor Limits20)].
Proof.
  assert (Hnodup : NoDup ([(0, VulkanPlatformLimitsDescriptor Limits20);
                           (1, VulkanPlatformLimitsDescriptor LimitsFreeItems)].*1)).
  { repeat constructor; simpl; intros Hin; repeat (apply elem_of_cons in Hin as [Hin|Hin]);
      try discriminate; by apply elem_of_nil in Hin. }
  split; [exact Hnodup|]. split; [apply Permutation_swap|].
  apply (InitInternal_order_irrelevant ∅ _ _ Hnodup). apply Permutation_swap.
Defined.

End InitMoreProofs.

(** ** Overlapping calls of [ExecuteGroupInternal] *)

Module InterleavingProofs.

Import Interleaving.

(** A call that no other call overlaps is [ExecuteGroupInternal] as the
    handlers see it. *)
Lemma atomic_call m thread groupId :
  steps Handler.IsExecuted Handler.IsComplete Handler.End
    (Start m) [StepTest thread groupId; StepEnd thread]
  = match Handler.ExecuteGroupInternal m groupId with
    | Some (m', ends) => Some {| handlers := m'; inFlight := ∅; ended := ends |}
    | None => None
    end.
Proof.
  unfold Handler.ExecuteGroupInternal. simpl. rewrite lookup_empty.
  destruct (m !! groupId) as [handler|] eqn:Hhandler; [|done]. simpl.
  rewrite lookup_insert_eq, delete_insert_eq, delete_empty.
  destruct (negb (Handler.IsExecuted handler) && Handler.IsComplete handler); [|done].
  do 2 f_equal. apply map_eq. intros id.
  destruct (decide (id = groupId)) as [->|Hne].
  - by rewrite lookup_alter_eq, lookup_insert_eq, Hhandler.
  - by rewrite lookup_alter_ne, lookup_insert_ne.
Qed.

Section WithHandler.

Variable FrameGraphExecuteGroupHandler : Type.
Variable IsExecuted : FrameGraphExecuteGroupHandler -> bool.
Variable IsComplete : FrameGraphExecuteGroupHandler -> bool.
Variable End : FrameGraphExecuteGroupHandler -> FrameGraphExecuteGroupHandler.




End WithHandler.

Import MoreExamples.


End InterleavingProofs.
